(** * The iMIP mail gateway of twistedcaldav (twistedcaldav/mail.py)

    A shallow embedding of the token database, the inbound classifier and
    rewriter, and the authenticating HTTP injector, followed by the
    properties the specification states about them.

    Conventions of the embedding:
    - Python [str] values are [string]s (byte strings); [None] is [option].
    - A Python call that may raise is a [result]; the exceptions are
      instances of Python's [Exception] class.
    - Log calls, the call of the injection function and the flagging of a
      message as deleted are recorded as [Event]s in a trace (monad [M]).
    - The SQLite table TOKENS is the list of its rows, in insertion order;
      a DATESTAMP is the day number of a [datetime.date].
    - What the gateway imports and the sources do not contain is a
      parameter of the section that uses it (the [email] parsers, the
      calendar parser, [_db_value_for_sql], the digests), or, for the
      calendar classes, a definition modelled from the specification. *)

From Stdlib Require Import String Ascii ZArith List Lia Bool.
From stdpp Require Import base strings gmap list.

Open Scope string_scope.
Open Scope list_scope.
Open Scope Z_scope.

Set Warnings "-register-all".

(** ** Python values and exceptions *)

(** Instances of [Exception] raised along the modelled paths. *)
Inductive exn : Type :=
| ValueError
| IndexError
| KeyError
| TypeError
| AttributeError
| AssertionError
| OtherException (what : string).

Inductive result (A : Type) : Type :=
| Return (a : A)
| Raise (e : exn).
Arguments Return {A} a.
Arguments Raise {A} e.

#[global] Instance result_ret : MRet result := λ A a, Return a.

#[global] Instance result_bind : MBind result := λ A B k r,
  match r with
  | Return a => k a
  | Raise e => Raise e
  end.

#[global] Instance result_fmap : FMap result := λ A B f r,
  match r with
  | Return a => Return (f a)
  | Raise e => Raise e
  end.

(** Truth value of a Python string or of an optional string. *)
Definition nonempty (s : string) : bool :=
  match s with
  | EmptyString => false
  | String _ _ => true
  end.

Definition truthy (o : option string) : bool :=
  match o with
  | None => false
  | Some s => nonempty s
  end.

(** ** Python string methods used by the gateway *)

Module Py.

(** [s.split(sep)] for a one-character separator: never empty. *)
Fixpoint split (sep : ascii) (s : string) : list string :=
  match s with
  | EmptyString => [EmptyString]
  | String c s' =>
      if Ascii.eqb c sep then EmptyString :: split sep s'
      else match split sep s' with
           | [] => [String c EmptyString]
           | w :: ws => String c w :: ws
           end
  end.

(** [s.split(sep, 1)]: at most one split. *)
Fixpoint split1 (sep : ascii) (s : string) : list string :=
  match s with
  | EmptyString => [EmptyString]
  | String c s' =>
      if Ascii.eqb c sep then [EmptyString; s']
      else match split1 sep s' with
           | [] => [String c EmptyString]
           | w :: ws => String c w :: ws
           end
  end.

Definition lower_ascii (c : ascii) : ascii :=
  let n := nat_of_ascii c in
  if (Nat.leb 65 n && Nat.leb n 90)%bool then ascii_of_nat (n + 32) else c.

(** [s.lower()] in the C locale. *)
Fixpoint lower (s : string) : string :=
  match s with
  | EmptyString => EmptyString
  | String c s' => String (lower_ascii c) (lower s')
  end.

(** [s.startswith(p)]. *)
Definition startswith (s p : string) : bool := String.prefix p s.

Definition is_space (c : ascii) : bool :=
  let n := nat_of_ascii c in
  (Nat.eqb n 32 || (Nat.leb 9 n && Nat.leb n 13))%bool.

Fixpoint lstrip (s : string) : string :=
  match s with
  | EmptyString => EmptyString
  | String c s' => if is_space c then lstrip s' else s
  end.

Fixpoint rstrip (s : string) : string :=
  match s with
  | EmptyString => EmptyString
  | String c s' =>
      match rstrip s' with
      | EmptyString => if is_space c then EmptyString else String c EmptyString
      | r => String c r
      end
  end.

(** [s.strip()]. *)
Definition strip (s : string) : string := rstrip (lstrip s).

(** [s[n:]]. *)
Fixpoint drop (n : nat) (s : string) : string :=
  match n, s with
  | O, _ => s
  | S n', String _ s' => drop n' s'
  | S _, EmptyString => EmptyString
  end.

(** [s[:n]]. *)
Fixpoint take (n : nat) (s : string) : string :=
  match n, s with
  | S n', String c s' => String c (take n' s')
  | _, _ => EmptyString
  end.

(** [s[-1]] of a non-empty string, and [s[:-1]]. *)
Fixpoint last (c : ascii) (s : string) : ascii :=
  match s with
  | EmptyString => c
  | String c' s' => last c' s'
  end.

Fixpoint init (s : string) : string :=
  match s with
  | EmptyString => EmptyString
  | String c EmptyString => EmptyString
  | String c s' => String c (init s')
  end.

(** [s.replace(c, "")] for a one-character [c]. *)
Fixpoint remove (c : ascii) (s : string) : string :=
  match s with
  | EmptyString => EmptyString
  | String c' s' => if Ascii.eqb c' c then remove c s' else String c' (remove c s')
  end.

(** ["%s" % (x,)] for a string or [None]. *)
Definition str (o : option string) : string :=
  match o with
  | None => "None"
  | Some s => s
  end.

(** [c in s]. *)
Fixpoint contains (c : ascii) (s : string) : bool :=
  match s with
  | EmptyString => false
  | String c' s' => (Ascii.eqb c' c || contains c s')%bool
  end.

End Py.

(** ** The token database (class MailGatewayTokensDatabase)

    ROW: TOKEN, ORGANIZER, ATTENDEE, ICALUID, DATESTAMP.  The table is
    created without any key or uniqueness constraint, so it is a list of rows.
    The uid that [outbound] stores is [component.propertyValue("UID")],
    [None] for a component without that property: the column then holds
    NULL. *)

Record Row : Type := mkRow {
  TOKEN : string;
  ORGANIZER : string;
  ATTENDEE : string;
  ICALUID : option string;
  DATESTAMP : Z
}.

#[global] Instance Row_eq_dec : EqDecision Row.
Proof. solve_decision. Defined.

Abbreviation Tokens := (list Row).

(** [_db_init_data_tables]: the freshly created table has no row. *)
Definition _db_init_data_tables : Tokens := [].

(** The rows selected by [where ORGANIZER = :1 and ATTENDEE = :2 and ICALUID = :3].
    A uid that is [None] is bound as NULL, and a comparison with NULL
    selects no row, whatever the column holds. *)
Definition for_triple (organizer attendee : string) (icaluid : option string) (r : Row)
    : Prop :=
  ORGANIZER r = organizer ∧ ATTENDEE r = attendee ∧
  icaluid ≠ None ∧ ICALUID r = icaluid.

#[global] Instance for_triple_dec o a u r : Decision (for_triple o a u r).
Proof. unfold for_triple. apply _. Defined.

(** [update TOKENS set DATESTAMP = :1 WHERE TOKEN = :2]. *)
Definition set_datestamp (today : Z) (token : string) (r : Row) : Row :=
  if decide (TOKEN r = token)
  then mkRow (TOKEN r) (ORGANIZER r) (ATTENDEE r) (ICALUID r) today
  else r.

(** [createToken]: [uuid] is the value [str(uuid.uuid4())] would give, used
    when no token is passed; the row is inserted unconditionally. *)
Definition createToken (organizer attendee : string) (icaluid : option string)
    (token : option string) (uuid : string) (today : Z) (db : Tokens) : string * Tokens :=
  let token := match token with None => uuid | Some t => t end in
  (token, db ++ [mkRow token organizer attendee icaluid today]).

(** [lookupByToken]. *)
Definition lookupByToken (token : string) (db : Tokens)
    : option (string * string * option string) :=
  let results := filter (λ r, TOKEN r = token) db in
  match results with
  | [r] => Some (ORGANIZER r, ATTENDEE r, ICALUID r)
  | _ => None
  end.

(** [deleteToken]. *)
Definition deleteToken (token : string) (db : Tokens) : Tokens :=
  filter (λ r, TOKEN r ≠ token) db.

(** [purgeOldTokens]: [delete from TOKENS where DATESTAMP < :1]. *)
Definition purgeOldTokens (before : Z) (db : Tokens) : Tokens :=
  filter (λ r, ¬ (DATESTAMP r < before)) db.

(** [MailHandler.__init__]: the purge run at construction, with
    [days = config.Scheduling.iMIP.InvitationDaysToLive]. *)
Definition MailHandler_init (days today : Z) (db : Tokens) : Tokens :=
  purgeOldTokens (today - days) db.

Section TokenRequests.

(** [AbstractSQLDatabase._db_value_for_sql] (twistedcaldav/sql.py) is not
    among the sources: it is taken as a parameter, applied to the column
    values the query selects.  All that is assumed of it is that it gives
    [None] when no row is selected and the value when one row is. *)
Variable _db_value_for_sql : list string → result (option string).

(** [getToken]. *)
Definition getToken (organizer attendee : string) (icaluid : option string) (today : Z)
    (db : Tokens) : result (option string * Tokens) :=
  (token ← _db_value_for_sql
             (TOKEN <$> filter (for_triple organizer attendee icaluid) db) ;
   match token with
   | Some t => Return (Some t, set_datestamp today t <$> db)
   | None => Return (None, db)
   end).

(** The token step of [MailHandler.outbound] (lines 989-996): the token
    found or created, the flag [newInvitation], and the table afterwards. *)
Definition outbound_token (organizer attendee : string) (icaluid : option string)
    (today : Z) (uuid : string) (db : Tokens) : result (string * bool * Tokens) :=
  ('(token, db1) ← getToken organizer attendee icaluid today db ;
   match token with
   | None =>
       let '(t, db2) := createToken organizer attendee icaluid None uuid today db1 in
       Return (t, true, db2)
   | Some t => Return (t, false, db1)
   end).

(** One operation of the gateway on the table. *)
Inductive step : Tokens → Tokens → Prop :=
| step_outbound o a u today uuid db t n db' :
    outbound_token o a u today uuid db = Return (t, n, db') → step db db'
| step_purge before db : step db (purgeOldTokens before db)
| step_delete token db : step db (deleteToken token db).

Inductive reachable : Tokens → Prop :=
| reachable_init : reachable _db_init_data_tables
| reachable_step db db' : reachable db → step db db' → reachable db'.

End TokenRequests.

(** A scalar reader that fits the assumptions made of [_db_value_for_sql]:
    it refuses a result of several rows. *)
Definition single_value (values : list string) : result (option string) :=
  match values with
  | [] => Return None
  | [v] => Return (Some v)
  | _ => Raise AssertionError
  end.

(** The triple that a row stores. *)
Definition triple (r : Row) : string * string * option string :=
  (ORGANIZER r, ATTENDEE r, ICALUID r).

(** At most one row among those that a request for a triple selects. *)
Definition one_row_per_triple (db : Tokens) : Prop :=
  ∀ o a u, (length (filter (for_triple o a u) db) ≤ 1)%nat.

(** ** Calendar objects (classes Property and Component) *)

Module ical.

(** Modelled from the spec: the class [Property] of twistedcaldav/ical.py,
    which is not among the sources.  A property has a name and a value;
    the value is a text or, as for REQUEST-STATUS, a list of texts. *)
Inductive PValue : Type :=
| Text (s : string)
| TextList (l : list string).

#[global] Instance PValue_eq_dec : EqDecision PValue.
Proof. solve_decision. Defined.

Record Property : Type := mkProperty { pname : string; pvalue : PValue }.

#[global] Instance Property_eq_dec : EqDecision Property.
Proof. solve_decision. Defined.

(** Modelled from the spec: the class [Component] of twistedcaldav/ical.py,
    which is not among the sources.  A calendar object has a name, its
    properties in order, and its subcomponents in order. *)
Inductive Component : Type :=
| mkComponent (cname : string) (props : list Property) (subs : list Component).

Definition name (c : Component) : string :=
  match c with mkComponent n _ _ => n end.
Definition properties (c : Component) : list Property :=
  match c with mkComponent _ ps _ => ps end.
Definition subcomponents (c : Component) : list Component :=
  match c with mkComponent _ _ cs => cs end.

Definition is_named (n : string) (p : Property) : Prop := pname p = n.

#[global] Instance is_named_dec n p : Decision (is_named n p).
Proof. unfold is_named. apply _. Defined.

(** Modelled from the spec: [Component.addProperty]; the property is
    appended to the component's own properties. *)
Definition addProperty (p : Property) (c : Component) : Component :=
  mkComponent (name c) (properties c ++ [p]) (subcomponents c).

(** The properties of a calendar object: its own, then those of its
    subcomponents, in order. *)
Fixpoint allProperties (c : Component) : list Property :=
  match c with
  | mkComponent _ ps cs => ps ++ mjoin (allProperties <$> cs)
  end.

(** The place of a property in a calendar object: the indices of the
    subcomponents to go through, and the index among the properties of
    the component reached. *)
Abbreviation Position := (list nat * nat)%type.

(** The first property of a name in a list of components. *)
Definition find_first {A} (find : Component → option (Position * A))
    : nat → list Component → option (Position * A) :=
  fix go (j : nat) (cs : list Component) :=
    match cs with
    | [] => None
    | c :: cs' =>
        match find c with
        | Some (path, i, p) => Some (j :: path, i, p)
        | None => go (S j) cs'
        end
    end.

(** The first property of a name in a calendar object, its own properties
    before those of its subcomponents. *)
Fixpoint findProperty (n : string) (c : Component) : option (Position * Property) :=
  match c with
  | mkComponent _ ps cs =>
      match list_find (is_named n) ps with
      | Some (i, p) => Some ([], i, p)
      | None => find_first (findProperty n) 0 cs
      end
  end.

(** Modelled from the spec: [Component.getOrganizerProperty], the organizer
    property of the payload ("if no organizer property exists on the
    payload ... otherwise overwrite its value") or [None] when the payload
    has none, neither among its own properties nor in a subcomponent.  The
    property object is shared with the calendar, so the model returns its
    place in the calendar. *)
Definition getOrganizerProperty (c : Component) : option (Position * Property) :=
  findProperty "ORGANIZER" c.

(** Modelled from the spec: [Component.getOrganizer], the value of the
    organizer property. *)
Definition getOrganizer (c : Component) : option PValue :=
  (λ ip, pvalue ip.2) <$> getOrganizerProperty c.

(** The property at a place, with its value overwritten. *)
Fixpoint setValue_at (path : list nat) (i : nat) (v : PValue) (c : Component) : Component :=
  match path with
  | [] =>
      mkComponent (name c) (alter (λ p, mkProperty (pname p) v) i (properties c))
        (subcomponents c)
  | j :: path' =>
      mkComponent (name c) (properties c) (alter (setValue_at path' i v) j (subcomponents c))
  end.

(** Modelled from the spec: [Property.setValue] on the property at a place
    of the calendar: its value is overwritten in place. *)
Definition setValue (place : Position) (v : PValue) (c : Component) : Component :=
  setValue_at place.1 place.2 v c.

(** A calendar object without any ATTENDEE property, in itself or in a
    subcomponent. *)
Fixpoint withoutAttendees (c : Component) : Component :=
  match c with
  | mkComponent n ps cs =>
      mkComponent n (filter (λ p, ¬ is_named "ATTENDEE" p) ps) (withoutAttendees <$> cs)
  end.

(** Modelled from the spec: [Component.removeAllButOneAttendee], which is
    to "restrict the attendee list to exactly the looked-up attendee", so
    that "the rewritten payload has exactly one attendee", the one looked
    up, "regardless of how many attendees ... the untrusted input
    carried": of the ATTENDEE properties of the calendar object and of its
    subcomponents none is left but one with the value given.  The spec
    does not say where that property stands; the model has it among the
    calendar object's own properties. *)
Definition removeAllButOneAttendee (attendee : string) (c : Component) : Component :=
  addProperty (mkProperty "ATTENDEE" (Text attendee)) (withoutAttendees c).

(** The ATTENDEE properties of a payload, those of its subcomponents
    included. *)
Definition attendeeProperties (c : Component) : list Property :=
  filter (is_named "ATTENDEE") (allProperties c).

(** The ORGANIZER properties of a payload, those of its subcomponents
    included. *)
Definition organizerProperties (c : Component) : list Property :=
  filter (is_named "ORGANIZER") (allProperties c).

End ical.

(** ** Events and the trace monad *)

Inductive Level : Type := Error | Warn | Info | Debug.

(** The log messages of [MailHandler], one constructor for each format
    string, applied to the values formatted into it. *)
Inductive LogText : Type :=
| CantFindTokenInDSN (msgId : option string)
    (* "Mail gateway can't find token in DSN %s" *)
| UnknownTokenInDSN (token : string) (msgId : option string)
    (* "Mail gateway found a token (%s) but didn't recognize it in DSN %s" *)
| ProcessingDSN (msgId : option string)
    (* "Mail gateway processing DSN %s" *)
| NoTokenInMessage (msgId to : option string)
    (* "Mail gateway didn't find a token in message %s (%s)" *)
| CantParseTo (to msgId : option string)
    (* "Mail gateway couldn't parse To: address (%s) in message %s" *)
| NoIcalendarAttachment (msgId : option string)
    (* "Mail gateway didn't find an icalendar attachment in message %s" *)
| CalBody (calBody : option string)
    (* log_debug(calBody) *)
| UnknownTokenInMessage (token : string) (msgId : option string)
    (* "Mail gateway found a token (%s) but didn't recognize it in message %s" *)
| NoOrganizerInReply (msgId : option string)
    (* "Mail gateway didn't find an ORGANIZER in REPLY %s" *)
| CantProcessDSN (msgId : option string)
    (* "Mail gateway can't process DSN %s" *)
| Received (msgId from to : option string)
    (* "Mail gateway received message %s from %s to %s" *)
| FailedToProcess (e : exn).
    (* "Failed to process message: %s" *)

Inductive Event : Type :=
| Log (level : Level) (text : LogText)
| Inject (organizer attendee : string) (calendar : ical.Component) (msgId : option string)
| FlagDeleted (uid : nat).

(** A computation that logs, calls the injection function and may raise. *)
Definition M (A : Type) : Type := (list Event * result A)%type.

#[global] Instance M_ret : MRet M := λ A a, ([], Return a).

#[global] Instance M_bind : MBind M := λ A B k m,
  match m with
  | (t, Return a) => let '(t', r) := k a in (t ++ t', r)
  | (t, Raise e) => (t, Raise e)
  end.

Definition log (level : Level) (text : LogText) : M unit := ([Log level text], Return ()).

Definition lift {A} (r : result A) : M A := ([], r).

(** [try: body except Exception, e: handler e]. *)
Definition try_except {A} (body : M A) (handler : exn → M A) : M A :=
  match body with
  | (t, Return a) => (t, Return a)
  | (t, Raise e) => let '(t', r) := handler e in (t ++ t', r)
  end.

Definition is_inject (ev : Event) : Prop :=
  match ev with
  | Inject _ _ _ _ => True
  | _ => False
  end.

#[global] Instance is_inject_dec ev : Decision (is_inject ev).
Proof. destruct ev; simpl; apply _. Defined.

(** The injection attempts of a run. *)
Definition injections {A} (m : M A) : list Event := filter is_inject m.1.

Definition is_flag (ev : Event) : Prop :=
  match ev with
  | FlagDeleted _ => True
  | _ => False
  end.

#[global] Instance is_flag_dec ev : Decision (is_flag ev).
Proof. destruct ev; simpl; apply _. Defined.

(** ** Inbound messages (the [email] package's message objects) *)

(** A parsed MIME message or part: its headers, what [get_content_type()],
    [get_payload(decode=True)] and [str()] give for it, and its subparts. *)
Inductive Message : Type :=
| mkMessage (headers : list (string * string)) (content_type : string)
    (payload : option string) (text : string) (parts : list Message).

Definition headers (m : Message) : list (string * string) :=
  match m with mkMessage h _ _ _ _ => h end.
Definition get_content_type (m : Message) : string :=
  match m with mkMessage _ ct _ _ _ => ct end.
Definition get_payload (m : Message) : option string :=
  match m with mkMessage _ _ p _ _ => p end.
Definition as_str (m : Message) : string :=
  match m with mkMessage _ _ _ t _ => t end.
Definition parts (m : Message) : list Message :=
  match m with mkMessage _ _ _ _ ps => ps end.

(** [msg[name]]: the first header of that name, compared without case. *)
Fixpoint get_header (name : string) (hs : list (string * string)) : option string :=
  match hs with
  | [] => None
  | (k, v) :: hs' =>
      if decide (Py.lower k = Py.lower name) then Some v else get_header name hs'
  end.

Definition msg_get (m : Message) (name : string) : option string :=
  get_header name (headers m).

(** [msg.walk()]: the message, then its subparts, depth first. *)
Fixpoint walk (m : Message) : list Message :=
  match m with
  | mkMessage _ _ _ _ ps =>
      m :: (fix walk_all (l : list Message) : list Message :=
              match l with
              | [] => []
              | p :: l' => walk p ++ walk_all l'
              end) ps
  end.

Definition has_type (ct : string) (part : Message) : Prop := get_content_type part = ct.

#[global] Instance has_type_dec ct part : Decision (has_type ct part).
Proof. unfold has_type. apply _. Defined.

(** The last part of a content type among the parts walked. *)
Definition last_part (ct : string) (parts : list Message) : option Message :=
  last (filter (has_type ct) parts).

Definition or_else {A} (o d : option A) : option A :=
  match o with
  | Some x => Some x
  | None => d
  end.

(** ** The inbound pipeline (class MailHandler) *)

Section MailHandler.

(** What the environment provides: the [email] package and the calendar
    parser [ical.Component.fromString] (twistedcaldav/ical.py, not among
    the sources).  Each may raise.  [Deferred] is what the injection
    function returns. *)
Variable message_from_string : string → result Message.
Variable parseaddr : option string → result (string * string).
Variable fromString : option string → result ical.Component.
Variable Deferred : Type.

(** The injection function [fn]: its call is recorded in the trace. *)
Definition InjectFn : Type :=
  string → string → ical.Component → option string → result Deferred.

Definition call (fn : InjectFn) (organizer attendee : string)
    (calendar : ical.Component) (msgId : option string) : M (option Deferred) :=
  ([Inject organizer attendee calendar msgId],
   Some <$> fn organizer attendee calendar msgId).

(** The loop of [checkDSN] over [message.walk()]: the last part of each
    of the four content types. *)
Definition scan_part
    (acc : option Message * option Message * option Message * option string)
    (part : Message)
    : option Message * option Message * option Message * option string :=
  let '(report, deliveryStatus, original, calBody) := acc in
  let content_type := get_content_type part in
  if decide (content_type = "multipart/report")
  then (Some part, deliveryStatus, original, calBody)
  else if decide (content_type = "message/delivery-status")
  then (report, Some part, original, calBody)
  else if decide (content_type = "message/rfc822")
  then (report, deliveryStatus, Some part, calBody)
  else if decide (content_type = "text/calendar")
  then (report, deliveryStatus, original, get_payload part)
  else acc.

(** The loop of [checkDSN] over the lines of the delivery status: the
    second space-separated field of the first line that starts with
    [action:] once lowered; [lower.split(' ')[1]] raises IndexError when
    the line has no space. *)
Fixpoint find_action (lines : list string) : result (option string) :=
  match lines with
  | [] => Return None
  | line :: lines' =>
      let lower := Py.lower line in
      if Py.startswith lower "action:"
      then match Py.split " " lower !! 1%nat with
           | Some action => Return (Some action)
           | None => Raise IndexError
           end
      else find_action lines'
  end.

(** [checkDSN]: returns (isDSN, Action, icalendar attachment). *)
Definition checkDSN (message : Message) : result (bool * option string * option string) :=
  let '(report, deliveryStatus, original, calBody) :=
    foldl scan_part (None, None, None, None) (walk message) in
  match report, deliveryStatus with
  | Some _, Some deliveryStatus =>
      let lines := Py.split "010" (as_str deliveryStatus) in
      action ← find_action lines;
      Return (true, action, calBody)
  | _, _ => Return (false, None, None)
  end.

(** [_extractToken]: both unpackings need exactly two fields, otherwise
    ValueError is raised and caught. *)
Definition _extractToken (text : string) : option string :=
  match Py.split "@" text with
  | [pre; post] =>
      match Py.split "+" pre with
      | [pre; token] => Some token
      | _ => None
      end
  | _ => None
  end.

(** The loop of [processDSN] over [calendar.subcomponents()]: the first
    VEVENT gets the REQUEST-STATUS property. *)
Fixpoint add_request_status (comps : list ical.Component) : list ical.Component :=
  match comps with
  | [] => []
  | comp :: comps' =>
      if decide (ical.name comp = "VEVENT")
      then ical.addProperty
             (ical.mkProperty "REQUEST-STATUS" (ical.TextList ["5.1"; "Service unavailable"]))
             comp :: comps'
      else comp :: add_request_status comps'
  end.

(** [processDSN]. *)
Definition processDSN (db : Tokens) (calBody : string) (msgId : option string)
    (fn : InjectFn) : M (option Deferred) :=
  calendar ← lift (fromString (Some calBody));
  organizer ← lift (match ical.getOrganizer calendar with
                    | Some (ical.Text organizer) => Return organizer
                    | _ => Raise AttributeError
                    end);
  match _extractToken organizer with
  | Some (String _ _ as token) =>
      match lookupByToken token db with
      | None =>
          log Error (UnknownTokenInDSN token msgId);; mret None
      | Some (organizer, attendee, icaluid) =>
          let calendar := ical.removeAllButOneAttendee attendee calendar in
          calendar ← lift (match ical.getOrganizerProperty calendar with
                           | Some (i, _) => Return (ical.setValue i (ical.Text organizer) calendar)
                           | None => Raise AttributeError
                           end);
          let calendar :=
            ical.mkComponent (ical.name calendar) (ical.properties calendar)
              (add_request_status (ical.subcomponents calendar)) in
          log Warn (ProcessingDSN msgId);;
          call fn organizer attendee calendar msgId
      end
  | _ =>
      log Error (CantFindTokenInDSN msgId);; mret None
  end.

(** Lines 929-952 of [processReply]: the payload is parsed, the token is
    looked up and the payload rewritten and handed to [fn]. *)
Definition rewriteReply (db : Tokens) (token : string) (calBody : option string)
    (msgId : option string) (fn : InjectFn) : M (option Deferred) :=
  log Debug (CalBody calBody);;
  calendar ← lift (fromString calBody);
  match lookupByToken token db with
  | None =>
      log Error (UnknownTokenInMessage token msgId);; mret None
  | Some (organizer, attendee, icaluid) =>
      let calendar := ical.removeAllButOneAttendee attendee calendar in
      calendar ← match ical.getOrganizerProperty calendar with
                 | None =>
                     log Warn (NoOrganizerInReply msgId);;
                     mret (ical.addProperty
                             (ical.mkProperty "ORGANIZER" (ical.Text organizer)) calendar)
                 | Some (i, _) =>
                     mret (ical.setValue i (ical.Text organizer) calendar)
                 end;
      call fn organizer attendee calendar msgId
  end.

(** [processReply]. *)
Definition processReply (db : Tokens) (msg : Message) (fn : InjectFn)
    : M (option Deferred) :=
  '(name, addr) ← lift (parseaddr (msg_get msg "To"));
  if nonempty addr then
    match _extractToken addr with
    | Some (String _ _ as token) =>
        match list_find (has_type "text/calendar") (walk msg) with
        | Some (_, part) =>
            rewriteReply db token (get_payload part) (msg_get msg "Message-ID") fn
        | None =>
            log Error (NoIcalendarAttachment (msg_get msg "Message-ID"));; mret None
        end
    | _ =>
        log Error (NoTokenInMessage (msg_get msg "Message-ID") (msg_get msg "To"));;
        mret None
    end
  else
    log Error (CantParseTo (msg_get msg "To") (msg_get msg "Message-ID"));; mret None.

(** The suite of the [try] statement of [inbound]. *)
Definition inbound_body (db : Tokens) (message : string) (fn : InjectFn)
    : M (option Deferred) :=
  msg ← lift (message_from_string message);
  '(isDSN, action, calBody) ← lift (checkDSN msg);
  if isDSN : bool then
    match action, calBody with
    | Some "failed", Some (String _ _ as calBody) =>
        processDSN db calBody (msg_get msg "Message-ID") fn
    | _, _ =>
        log Error (CantProcessDSN (msg_get msg "Message-ID"));; mret None
    end
  else
    log Info (Received (msg_get msg "Message-ID") (msg_get msg "From") (msg_get msg "To"));;
    processReply db msg fn.

(** The handler of [inbound]'s [except] clause. *)
Definition log_failure (e : exn) : M (option Deferred) :=
  log Error (FailedToProcess e);; mret None.

(** [inbound]: [except Exception, e] logs the failure and falls through,
    so the result is [None]. *)
Definition inbound (db : Tokens) (message : string) (fn : InjectFn)
    : M (option Deferred) :=
  try_except (inbound_body db message fn) log_failure.

(** The download loop of the IMAP4 poller, [fetchNextMessage] ->
    [cbGotMessage] -> [cbFlagDeleted] -> [cbMessageDeleted] ->
    [fetchNextMessage], over the messages of the inbox (UID and RFC822
    text): each is given to [inbound] through the factory's
    [handleMessage], then flagged as deleted. *)
Definition cbGotMessage (db : Tokens) (uid : nat) (messageData : string)
    (fn : InjectFn) : M unit :=
  inbound db messageData fn;;
  ([FlagDeleted uid], Return ()).

Fixpoint fetchNextMessage (db : Tokens) (messages : list (nat * string))
    (fn : InjectFn) : M unit :=
  match messages with
  | [] => mret ()
  | (nextUID, messageData) :: messages' =>
      cbGotMessage db nextUID messageData fn;;
      fetchNextMessage db messages' fn
  end.

End MailHandler.

(** A line that is no [Action:] line for [checkDSN]. *)
Definition other_line (line : string) : Prop :=
  Py.startswith (Py.lower line) "action:" = false.

(** A line that reads [Action: failed], in any letter case, alone or
    followed by a space and more text. *)
Definition reads_failed (line : string) : Prop :=
  Py.lower line = "action: failed" ∨ ∃ rest, Py.lower line = "action: failed " +:+ rest.

(** The payload [rewriteReply] hands to the injection function. *)
Definition reply_payload (organizer attendee : string) (calendar : ical.Component)
    : ical.Component :=
  let calendar := ical.removeAllButOneAttendee attendee calendar in
  match ical.getOrganizerProperty calendar with
  | None => ical.addProperty (ical.mkProperty "ORGANIZER" (ical.Text organizer)) calendar
  | Some (i, _) => ical.setValue i (ical.Text organizer) calendar
  end.

(** ** Digest computation ([calcHA1], [calcResponse]) *)

Definition dquote : ascii := "034".

Definition hex_digit (n : N) : ascii :=
  ascii_of_N (if (n <? 10)%N then 48 + n else 87 + n)%N.

(** [s.encode('hex')]: two lowercase hexadecimal digits for each byte. *)
Fixpoint encode_hex (s : string) : string :=
  match s with
  | EmptyString => EmptyString
  | String c s' =>
      let n := N_of_ascii c in
      String (hex_digit (n / 16)) (String (hex_digit (n mod 16)) (encode_hex s'))
  end.

Definition hex_value (c : ascii) : option N :=
  let n := N_of_ascii c in
  if ((48 <=? n) && (n <=? 57))%N then Some (n - 48)%N
  else if ((97 <=? n) && (n <=? 102))%N then Some (n - 87)%N
  else if ((65 <=? n) && (n <=? 70))%N then Some (n - 55)%N
  else None.

(** [s.decode('hex')]: TypeError on an odd length or a character that is
    no hexadecimal digit. *)
Fixpoint decode_hex (s : string) : result string :=
  match s with
  | EmptyString => Return EmptyString
  | String _ EmptyString => Raise TypeError
  | String a (String b s') =>
      match hex_value a, hex_value b with
      | Some x, Some y =>
          r ← decode_hex s';
          Return (String (ascii_of_N (16 * x + y)) r)
      | _, _ => Raise TypeError
      end
  end.

(** The constructors of [hashlib] the gateway uses. *)
Inductive Hash : Type := md5 | sha1.

(** The digests of [hashlib], as RFC 1321 and FIPS 180 define them.  The
    properties below hold for any digest function; these give the values
    of the examples. *)
Module hashlib.

(** Bytes and 32-bit words. *)
Definition bytes_of (s : string) : list Z :=
  (λ c, Z.of_N (N_of_ascii c)) <$> list_ascii_of_string s.

Definition string_of (bs : list Z) : string :=
  string_of_list_ascii ((λ b, ascii_of_N (Z.to_N b)) <$> bs).

Definition mask32 (x : Z) : Z := x mod 4294967296.

Definition not32 (x : Z) : Z := 4294967295 - x.

Definition rotl (x c : Z) : Z :=
  mask32 (Z.lor (Z.shiftl x c) (Z.shiftr x (32 - c))).

(** [n] bytes of [x], least significant first. *)
Fixpoint le_bytes (n : nat) (x : Z) : list Z :=
  match n with
  | O => []
  | S n' => x mod 256 :: le_bytes n' (x / 256)
  end.

Definition be_bytes (n : nat) (x : Z) : list Z := reverse (le_bytes n x).

(** The padding common to MD5 and SHA-1, the bit length coming last as
    eight bytes in the order [len_bytes] gives. *)
Definition pad (len_bytes : nat → Z → list Z) (msg : list Z) : list Z :=
  let len := Z.of_nat (length msg) in
  msg ++ [128] ++ replicate (Z.to_nat ((55 - len) mod 64)) 0 ++ len_bytes 8%nat (8 * len).

(** The words of a block, four bytes each. *)
Fixpoint words (word : Z → Z → Z → Z → Z) (bs : list Z) : list Z :=
  match bs with
  | b0 :: b1 :: b2 :: b3 :: bs' => word b0 b1 b2 b3 :: words word bs'
  | _ => []
  end.

(** Blocks of sixteen words. *)
Fixpoint blocks (fuel : nat) (ws : list Z) : list (list Z) :=
  match fuel, ws with
  | S fuel', _ :: _ => take 16 ws :: blocks fuel' (drop 16 ws)
  | _, _ => []
  end.

Definition le_word (b0 b1 b2 b3 : Z) : Z := b0 + 256 * b1 + 65536 * b2 + 16777216 * b3.
Definition be_word (b0 b1 b2 b3 : Z) : Z := le_word b3 b2 b1 b0.

Definition md5_shifts : list Z :=
  [7; 12; 17; 22; 7; 12; 17; 22; 7; 12; 17; 22; 7; 12; 17; 22;
   5; 9; 14; 20; 5; 9; 14; 20; 5; 9; 14; 20; 5; 9; 14; 20;
   4; 11; 16; 23; 4; 11; 16; 23; 4; 11; 16; 23; 4; 11; 16; 23;
   6; 10; 15; 21; 6; 10; 15; 21; 6; 10; 15; 21; 6; 10; 15; 21].

Definition md5_K : list Z :=
  [3614090360; 3905402710; 606105819; 3250441966; 4118548399; 1200080426; 2821735955;
   4249261313; 1770035416; 2336552879; 4294925233; 2304563134; 1804603682; 4254626195;
   2792965006; 1236535329; 4129170786; 3225465664; 643717713; 3921069994; 3593408605;
   38016083; 3634488961; 3889429448; 568446438; 3275163606; 4107603335; 1163531501;
   2850285829; 4243563512; 1735328473; 2368359562; 4294588738; 2272392833; 1839030562;
   4259657740; 2763975236; 1272893353; 4139469664; 3200236656; 681279174; 3936430074;
   3572445317; 76029189; 3654602809; 3873151461; 530742520; 3299628645; 4096336452;
   1126891415; 2878612391; 4237533241; 1700485571; 2399980690; 4293915773; 2240044497;
   1873313359; 4264355552; 2734768916; 1309151649; 4149444226; 3174756917; 718787259;
   3951481745].

Definition md5_step (M : list Z) (st : Z * Z * Z * Z) (i : nat) : Z * Z * Z * Z :=
  let '(A, B, C, D) := st in
  let '(F, g) :=
    if (i <? 16)%nat then (Z.lor (Z.land B C) (Z.land (not32 B) D), i)
    else if (i <? 32)%nat then (Z.lor (Z.land D B) (Z.land (not32 D) C), (5 * i + 1) mod 16)%nat
    else if (i <? 48)%nat then (Z.lxor (Z.lxor B C) D, (3 * i + 5) mod 16)%nat
    else (Z.lxor C (Z.lor B (not32 D)), (7 * i) mod 16)%nat in
  let F := mask32 (F + A + nth i md5_K 0 + nth g M 0) in
  (D, mask32 (B + rotl F (nth i md5_shifts 0)), B, C).

Definition md5_block (st : Z * Z * Z * Z) (M : list Z) : Z * Z * Z * Z :=
  let '(a0, b0, c0, d0) := st in
  let '(A, B, C, D) := foldl (md5_step M) st (seq 0 64) in
  (mask32 (a0 + A), mask32 (b0 + B), mask32 (c0 + C), mask32 (d0 + D)).

(** [hashlib.md5(s).digest()]. *)
Definition md5 (s : string) : string :=
  let bs := pad le_bytes (bytes_of s) in
  let '(a, b, c, d) :=
    foldl md5_block (1732584193, 4023233417, 2562383102, 271733878)
      (blocks (length bs) (words le_word bs)) in
  string_of (le_bytes 4 a ++ le_bytes 4 b ++ le_bytes 4 c ++ le_bytes 4 d).

(** The message schedule of SHA-1: the eighty words, latest first. *)
Definition sha1_extend (W : list Z) (i : nat) : list Z :=
  rotl (Z.lxor (Z.lxor (nth 2 W 0) (nth 7 W 0)) (Z.lxor (nth 13 W 0) (nth 15 W 0))) 1 :: W.

Definition sha1_step (W : list Z) (st : Z * Z * Z * Z * Z) (i : nat) : Z * Z * Z * Z * Z :=
  let '(a, b, c, d, e) := st in
  let '(f, k) :=
    if (i <? 20)%nat then (Z.lor (Z.land b c) (Z.land (not32 b) d), 1518500249)
    else if (i <? 40)%nat then (Z.lxor (Z.lxor b c) d, 1859775393)
    else if (i <? 60)%nat
    then (Z.lor (Z.lor (Z.land b c) (Z.land b d)) (Z.land c d), 2400959708)
    else (Z.lxor (Z.lxor b c) d, 3395469782) in
  (mask32 (rotl a 5 + f + e + k + nth i W 0), a, rotl b 30, c, d).

Definition sha1_block (st : Z * Z * Z * Z * Z) (M : list Z) : Z * Z * Z * Z * Z :=
  let W := reverse (foldl sha1_extend (reverse M) (seq 16 64)) in
  let '(h0, h1, h2, h3, h4) := st in
  let '(a, b, c, d, e) := foldl (sha1_step W) st (seq 0 80) in
  (mask32 (h0 + a), mask32 (h1 + b), mask32 (h2 + c), mask32 (h3 + d), mask32 (h4 + e)).

(** [hashlib.sha1(s).digest()]. *)
Definition sha1 (s : string) : string :=
  let bs := pad be_bytes (bytes_of s) in
  let '(h0, h1, h2, h3, h4) :=
    foldl sha1_block (1732584193, 4023233417, 2562383102, 271733878, 3285377520)
      (blocks (length bs) (words be_word bs)) in
  string_of (be_bytes 4 h0 ++ be_bytes 4 h1 ++ be_bytes 4 h2 ++ be_bytes 4 h3 ++ be_bytes 4 h4).

End hashlib.

Definition hashlib_digest (h : Hash) : string → string :=
  match h with
  | md5 => hashlib.md5
  | sha1 => hashlib.sha1
  end.

(** The dictionary [algorithms]. *)
Definition algorithms : gmap string Hash :=
  <["md5" := md5]> (<["md5-sess" := md5]> (<["sha" := sha1]> ∅)).

(** [algorithms[key]]: KeyError for a key that is not in the dictionary,
    [None] included. *)
Definition algorithms_get (key : option string) : result Hash :=
  match key ≫= (λ k, algorithms !! k) with
  | Some h => Return h
  | None => Raise KeyError
  end.

(** [m.update(x)] on a hash object that has been fed [m] so far: TypeError
    when [x] is [None]. *)
Definition update (m : string) (x : option string) : result string :=
  match x with
  | Some s => Return (m +:+ s)
  | None => Raise TypeError
  end.

Section Digest.

(** [hashlib]: the raw digest of a byte string under each algorithm. *)
Variable digest : Hash → string → string.

(** [calcHA1]. *)
Definition calcHA1 (pszAlg pszUserName pszRealm pszPassword pszNonce pszCNonce
    preHA1 : option string) : result string :=
  if (truthy preHA1 && (truthy pszUserName || truthy pszRealm || truthy pszPassword))%bool
  then Raise TypeError
  else
    HA1 ← match preHA1 with
          | None =>
              h ← algorithms_get pszAlg;
              m ← update "" pszUserName;
              m ← update m (Some ":");
              m ← update m pszRealm;
              m ← update m (Some ":");
              m ← update m pszPassword;
              Return (digest h m)
          | Some pre => decode_hex pre
          end;
    HA1 ← (if decide (pszAlg = Some "md5-sess")
           then
             h ← algorithms_get pszAlg;
             m ← update "" (Some HA1);
             m ← update m (Some ":");
             m ← update m pszNonce;
             m ← update m (Some ":");
             m ← update m pszCNonce;
             Return (digest h m)
           else Return HA1);
    Return (encode_hex HA1).

(** [calcResponse]. *)
Definition calcResponse (HA1 : string) (algo pszNonce pszNonceCount pszCNonce pszQop
    pszMethod pszDigestUri pszHEntity : option string) : result string :=
  h ← algorithms_get algo;
  m ← update "" pszMethod;
  m ← update m (Some ":");
  m ← update m pszDigestUri;
  m ← (if decide (pszQop = Some "auth-int")
       then m ← update m (Some ":"); update m pszHEntity
       else Return m);
  let HA2 := encode_hex (digest h m) in
  h ← algorithms_get algo;
  m ← update "" (Some HA1);
  m ← update m (Some ":");
  m ← update m pszNonce;
  m ← update m (Some ":");
  m ← (if (truthy pszNonceCount && truthy pszCNonce && truthy pszQop)%bool
       then
         m ← update m pszNonceCount;
         m ← update m (Some ":");
         m ← update m pszCNonce;
         m ← update m (Some ":");
         m ← update m pszQop;
         update m (Some ":")
       else Return m);
  m ← update m (Some HA2);
  let respHash := encode_hex (digest h m) in
  Return respHash.

End Digest.

(** ** The authenticating injector (class AuthorizedHTTPGetter, injectMessage) *)

(** The attributes of the client factory the handler reads and writes.
    [username] is [None] when the factory has no such attribute, [retried]
    tells whether it has the attribute [retried]. *)
Record Factory : Type := mkFactory {
  username : option string;
  password : string;
  retried : bool;
  headers_out : gmap string string;
  method : string;
  url : string;
  scheme : string
}.

Inductive Unauthorized : Type :=
| AuthenticationRequired
    (* "...; authentication required for calendar server" *)
| CouldNotAuthenticate (user : string)
    (* "...; could not authenticate user %s with calendar server" *)
| NoBasicOrDigest.
    (* "...; calendar server returned 401 and doesn't support basic or digest" *)

(** What the handler does with the factory's deferred and the reactor. *)
Inductive Action : Type :=
| Errback (reason : Unauthorized)
| Connect (ssl : bool).

(** The local function [unq]; [s[0]] raises IndexError on an empty string. *)
Definition unq (s : string) : result string :=
  match s with
  | EmptyString => Raise IndexError
  | String c s' =>
      if (Ascii.eqb c (Py.last c s') && Ascii.eqb (Py.last c s') dquote)%bool
      then Return (Py.init s')
      else Return s
  end.

(** The inner loop of the handler, over [[p.split('=', 1) for p in parts]]:
    the unpacking raises ValueError on a part without [=]. *)
Fixpoint read_parts (kvs : list (list string)) (details : gmap string string)
    : result (gmap string string) :=
  match kvs with
  | [] => Return details
  | [k; v] :: kvs' =>
      v' ← unq (Py.strip v);
      read_parts kvs' (<[Py.strip k := v']> details)
  | _ :: _ => Raise ValueError
  end.

(** The loop of the handler over the values of the [www-authenticate]
    header: (basicAvailable, digestAvailable, details). *)
Fixpoint read_challenge (items : list string) (acc : bool * bool * gmap string string)
    : result (bool * bool * gmap string string) :=
  match items with
  | [] => Return acc
  | item :: items' =>
      let '(basicAvailable, digestAvailable, details) := acc in
      let basicAvailable :=
        if Py.startswith item "basic " then true else basicAvailable in
      if Py.startswith item "digest "
      then
        let wwwauth := Py.drop 7 item in
        let parts := Py.split "," wwwauth in
        details ← read_parts (Py.split1 "=" <$> parts) details;
        read_challenge items' (basicAvailable, true, details)
      else read_challenge items' (basicAvailable, digestAvailable, details)
  end.

(** The challenge offers a scheme when one of the header's values starts
    with its name in lower case and a space, ["basic "] or ["digest "]: the
    test of the handler. *)
Definition offers (scheme : string) (items : list string) : Prop :=
  ∃ item, item ∈ items ∧ Py.startswith item scheme = true.

Definition quoted (s : string) : string := String dquote (s +:+ String dquote "").

(** The encoder of the [base64] module, for the examples. *)
Module base64.

Definition alphabet : string :=
  "ABCDEFGHIJKLMNOPQRSTUVWXYZabcdefghijklmnopqrstuvwxyz0123456789+/".

Definition digit (n : N) : ascii :=
  match String.get (N.to_nat n) alphabet with
  | Some c => c
  | None => "="
  end.

(** [binascii.b2a_base64] without the final newline. *)
Fixpoint b2a (s : string) : string :=
  match s with
  | EmptyString => EmptyString
  | String a EmptyString =>
      let x := N_of_ascii a in
      String (digit (x / 4)) (String (digit ((x mod 4) * 16)) "==")
  | String a (String b EmptyString) =>
      let x := N_of_ascii a in
      let y := N_of_ascii b in
      String (digit (x / 4)) (String (digit ((x mod 4) * 16 + y / 16))
        (String (digit ((y mod 16) * 4)) "="))
  | String a (String b (String c s')) =>
      let x := N_of_ascii a in
      let y := N_of_ascii b in
      let z := N_of_ascii c in
      String (digit (x / 4)) (String (digit ((x mod 4) * 16 + y / 16))
        (String (digit ((y mod 16) * 4 + z / 64)) (String (digit (z mod 64)) (b2a s'))))
  end%N.

(** [base64.encodestring]: lines of 57 bytes, each encoded and ended by a
    newline. *)
Fixpoint encode_lines (fuel : nat) (s : string) : string :=
  match fuel, s with
  | S fuel', String _ _ =>
      b2a (Py.take 57 s) +:+ String "010" (encode_lines fuel' (Py.drop 57 s))
  | _, _ => EmptyString
  end.

Definition encodestring (s : string) : string := encode_lines (String.length s) s.

End base64.

Section Injector.

Variable digest : Hash → string → string.

(** [base64.encodestring]. *)
Variable encodestring : string → string.

(** The Authorization header for a Digest challenge. *)
Definition digest_authorization (user pswd method url : string)
    (details : gmap string string) : result string :=
  HA1 ← calcHA1 digest (details !! "algorithm") (Some user) (details !! "realm")
          (Some pswd) (details !! "nonce") (details !! "cnonce") None;
  digest ← calcResponse digest HA1 (details !! "algorithm") (details !! "nonce")
             (details !! "nc") (details !! "cnonce") (details !! "qop")
             (Some method) (Some url) None;
  if truthy (details !! "qop")
  then Return ("Digest username=" +:+ quoted user +:+
               ", realm=" +:+ quoted (Py.str (details !! "realm")) +:+
               ", nonce=" +:+ quoted (Py.str (details !! "nonce")) +:+
               ", uri=" +:+ quoted url +:+
               ", response=" +:+ digest +:+
               ", algorithm=" +:+ Py.str (details !! "algorithm") +:+
               ", cnonce=" +:+ quoted (Py.str (details !! "cnonce")) +:+
               ", qop=" +:+ Py.str (details !! "qop") +:+
               ", nc=" +:+ Py.str (details !! "nc"))
  else Return ("Digest username=" +:+ quoted user +:+
               ", realm=" +:+ quoted (Py.str (details !! "realm")) +:+
               ", nonce=" +:+ quoted (Py.str (details !! "nonce")) +:+
               ", uri=" +:+ quoted url +:+
               ", response=" +:+ digest +:+
               ", algorithm=" +:+ Py.str (details !! "algorithm")).

(** The Authorization header for a Basic challenge. *)
Definition basic_authorization (user pswd : string) : string :=
  let basicauth := user +:+ ":" +:+ pswd in
  let basicauth := "Basic " +:+ encodestring basicauth in
  Py.remove "010" basicauth.

(** The choice of the scheme in [handleStatus_401]: the header to retry
    with, or [None] when neither scheme is available. *)
Definition authorization (user pswd method url : string)
    (wwwauth : option (list string)) : result (option string) :=
  items ← match wwwauth with
          | Some items => Return items
          | None => Raise TypeError
          end;
  '(basicAvailable, digestAvailable, details) ← read_challenge items (false, false, ∅);
  if (digestAvailable && bool_decide (details ≠ (∅ : gmap string string)))%bool
  then Some <$> digest_authorization user pswd method url details
  else if basicAvailable : bool
  then Return (Some (basic_authorization user pswd))
  else Return None.

(** [handleStatus_401], given the values of the response's
    [www-authenticate] header: the factory afterwards and what was done
    with it. *)
Definition handleStatus_401 (factory : Factory) (wwwauth : option (list string))
    : Factory * result Action :=
  match username factory with
  | None => (factory, Return (Errback AuthenticationRequired))
  | Some user =>
      if retried factory
      then (factory, Return (Errback (CouldNotAuthenticate user)))
      else
        let factory :=
          mkFactory (username factory) (password factory) true (headers_out factory)
            (method factory) (url factory) (scheme factory) in
        match authorization user (password factory) (method factory) (url factory) wwwauth with
        | Return (Some response) =>
            (mkFactory (username factory) (password factory) true
               (<["Authorization" := response]> (headers_out factory))
               (method factory) (url factory) (scheme factory),
             Return (Connect (bool_decide (scheme factory = "https"))))
        | Return None => (factory, Return (Errback NoBasicOrDigest))
        | Raise e => (factory, Raise e)
        end
  end.

(** A response of the calendar server: its status and the values of its
    [www-authenticate] header. *)
Record Response : Type := mkResponse {
  status : Z;
  www_authenticate : option (list string)
}.

(** How one injection ends. *)
Inductive Outcome : Type :=
| Page (status : Z)             (* a response other than 401 ended it *)
| Failed (reason : Unauthorized)  (* the deferred's errback was called *)
| Crashed (e : exn)             (* the handler raised *)
| NoResponse.                   (* the server stopped answering *)

(** The client factory at work: each connection sends the POST with the
    factory's headers and reads the next response of the server; a 401 is
    given to [handleStatus_401], which may connect again.  The result is
    the headers of every POST sent, in order, and how the injection
    ended. *)
Fixpoint post (factory : Factory) (server : list Response)
    : list (gmap string string) * Outcome :=
  match server with
  | [] => ([headers_out factory], NoResponse)
  | response :: server' =>
      if decide (status response = 401)
      then match handleStatus_401 factory (www_authenticate response) with
           | (factory', Return (Connect _)) =>
               let '(sent, outcome) := post factory' server' in
               (headers_out factory :: sent, outcome)
           | (_, Return (Errback reason)) => ([headers_out factory], Failed reason)
           | (_, Raise e) => ([headers_out factory], Crashed e)
           end
      else ([headers_out factory], Page (status response))
  end.

(** [injectMessage]: the factory it builds.  [config_username] and
    [config_password] are [config.Scheduling.iMIP.Username] and
    [Password]; the attributes are set only for a non-empty user name. *)
Definition injectMessage_factory (config_username config_password : string)
    (organizer attendee url scheme : string) : Factory :=
  mkFactory
    (if nonempty config_username then Some config_username else None)
    config_password
    false
    (<["Content-Type" := "text/calendar"]>
       (<["Originator" := attendee]> (<["Recipient" := organizer]> ∅)))
    "POST" url scheme.

Definition injectMessage (config_username config_password : string)
    (organizer attendee url scheme : string) (server : list Response)
    : list (gmap string string) * Outcome :=
  post (injectMessage_factory config_username config_password organizer attendee url scheme)
    server.

End Injector.

(** ** Worked examples

    A small environment: three messages as the [email] package would parse
    them, the calendar objects their payloads stand for, and a table in
    which the token T belongs to (mailto:a@x.com, mailto:b@y.com, EVT-1). *)

Definition unlines (lines : list string) : string := String.concat (String "010" "") lines.

Definition example_part (content_type : string) (payload : string) : Message :=
  mkMessage [("Content-Type", content_type)] content_type (Some payload)
    (unlines ["Content-Type: " +:+ content_type; ""; payload]) [].

Definition example_message (to : string) (content_type : string) (parts : list Message)
    : Message :=
  mkMessage [("From", "b@y.com"); ("To", to); ("Message-ID", "<1@y.com>")]
    content_type None "" parts.

(** A reply whose calendar names only a foreign attendee. *)
Definition example_reply_foreign : Message :=
  example_message "calendar+T@example.com" "multipart/mixed"
    [example_part "text/plain" "Accepted"; example_part "text/calendar" "ICS-FOREIGN"].

(** A reply whose calendar names the attendee and a foreign one. *)
Definition example_reply : Message :=
  example_message "calendar+T@example.com" "multipart/mixed"
    [example_part "text/plain" "Accepted"; example_part "text/calendar" "ICS-REPLY"].

(** A reply whose calendar cannot be parsed. *)
Definition example_reply_malformed : Message :=
  example_message "calendar+T@example.com" "multipart/mixed"
    [example_part "text/calendar" "garbage"].

(** A reply without any calendar. *)
Definition example_note : Message :=
  example_message "calendar+T@example.com" "multipart/mixed"
    [example_part "text/plain" "See you there"].

(** A reply sent to the address without a token. *)
Definition example_reply_plain : Message :=
  example_message "calendar@example.com" "multipart/mixed"
    [example_part "text/plain" "Accepted"; example_part "text/calendar" "ICS-REPLY"].

(** The delivery status of the notifications below. *)
Definition example_status : Message :=
  example_part "message/delivery-status"
    (unlines ["Reporting-MTA: dns; mail.y.com"; ""; "Final-Recipient: rfc822; b@y.com";
              "Action: failed"; "Status: 5.1.1"]).

(** A delivery-status notification without the invitation. *)
Definition example_bounce_bare : Message :=
  example_message "calendar@example.com" "multipart/report"
    [example_part "text/plain" "Delivery failed"; example_status].

(** A delivery-status notification with the invitation attached. *)
Definition example_bounce : Message :=
  example_message "calendar@example.com" "multipart/report"
    [example_part "text/plain" "Delivery failed"; example_status;
     example_part "text/calendar" "ICS-INVITE"].

Definition example_message_from_string (message : string) : result Message :=
  if decide (message = "reply-foreign") then Return example_reply_foreign
  else if decide (message = "reply") then Return example_reply
  else if decide (message = "reply-malformed") then Return example_reply_malformed
  else if decide (message = "note") then Return example_note
  else if decide (message = "reply-plain") then Return example_reply_plain
  else if decide (message = "bounce") then Return example_bounce
  else if decide (message = "bounce-bare") then Return example_bounce_bare
  else Return (mkMessage [] "text/plain" (Some message) message []).

Definition example_parseaddr (to : option string) : result (string * string) :=
  match to with
  | Some addr => Return ("", addr)
  | None => Raise TypeError
  end.

Definition example_event (props : list ical.Property) : ical.Component :=
  ical.mkComponent "VCALENDAR"
    ([ical.mkProperty "METHOD" (ical.Text "REPLY"); ical.mkProperty "UID" (ical.Text "EVT-1")]
     ++ props) [].

Definition example_reply_calendar : ical.Component :=
  example_event
    [ical.mkProperty "ATTENDEE" (ical.Text "mailto:mallory@z.com");
     ical.mkProperty "ATTENDEE" (ical.Text "mailto:b@y.com")].

Definition example_fromString (calBody : option string) : result ical.Component :=
  match calBody with
  | Some "ICS-FOREIGN" =>
      Return (example_event
        [ical.mkProperty "ORGANIZER" (ical.Text "mailto:calendar+T@example.com");
         ical.mkProperty "ATTENDEE" (ical.Text "mailto:mallory@z.com")])
  | Some "ICS-REPLY" => Return example_reply_calendar
  | Some "ICS-INVITE" =>
      Return (example_event
        [ical.mkProperty "ORGANIZER" (ical.Text "mailto:calendar+T@example.com");
         ical.mkProperty "ATTENDEE" (ical.Text "mailto:b@y.com")])
  | _ => Raise ValueError
  end.

Definition example_db : Tokens := [mkRow "T" "mailto:a@x.com" "mailto:b@y.com" (Some "EVT-1") 100].

Definition example_fn : InjectFn unit := λ _ _ _ _, Return ().

Definition example_inbound (db : Tokens) (message : string) : M (option unit) :=
  inbound example_message_from_string example_parseaddr example_fromString unit
    db message example_fn.

(** A Digest challenge with a qop directive, as a server sends it: realm,
    nonce, qop and algorithm. *)
Definition example_challenge : string :=
  "digest realm=" +:+ quoted "x" +:+ ", nonce=" +:+ quoted "n" +:+
  ", qop=" +:+ quoted "auth" +:+ ", algorithm=" +:+ quoted "md5".

Definition example_factory : Factory :=
  injectMessage_factory "u" "p" "mailto:a@x.com" "mailto:b@y.com"
    "http://localhost:8008/inbox/" "http".

(** A challenge that offers both schemes, and the exchanges of an
    injection that is refused twice and of one that is accepted on the
    retry. *)
Definition example_401 : Response :=
  mkResponse 401 (Some ["basic realm=" +:+ quoted "x"; example_challenge]).

(** The challenge of the specification's example, which names no
    algorithm: with the scheme in lower case, as the handler tests it, and
    as written there, with a capital. *)
Definition example_challenge_plain : string :=
  "digest realm=" +:+ quoted "x" +:+ ", nonce=" +:+ quoted "n" +:+ ", qop=" +:+ quoted "auth".

Definition example_challenge_capital : string :=
  "Digest realm=" +:+ quoted "x" +:+ ", nonce=" +:+ quoted "n" +:+ ", qop=" +:+ quoted "auth".

(** ** The masked address of an invitation (MailHandler.outbound) *)

(** Lines 998-1002 of [MailHandler.outbound]: the token is put after a
    plus sign in the local part of the server's address, the address
    [email.utils.parseaddr] gave for [Sending.Address]; unpacking
    [serverAddress.split('@')] needs exactly two fields, ValueError
    otherwise. *)
Definition addressWithToken (serverAddress token : string) : result string :=
  match Py.split "@" serverAddress with
  | [pre; post] => Return (pre +:+ "+" +:+ token +:+ "@" +:+ post)
  | _ => Raise ValueError
  end.

(** A Digest challenge without an algorithm directive, and one that
    offers two qualities of protection in one quoted list. *)
Definition example_challenge_bare : string :=
  "digest realm=" +:+ quoted "x" +:+ ", nonce=" +:+ quoted "n".

Definition example_challenge_qops : string :=
  "digest realm=" +:+ quoted "x" +:+ ", nonce=" +:+ quoted "n" +:+
  ", algorithm=md5, qop=" +:+ quoted "auth,auth-int".

(** ** Command-line overrides (class MailGatewayOptions) *)

(** The numeric types a default of the configuration may have. *)
Inductive NumType : Type := int | float | long.

(** A dictionary of defaults, seen as [_coerceOption] and [_setOverride]
    see it: by the type of each value. *)
Inductive Config : Type :=
| CBool
| CNum (t : NumType)
| CSeq                                  (* list or tuple *)
| CDict (d : gmap string Config)
| COther.                               (* str, None, anything else *)

(** The exception [UsageError] of twisted.python.usage. *)
Definition UsageError : exn := OtherException "UsageError".

Section Options.

(** [int(value)], [float(value)] and [long(value)]: the number, or ValueError. *)
Variable number : Type.
Variable convert : NumType → string → result number.

(** What [self.overrides] holds. *)
Inductive Override : Type :=
| OBool (b : bool)
| ONum (n : number)
| OList (l : list string)
| ONone
| OStr (s : string)
| ODict (d : gmap string Override).

(** [_coerceOption]. *)
Definition _coerceOption (configDict : gmap string Config) (key value : string)
    : result Override :=
  match configDict !! key with
  | Some CBool => Return (OBool (String.eqb value "True"))
  | Some (CNum t) => ONum <$> convert t value
  | Some CSeq => Return (OList (Py.split "," value))
  | Some (CDict _) => Raise UsageError
  | Some COther => Return (if String.eqb value "None" then ONone else OStr value)
  | None => Return (OStr value)
  end.

(** [_setOverride] called with an [overrideDict] that is no dictionary,
    which the recursive call passes on when [overrideDict[key]] holds a
    value set before: the item assignment, and for a longer path the
    membership test or the assignment or indexing that follows it, raises
    TypeError; a key that is not in [configDict] returns before that. *)
Definition _setOverride_value (configDict : gmap string Config) (key : string)
    (rest : list string) (value : string) : result unit :=
  match rest with
  | [] => _coerceOption configDict key value ≫= λ _, Raise TypeError
  | _ :: _ =>
      match configDict !! key with
      | None => Return ()
      | Some (CDict _) => Raise TypeError
      | Some _ => Raise UsageError
      end
  end.

(** [_setOverride] for the path [key :: rest]: the dictionary of overrides
    afterwards, and the exception if one was raised. *)
Fixpoint _setOverride (configDict : gmap string Config) (key : string)
    (rest : list string) (value : string) (overrideDict : gmap string Override)
    : gmap string Override * result unit :=
  match rest with
  | [] =>
      match _coerceOption configDict key value with
      | Return v => (<[key := v]> overrideDict, Return ())
      | Raise e => (overrideDict, Raise e)
      end
  | key' :: rest' =>
      match configDict !! key with
      | None => (overrideDict, Return ())
      | Some (CDict sub) =>
          match overrideDict !! key with
          | None =>
              let '(o, r) := _setOverride sub key' rest' value ∅ in
              (<[key := ODict o]> overrideDict, r)
          | Some (ODict o) =>
              let '(o, r) := _setOverride sub key' rest' value o in
              (<[key := ODict o]> overrideDict, r)
          | Some _ => (overrideDict, _setOverride_value sub key' rest' value)
          end
      | Some _ => (overrideDict, Raise UsageError)
      end
  end.

(** [opt_option] with [defaultConfig]: an option without [=] is the option
    with [=True] appended; unpacking [option.split('=')] needs exactly two
    fields; [path.split('/')] is never empty. *)
Definition opt_option (defaultConfig : gmap string Config) (option : string)
    (overrides : gmap string Override) : gmap string Override * result unit :=
  let option := if Py.contains "=" option then option else option +:+ "=True" in
  match Py.split "=" option with
  | [path; value] =>
      match Py.split "/" path with
      | key :: rest => _setOverride defaultConfig key rest value overrides
      | [] => (overrides, Raise IndexError)
      end
  | _ => (overrides, Raise ValueError)
  end.

(** The override at a path: [overrides[k1][k2]...]. *)
Fixpoint get_path (overrideDict : gmap string Override) (key : string)
    (rest : list string) : option Override :=
  match rest with
  | [] => overrideDict !! key
  | key' :: rest' =>
      match overrideDict !! key with
      | Some (ODict o) => get_path o key' rest'
      | _ => None
      end
  end.

(** The dictionary of defaults that the last element of a path is looked
    up in, when every element before it names a dictionary. *)
Fixpoint config_parents (configDict : gmap string Config) (key : string)
    (rest : list string) : option (gmap string Config * string) :=
  match rest with
  | [] => Some (configDict, key)
  | key' :: rest' =>
      match configDict !! key with
      | Some (CDict sub) => config_parents sub key' rest'
      | _ => None
      end
  end.

(** The overrides follow the defaults: where the defaults hold a
    dictionary, the overrides hold nothing or a dictionary that follows it. *)
Inductive shaped : gmap string Config → gmap string Override → Prop :=
| shaped_intro configDict overrideDict :
    (∀ k sub x, configDict !! k = Some (CDict sub) → overrideDict !! k = Some x →
       ∃ o, x = ODict o ∧ shaped sub o) →
    shaped configDict overrideDict.

End Options.

Arguments OBool {number}.
Arguments ONum {number}.
Arguments OList {number}.
Arguments ONone {number}.
Arguments OStr {number}.
Arguments ODict {number}.

(** Defaults with a nested dictionary, and a converter that reads one
    number, for the examples. *)
Definition example_config : gmap string Config :=
  {[ "SSLPort" := CNum int;
     "Scheduling" :=
       CDict {[ "iMIP" := CDict {[ "Enabled" := CBool; "MailGatewayPort" := CNum int ]} ]} ]}.

Definition example_convert (t : NumType) (value : string) : result Z :=
  if String.eqb value "8443" then Return 8443 else Raise ValueError.

(** ** The attendees of an invitation (MailHandler.outbound, generateEmail) *)

(** An ATTENDEE property as [outbound] reads it: [params()], a dictionary
    from the name of a parameter to the list of its values, and [value()]. *)
Record AttendeeProp : Type := mkAttendeeProp {
  params : gmap string (list string);
  value : string
}.

(** [params.get(name, (None,))[0]]: [None] for a parameter that is absent,
    IndexError for one with an empty list of values. *)
Definition first_param (params : gmap string (list string)) (name : string)
    : result (option string) :=
  match params !! name with
  | None => Return None
  | Some [] => Raise IndexError
  | Some (v :: _) => Return (Some v)
  end.

Section Outbound.

(** [normalizeCUAddr] (twistedcaldav/scheduling/cuaddress.py) is not among
    the sources. *)
Variable normalizeCUAddr : string → string.

(** The body of the loop of [outbound] over
    [calendar.getAllAttendeeProperties()] (lines 1005-1019): the pair
    (cn, mailto) appended to [attendees], if one is. *)
Definition attendee_entry (attendeeProp : AttendeeProp)
    : result (option (option string * option string)) :=
  cutype ← first_param (params attendeeProp) "CUTYPE";
  if decide (cutype = Some "INDIVIDUAL")
  then
    cn ← first_param (params attendeeProp) "CN";
    let cuaddr := normalizeCUAddr (value attendeeProp) in
    let '(cn, mailto) :=
      if Py.startswith cuaddr "mailto:"
      then
        let mailto := Py.drop 7 cuaddr in
        (if truthy cn then cn else Some mailto, Some mailto)
      else (cn, None) in
    if (truthy cn || truthy mailto)%bool
    then Return (Some (cn, mailto))
    else Return None
  else Return None.

(** The list [attendees] after the loop. *)
Fixpoint outbound_attendees (props : list AttendeeProp)
    : result (list (option string * option string)) :=
  match props with
  | [] => Return []
  | attendeeProp :: props' =>
      entry ← attendee_entry attendeeProp;
      attendees ← outbound_attendees props';
      Return (match entry with
              | Some item => item :: attendees
              | None => attendees
              end)
  end.

End Outbound.

(** [sep.join(items)]: TypeError for an item that is [None]. *)
Fixpoint join (sep : string) (items : list (option string)) : result string :=
  match items with
  | [] => Return ""
  | [Some s] => Return s
  | Some s :: items' => rest ← join sep items'; Return (s +:+ sep +:+ rest)
  | None :: _ => Raise TypeError
  end.


(** [htmlAttendees] of [generateEmail] (lines 1200-1206). *)
Definition htmlAttendees (attendees : list (option string * option string))
    : list (option string) :=
  (λ '(cn, mailto),
     if truthy mailto
     then Some ("<a href=" +:+ quoted ("mailto:" +:+ Py.str mailto) +:+ ">" +:+
                Py.str cn +:+ "</a>")
     else cn) <$> attendees.


(** An injection for an (organizer, attendee) pair that the table holds
    under some token. *)
Definition stored (db : Tokens) (ev : Event) : Prop :=
  ∃ token o a u c i,
    nonempty token = true ∧ lookupByToken token db = Some (o, a, u) ∧ ev = Inject o a c i.

(** ** The POP3 poller (class POP3DownloadProtocol) *)

(** The commands the protocol gives to the POP3 client, by the index of
    the message. *)
Inductive POP3Command : Type :=
| RETR (i : nat)
| DELE (i : nat)
| QUIT.

(** What a session does: what [inbound] does with a message, and the
    commands.  The debug logs of the protocol are left out. *)
Inductive POP3Event : Type :=
| Gateway (ev : Event)
| Command (c : POP3Command).

Definition command_of (ev : POP3Event) : option POP3Command :=
  match ev with
  | Command c => Some c
  | Gateway _ => None
  end.

Definition gateway_of (ev : POP3Event) : option Event :=
  match ev with
  | Gateway ev => Some ev
  | Command _ => None
  end.

(** [sep.join(lines)] for lines that are strings. *)
Fixpoint join_lines (sep : string) (lines : list string) : string :=
  match lines with
  | [] => ""
  | [line] => line
  | line :: lines' => line +:+ sep +:+ join_lines sep lines'
  end.

Section POP3.

Variable message_from_string : string → result Message.
Variable parseaddr : option string → result (string * string).
Variable fromString : option string → result ical.Component.
Variable Deferred : Type.

(** [cbDownloaded]: the lines joined with CR LF go through the factory's
    [handleMessage] to [inbound]; then the message is deleted, unless
    that call raised. *)
Definition cbDownloaded (db : Tokens) (lines : list string) (id : nat)
    (fn : InjectFn Deferred) : list POP3Event * result unit :=
  match inbound message_from_string parseaddr fromString Deferred db
          (join_lines (String "013" (String "010" "")) lines) fn with
  | (t, Return _) => ((Gateway <$> t) ++ [Command (DELE id)], Return ())
  | (t, Raise e) => (Gateway <$> t, Raise e)
  end.

(** The callbacks of the downloads, in the order of the messages; a
    failure of one is kept in the [DeferredList] and stops no other. *)
Fixpoint downloaded (db : Tokens) (id : nat) (downloads : list (list string))
    (fn : InjectFn Deferred) : list POP3Event :=
  match downloads with
  | [] => []
  | lines :: downloads' =>
      (cbDownloaded db lines id fn).1 ++ downloaded db (S id) downloads' fn
  end.

(** [cbGotMessageSizes] and [cbFinished], given the lines the server
    sends for each message: every message of [range(len(sizes))] is
    retrieved, the downloads are handled, and the session is quit. *)
Definition cbGotMessageSizes (db : Tokens) (downloads : list (list string))
    (fn : InjectFn Deferred) : list POP3Event :=
  (Command ∘ RETR <$> seq 0 (length downloads))
  ++ downloaded db 0 downloads fn
  ++ [Command QUIT].

End POP3.

(** A delivery-status notification that reports a delay, with the
    invitation attached. *)
Definition example_delayed : Message :=
  example_message "calendar@example.com" "multipart/report"
    [example_part "text/plain" "Delivery delayed";
     example_part "message/delivery-status"
       (unlines ["Reporting-MTA: dns; mail.y.com"; ""; "Final-Recipient: rfc822; b@y.com";
                 "Action: delayed"; "Status: 4.4.1"]);
     example_part "text/calendar" "ICS-INVITE"].

(** * Properties *)

(** ** The token database *)

Lemma TOKEN_set_datestamp today token r : TOKEN (set_datestamp today token r) = TOKEN r.
Proof. unfold set_datestamp. by case_decide. Qed.

Lemma for_triple_set_datestamp o a u today token r :
  for_triple o a u (set_datestamp today token r) ↔ for_triple o a u r.
Proof. unfold set_datestamp, for_triple. by case_decide. Qed.

Lemma filter_fmap_commute {A} (P : A → Prop) `{!∀ x, Decision (P x)} (f : A → A) (l : list A) :
  (∀ x, P (f x) ↔ P x) → filter P (f <$> l) = f <$> filter P l.
Proof.
  intros Hf. induction l as [|x l IH]; [done|].
  rewrite fmap_cons, !filter_cons.
  destruct (decide (P (f x))) as [Hy|Hn], (decide (P x)) as [Hy'|Hn'].
  - by rewrite fmap_cons, IH.
  - exfalso. by apply Hn', Hf.
  - exfalso. by apply Hn, Hf.
  - done.
Qed.

Lemma filter_triple_set_datestamp o a u today token (db : Tokens) :
  filter (for_triple o a u) (set_datestamp today token <$> db)
  = set_datestamp today token <$> filter (for_triple o a u) db.
Proof. apply filter_fmap_commute. intros r. apply for_triple_set_datestamp. Qed.

Lemma length_filter_filter {A} (P Q : A → Prop) `{!∀ x, Decision (P x)}
    `{!∀ x, Decision (Q x)} (l : list A) :
  (length (filter P (filter Q l)) ≤ length (filter P l))%nat.
Proof.
  induction l as [|x l IH]; [done|].
  rewrite (filter_cons Q), (filter_cons P).
  destruct (decide (Q x)), (decide (P x));
    rewrite ?filter_cons_True, ?filter_cons_False by done; simpl; lia.
Qed.

Lemma set_datestamp_row today r o a u :
  for_triple o a u r →
  set_datestamp today (TOKEN r) r = mkRow (TOKEN r) o a u today.
Proof.
  intros (<- & <- & _ & <-). unfold set_datestamp. by rewrite decide_True.
Qed.

(** For a uid that is not NULL a request selects the rows that store the
    triple. *)
Lemma filter_triple_stored o a (u : string) (db : Tokens) :
  filter (for_triple o a (Some u)) db = filter (λ r, triple r = (o, a, Some u)) db.
Proof.
  apply list_filter_iff. intros r. unfold for_triple, triple. split.
  - by intros (-> & -> & _ & ->).
  - by intros [= -> -> ->].
Qed.

(** A request without a uid selects no row. *)
Lemma filter_triple_null o a (db : Tokens) : filter (for_triple o a None) db = [].
Proof.
  induction db as [|r db IH]; [done|].
  rewrite filter_cons_False; [done|]. by intros (_ & _ & ? & _).
Qed.

Lemma filter_triple_after_miss o a (u : string) today uuid (db : Tokens) :
  filter (for_triple o a (Some u)) db = [] →
  filter (for_triple o a (Some u)) (db ++ [mkRow uuid o a (Some u) today])
  = [mkRow uuid o a (Some u) today].
Proof.
  intros Hnone. rewrite filter_app, Hnone. simpl.
  by rewrite filter_cons_True.
Qed.

Lemma filter_triple_after_hit o a u today (db : Tokens) r :
  filter (for_triple o a u) db = [r] →
  filter (for_triple o a u) (set_datestamp today (TOKEN r) <$> db)
  = [mkRow (TOKEN r) o a u today].
Proof.
  intros Hone. rewrite filter_triple_set_datestamp, Hone. simpl.
  f_equal. apply set_datestamp_row.
  assert (r ∈ filter (for_triple o a u) db) as Hin by (rewrite Hone; set_solver).
  by apply list_elem_of_filter in Hin as [? _].
Qed.

Section TokenProperties.

Variable _db_value_for_sql : list string → result (option string).
Hypothesis value_of_no_row : _db_value_for_sql [] = Return None.
Hypothesis value_of_one_row : ∀ v, _db_value_for_sql [v] = Return (Some v).

Local Abbreviation getToken := (getToken _db_value_for_sql).
Local Abbreviation outbound_token := (outbound_token _db_value_for_sql).
Local Abbreviation step := (step _db_value_for_sql).
Local Abbreviation reachable := (reachable _db_value_for_sql).

Lemma outbound_token_miss o a u today uuid (db : Tokens) :
  filter (for_triple o a u) db = [] →
  outbound_token o a u today uuid db
  = Return (uuid, true, db ++ [mkRow uuid o a u today]).
Proof.
  intros Hnone. unfold outbound_token, getToken.
  rewrite Hnone. simpl. by rewrite value_of_no_row.
Qed.

Lemma outbound_token_hit o a u today uuid (db : Tokens) r :
  filter (for_triple o a u) db = [r] →
  outbound_token o a u today uuid db
  = Return (TOKEN r, false, set_datestamp today (TOKEN r) <$> db).
Proof.
  intros Hone. unfold outbound_token, getToken.
  rewrite Hone. simpl. by rewrite value_of_one_row.
Qed.

(** A request answers with the token of the triple's row, which is then
    the only row of the triple and carries the date of the request. *)
Lemma outbound_token_spec o a (u : string) today uuid (db : Tokens) :
  (length (filter (for_triple o a (Some u)) db) ≤ 1)%nat →
  ∃ t n db',
    outbound_token o a (Some u) today uuid db = Return (t, n, db') ∧
    filter (for_triple o a (Some u)) db' = [mkRow t o a (Some u) today].
Proof.
  intros Hle. destruct (filter (for_triple o a (Some u)) db) as [|r [|r' l]] eqn:Hf.
  - eexists _, _, _. split; [by apply outbound_token_miss|].
    by apply filter_triple_after_miss.
  - eexists _, _, _. split; [by apply outbound_token_hit|].
    by apply filter_triple_after_hit.
  - simpl in Hle. lia.
Qed.

Lemma one_row_per_triple_set_datestamp today token (db : Tokens) :
  one_row_per_triple db → one_row_per_triple (set_datestamp today token <$> db).
Proof.
  intros Hdb o a u. rewrite filter_triple_set_datestamp, length_fmap. apply Hdb.
Qed.

Lemma one_row_per_triple_filter (Q : Row → Prop) `{!∀ r, Decision (Q r)} (db : Tokens) :
  one_row_per_triple db → one_row_per_triple (filter Q db).
Proof.
  intros Hdb o a u. etrans; [apply length_filter_filter|apply Hdb].
Qed.

Lemma one_row_per_triple_outbound o a u today uuid (db : Tokens) t n db' :
  one_row_per_triple db →
  outbound_token o a u today uuid db = Return (t, n, db') →
  one_row_per_triple db'.
Proof.
  intros Hdb Hreq.
  destruct (filter (for_triple o a u) db) as [|r [|r' l]] eqn:Hf.
  - rewrite outbound_token_miss in Hreq by done. injection Hreq as <- <- <-.
    intros o' a' u'. rewrite filter_app, length_app.
    destruct (decide (for_triple o' a' u' (mkRow uuid o a u today))) as [Heq|Hne].
    + pose proof Heq as Heq'.
      unfold for_triple in Heq'. simpl in Heq'. destruct Heq' as (<- & <- & _ & <-).
      rewrite Hf, filter_cons_True by done. simpl. lia.
    + rewrite filter_cons_False by done. specialize (Hdb o' a' u'). simpl. lia.
  - rewrite (outbound_token_hit _ _ _ _ _ _ r) in Hreq by done.
    injection Hreq as <- <- <-.
    by apply one_row_per_triple_set_datestamp.
  - specialize (Hdb o a u). rewrite Hf in Hdb. simpl in Hdb. lia.
Qed.

Lemma one_row_per_triple_step (db db' : Tokens) :
  one_row_per_triple db → step db db' → one_row_per_triple db'.
Proof.
  intros Hdb Hstep. destruct Hstep as [o a u today uuid db t n db' Hreq|before db|token db].
  - by eapply one_row_per_triple_outbound.
  - by apply one_row_per_triple_filter.
  - by apply one_row_per_triple_filter.
Qed.

Lemma one_row_per_triple_reachable (db : Tokens) :
  reachable db → one_row_per_triple db.
Proof.
  induction 1 as [|db db' _ IH Hstep].
  - intros o a u. simpl. lia.
  - by eapply one_row_per_triple_step.
Qed.

End TokenProperties.

(** Whatever the organizer, the attendee and the uid, when the component
    has one, in a table that holds at most one row for the triple (as
    every table the gateway reaches does), two token requests in
    succession, each [getToken] followed by [createToken] only on a miss
    as [outbound] does, answer with the same token; the second one reuses
    it ([newInvitation] is false), leaves the number of rows as it is and
    sets DATESTAMP to its date in the rows of that token, the triple's own
    among them. *)
Theorem token_request_twice
    (_db_value_for_sql : list string → result (option string))
    (o a u uuid1 uuid2 : string) (today1 today2 : Z) (db : Tokens) :
  _db_value_for_sql [] = Return None →
  (∀ v, _db_value_for_sql [v] = Return (Some v)) →
  (length (filter (for_triple o a (Some u)) db) ≤ 1)%nat →
  ∃ t n db1,
    outbound_token _db_value_for_sql o a (Some u) today1 uuid1 db = Return (t, n, db1) ∧
    outbound_token _db_value_for_sql o a (Some u) today2 uuid2 db1
      = Return (t, false, set_datestamp today2 t <$> db1) ∧
    length (set_datestamp today2 t <$> db1) = length db1 ∧
    filter (for_triple o a (Some u)) (set_datestamp today2 t <$> db1)
    = [mkRow t o a (Some u) today2].
Proof.
  intros H0 H1 Hle.
  destruct (outbound_token_spec _ H0 H1 o a u today1 uuid1 db Hle) as (t & n & db1 & Hreq & Hrow).
  exists t, n, db1. split; [done|].
  pose proof (outbound_token_hit _ H1 o a (Some u) today2 uuid2 db1 _ Hrow) as Hhit.
  pose proof (filter_triple_after_hit o a (Some u) today2 db1 _ Hrow) as Hafter.
  simpl in Hhit, Hafter. by rewrite length_fmap.
Qed.

Lemma token_request_twice_witness :
  ∃ t n db1,
    outbound_token single_value "mailto:a@x.com" "mailto:b@y.com" (Some "EVT-1") 100 "T" []
      = Return (t, n, db1) ∧
    outbound_token single_value "mailto:a@x.com" "mailto:b@y.com" (Some "EVT-1") 130 "T2" db1
      = Return (t, false, set_datestamp 130 t <$> db1) ∧
    length (set_datestamp 130 t <$> db1) = length db1 ∧
    filter (for_triple "mailto:a@x.com" "mailto:b@y.com" (Some "EVT-1")) (set_datestamp 130 t <$> db1)
      = [mkRow t "mailto:a@x.com" "mailto:b@y.com" (Some "EVT-1") 130].
Proof.
  apply (token_request_twice single_value); [reflexivity | intros v; reflexivity | simpl; lia].
Defined.

(** C2, for a calendar whose component has no UID property: [outbound]
    passes [None] as uid, the select of [getToken] compares the column with
    NULL and finds no row, whatever the table holds, so every request
    creates a token.  Two requests in succession for the same organizer,
    attendee and uid answer with two tokens, the uuid of each, both as new
    invitations; each inserts a row, and no DATESTAMP is refreshed: the
    rows already there are left as they are. *)
Lemma token_request_twice_without_uid (o a uuid1 uuid2 : string) (today1 today2 : Z)
    (db : Tokens) :
  let db1 := db ++ [mkRow uuid1 o a None today1] in
  let db2 := db1 ++ [mkRow uuid2 o a None today2] in
  outbound_token single_value o a None today1 uuid1 db = Return (uuid1, true, db1) ∧
  outbound_token single_value o a None today2 uuid2 db1 = Return (uuid2, true, db2) ∧
  length db2 = S (S (length db)) ∧
  length (filter (λ r, triple r = (o, a, None)) db2)
  = S (S (length (filter (λ r, triple r = (o, a, None)) db))).
Proof.
  intros db1 db2. split_and!.
  - unfold outbound_token, getToken. by rewrite filter_triple_null.
  - unfold outbound_token, getToken. by rewrite filter_triple_null.
  - unfold db2, db1. rewrite !length_app. simpl. lia.
  - unfold db2, db1. rewrite !filter_app, !length_app.
    rewrite !filter_cons_True by done. simpl. lia.
Qed.

(** C8. [purgeOldTokens before] keeps exactly the rows whose DATESTAMP is
    not before the cutoff, in their order and number, and no other row;
    [MailHandler.__init__] runs it with the cutoff [today - days], so that,
    for a retention of [days] ≥ 0, a row dated today stays, as does every
    row that [getToken] has just refreshed today. *)
Theorem purgeOldTokens_exact
    (_db_value_for_sql : list string → result (option string))
    (before days today : Z) (db : Tokens) :
  (∀ r, r ∈ purgeOldTokens before db ↔ r ∈ db ∧ before ≤ DATESTAMP r) ∧
  filter (λ r, before ≤ DATESTAMP r) (purgeOldTokens before db)
    = filter (λ r, before ≤ DATESTAMP r) db ∧
  filter (λ r, DATESTAMP r < before) (purgeOldTokens before db) = [] ∧
  purgeOldTokens before db `sublist_of` db ∧
  MailHandler_init days today db = purgeOldTokens (today - days) db ∧
  (0 ≤ days →
   (∀ r, r ∈ db → DATESTAMP r = today → r ∈ MailHandler_init days today db) ∧
   (∀ o a u t db', getToken _db_value_for_sql o a u today db = Return (Some t, db') →
      ∀ r, r ∈ db' → TOKEN r = t → r ∈ MailHandler_init days today db')).
Proof.
  assert (∀ (l : Tokens) r, r ∈ purgeOldTokens before l ↔ r ∈ l ∧ before ≤ DATESTAMP r) as Hin.
  { intros l r. unfold purgeOldTokens. rewrite list_elem_of_filter. split; intros [? ?]; split; auto; lia. }
  split_and!.
  - apply Hin.
  - unfold purgeOldTokens. rewrite list_filter_filter.
    apply list_filter_iff. intros r. lia.
  - unfold purgeOldTokens. rewrite list_filter_filter.
    induction db as [|r l IH]; [done|].
    rewrite filter_cons_False; [done|lia].
  - apply sublist_filter.
  - done.
  - intros Hdays.
    assert (∀ (l : Tokens) r, r ∈ l → DATESTAMP r = today → r ∈ MailHandler_init days today l)
      as Hkeep.
    { intros l r Hr Hd. unfold MailHandler_init, purgeOldTokens.
      apply list_elem_of_filter. split; [lia|done]. }
    split; [apply Hkeep|].
    intros o a u t db' Hget r Hr Ht. apply Hkeep; [done|].
    unfold getToken in Hget.
    destruct (_db_value_for_sql _) as [[t'|]|e]; simpl in Hget; [|done..].
    injection Hget as -> <-.
    apply list_elem_of_fmap in Hr as (r0 & -> & _).
    rewrite TOKEN_set_datestamp in Ht.
    unfold set_datestamp. by rewrite decide_True.
Qed.

Lemma purgeOldTokens_exact_witness :
  let db := [mkRow "T1" "mailto:a@x.com" "mailto:b@y.com" (Some "EVT-1") 10;
             mkRow "T2" "mailto:a@x.com" "mailto:c@y.com" (Some "EVT-1") 100] in
  purgeOldTokens 50 db = [mkRow "T2" "mailto:a@x.com" "mailto:c@y.com" (Some "EVT-1") 100] ∧
  (∀ r, r ∈ db → DATESTAMP r = 100 → r ∈ MailHandler_init 90 100 db) ∧
  (∀ o a u t db', getToken single_value o a u 100 db = Return (Some t, db') →
     ∀ r, r ∈ db' → TOKEN r = t → r ∈ MailHandler_init 90 100 db').
Proof.
  split; [reflexivity|].
  apply (purgeOldTokens_exact single_value 50 90 100). lia.
Defined.

(** Every table the gateway reaches from the empty one, by token requests
    of [outbound] ([getToken], then [createToken] only on a miss, run
    without interruption), purges and deletions, holds at most one row for
    each organizer, attendee and uid that is not NULL; a further request
    for such a triple is answered, inserts no second row and leaves the
    table with the one row of that triple, which carries the token
    returned. *)
Theorem one_row_per_triple_invariant
    (_db_value_for_sql : list string → result (option string)) (db : Tokens) :
  _db_value_for_sql [] = Return None →
  (∀ v, _db_value_for_sql [v] = Return (Some v)) →
  reachable _db_value_for_sql db →
  (∀ o a (u : string),
     (length (filter (λ r, triple r = (o, a, Some u)) db) ≤ 1)%nat) ∧
  (∀ o a (u : string) today uuid, ∃ t n db',
      outbound_token _db_value_for_sql o a (Some u) today uuid db = Return (t, n, db') ∧
      reachable _db_value_for_sql db' ∧
      filter (λ r, triple r = (o, a, Some u)) db' = [mkRow t o a (Some u) today]).
Proof.
  intros H0 H1 Hreach.
  pose proof (one_row_per_triple_reachable _ H0 H1 db Hreach) as Hone.
  split; [intros o a u; rewrite <- filter_triple_stored; apply Hone|].
  intros o a u today uuid.
  destruct (outbound_token_spec _ H0 H1 o a u today uuid db (Hone o a (Some u)))
    as (t & n & db' & Hreq & Hrow).
  exists t, n, db'. split_and!; [done| |by rewrite <- filter_triple_stored].
  eapply reachable_step; [exact Hreach|]. by eapply step_outbound.
Qed.

Lemma one_row_per_triple_invariant_witness :
  let db := [mkRow "T" "mailto:a@x.com" "mailto:b@y.com" (Some "EVT-1") 130] in
  (∀ o a (u : string),
     (length (filter (λ r, triple r = (o, a, Some u)) db) ≤ 1)%nat) ∧
  (∀ o a (u : string) today uuid, ∃ t n db',
      outbound_token single_value o a (Some u) today uuid db = Return (t, n, db') ∧
      reachable single_value db' ∧
      filter (λ r, triple r = (o, a, Some u)) db' = [mkRow t o a (Some u) today]).
Proof.
  apply (one_row_per_triple_invariant single_value); [reflexivity | intros v; reflexivity |].
  apply (reachable_step single_value
           [mkRow "T" "mailto:a@x.com" "mailto:b@y.com" (Some "EVT-1") 100]).
  - apply (reachable_step single_value []); [apply reachable_init|].
    by apply (step_outbound single_value "mailto:a@x.com" "mailto:b@y.com" (Some "EVT-1") 100 "T"
                [] "T" true).
  - by apply (step_outbound single_value "mailto:a@x.com" "mailto:b@y.com" (Some "EVT-1") 130 "T2"
                _ "T" false).
Defined.

(** C9, for a calendar whose component has no UID property: the table
    that two token requests of [outbound] for it reach from the empty one
    holds two rows for the one triple (organizer, attendee, NULL), each
    with a token of its own. *)
Lemma duplicate_rows_without_uid (o a uuid1 uuid2 : string) (today1 today2 : Z) :
  let db := [mkRow uuid1 o a None today1; mkRow uuid2 o a None today2] in
  reachable single_value db ∧
  filter (λ r, triple r = (o, a, None)) db = db ∧
  length (filter (λ r, triple r = (o, a, None)) db) = 2%nat ∧
  TOKEN <$> db = [uuid1; uuid2].
Proof.
  intros db. split_and!.
  - apply (reachable_step single_value [mkRow uuid1 o a None today1]).
    + apply (reachable_step single_value []); [apply reachable_init|].
      by apply (step_outbound single_value o a None today1 uuid1 [] uuid1 true).
    + apply (step_outbound single_value o a None today2 uuid2 _ uuid2 true).
      unfold outbound_token, getToken. by rewrite filter_triple_null.
  - unfold db. by rewrite !filter_cons_True.
  - unfold db. by rewrite !filter_cons_True.
  - done.
Qed.

(** [createToken] by itself does not look for the triple: called twice in a
    row it leaves two rows.  [outbound], its only caller in the gateway,
    calls it after a miss of [getToken] only, which is the step above. *)
Example createToken_inserts_unconditionally :
  let db1 := (createToken "mailto:a@x.com" "mailto:b@y.com" (Some "EVT-1") (Some "T1") "" 100 []).2 in
  let db2 := (createToken "mailto:a@x.com" "mailto:b@y.com" (Some "EVT-1") (Some "T2") "" 100 db1).2 in
  length (filter (for_triple "mailto:a@x.com" "mailto:b@y.com" (Some "EVT-1")) db2) = 2%nat.
Proof. reflexivity. Qed.

(** ** Python strings *)

Lemma append_nil s : "" +:+ s = s.
Proof. done. Qed.

Lemma append_cons c s1 s2 : String c s1 +:+ s2 = String c (s1 +:+ s2).
Proof. done. Qed.

Lemma append_assoc s1 s2 s3 : (s1 +:+ s2) +:+ s3 = s1 +:+ s2 +:+ s3.
Proof.
  induction s1 as [|c s1 IH]; [done|].
  by rewrite !append_cons, IH.
Qed.

Lemma contains_app c s1 s2 :
  Py.contains c (s1 +:+ s2) = (Py.contains c s1 || Py.contains c s2)%bool.
Proof.
  induction s1 as [|c' s1 IH]; [done|].
  rewrite append_cons. simpl. rewrite IH. by rewrite orb_assoc.
Qed.

Lemma split_without c s : Py.contains c s = false → Py.split c s = [s].
Proof.
  induction s as [|c' s IH]; simpl; [done|].
  intros [Hc Hs]%orb_false_elim. rewrite Hc, IH; done.
Qed.

Lemma split_at c s1 s2 :
  Py.contains c s1 = false → Py.split c (s1 +:+ String c s2) = s1 :: Py.split c s2.
Proof.
  induction s1 as [|c' s1 IH].
  - intros _. rewrite append_nil. simpl. by rewrite Ascii.eqb_refl.
  - rewrite append_cons. simpl.
    intros [Hc Hs]%orb_false_elim. rewrite Hc, IH; done.
Qed.

Lemma split_pieces c d s w :
  w ∈ Py.split c s → Py.contains d w = true → Py.contains d s = true.
Proof.
  revert w. induction s as [|c' s IH]; simpl; intros w Hw Hd.
  - apply list_elem_of_singleton in Hw as ->. done.
  - destruct (Ascii.eqb c' c).
    + apply elem_of_cons in Hw as [->|Hw]; [done|].
      rewrite (IH w Hw Hd). apply orb_true_r.
    + destruct (Py.split c s) as [|w0 ws].
      * apply list_elem_of_singleton in Hw as ->.
        simpl in Hd. rewrite orb_false_r in Hd. by rewrite Hd.
      * apply elem_of_cons in Hw as [->|Hw].
        -- simpl in Hd. apply orb_true_iff in Hd as [Hd|Hd]; [by rewrite Hd|].
           rewrite (IH w0); [apply orb_true_r|set_solver|done].
        -- rewrite (IH w); [apply orb_true_r|set_solver|done].
Qed.

(** ** The trace monad *)

Lemma bind_lift_return {A B} (a : A) (k : A → M B) : (lift (Return a) ≫= k) = k a.
Proof. unfold mbind, M_bind, lift. by destruct (k a). Qed.

Lemma bind_lift_raise {A B} (e : exn) (k : A → M B) : (lift (Raise e) ≫= k) = ([], Raise e).
Proof. done. Qed.

Lemma bind_log {B} level text (k : unit → M B) :
  (log level text ≫= k) = (Log level text :: (k ()).1, (k ()).2).
Proof. unfold mbind, M_bind, log. by destruct (k ()). Qed.

Lemma bind_mret {A B} (a : A) (k : A → M B) : (mret a ≫= k) = k a.
Proof. unfold mbind, M_bind, mret, M_ret. by destruct (k a). Qed.

(** ** The parts of a message *)

Lemma last_part_snoc ct parts p :
  last_part ct (parts ++ [p])
  = if decide (has_type ct p) then Some p else last_part ct parts.
Proof.
  unfold last_part. rewrite filter_app, filter_cons, filter_nil.
  destruct (decide (has_type ct p)); [apply last_snoc|by rewrite app_nil_r].
Qed.

Lemma scan_parts parts acc :
  foldl scan_part acc parts
  = (or_else (last_part "multipart/report" parts) acc.1.1.1,
     or_else (last_part "message/delivery-status" parts) acc.1.1.2,
     or_else (last_part "message/rfc822" parts) acc.1.2,
     match last_part "text/calendar" parts with
     | Some p => get_payload p
     | None => acc.2
     end).
Proof.
  induction parts as [|p parts IH] using rev_ind.
  - by destruct acc as [[[? ?] ?] ?].
  - rewrite foldl_snoc, IH, !last_part_snoc. unfold scan_part, has_type.
    repeat case_decide; try done; congruence.
Qed.

(** ** Classification of inbound messages *)

Lemma checkDSN_not_DSN msg :
  last_part "multipart/report" (walk msg) = None ∨
  last_part "message/delivery-status" (walk msg) = None →
  checkDSN msg = Return (false, None, None).
Proof.
  intros Hnot. unfold checkDSN. rewrite scan_parts. simpl.
  destruct Hnot as [-> | ->]; simpl; [done|].
  by destruct (last_part "multipart/report" (walk msg)).
Qed.

Lemma checkDSN_is_DSN msg report ds :
  last_part "multipart/report" (walk msg) = Some report →
  last_part "message/delivery-status" (walk msg) = Some ds →
  checkDSN msg
  = (action ← find_action (Py.split "010" (as_str ds));
     Return (true, action, last_part "text/calendar" (walk msg) ≫= get_payload)).
Proof.
  intros Hr Hd. unfold checkDSN. rewrite scan_parts, Hr, Hd. simpl.
  by destruct (last_part "text/calendar" (walk msg)).
Qed.

Lemma find_action_skip before lines :
  Forall other_line before → find_action (before ++ lines) = find_action lines.
Proof.
  induction 1 as [|l before Hl _ IH]; [done|].
  simpl. unfold other_line in Hl. by rewrite Hl.
Qed.

Lemma find_action_failed before line after :
  Forall other_line before → reads_failed line →
  find_action (before ++ line :: after) = Return (Some "failed").
Proof.
  intros Hb Hl. rewrite find_action_skip by done. simpl.
  destruct Hl as [-> | [rest ->]]; done.
Qed.

Lemma _extractToken_form prefix token domain :
  Py.contains "+" prefix = false → Py.contains "@" prefix = false →
  Py.contains "+" token = false → Py.contains "@" token = false →
  Py.contains "@" domain = false →
  _extractToken (prefix +:+ "+" +:+ token +:+ "@" +:+ domain) = Some token.
Proof.
  intros Hp1 Hp2 Ht1 Ht2 Hd. unfold _extractToken.
  replace (prefix +:+ "+" +:+ token +:+ "@" +:+ domain)
    with ((prefix +:+ "+" +:+ token) +:+ String "@" domain).
  2:{ by rewrite !append_assoc. }
  rewrite split_at.
  2:{ rewrite !contains_app, Hp2, Ht2. done. }
  rewrite (split_without _ domain) by done.
  replace (prefix +:+ "+" +:+ token) with (prefix +:+ String "+" token) by done.
  rewrite split_at by done. by rewrite split_without.
Qed.

Lemma _extractToken_no_plus addr : Py.contains "+" addr = false → _extractToken addr = None.
Proof.
  intros Hno. unfold _extractToken.
  destruct (Py.split "@" addr) as [|pre [|post [|? ?]]] eqn:Hsplit; try done.
  rewrite split_without; [done|].
  destruct (Py.contains "+" pre) eqn:Hpre; [|done].
  rewrite (split_pieces "@" "+" addr pre) in Hno; [done| |done].
  rewrite Hsplit. set_solver.
Qed.

(** ** Rewriting of calendar payloads *)

Lemma filter_none {A} (P : A → Prop) `{!∀ x, Decision (P x)} (l : list A) :
  (∀ x, x ∈ l → ¬ P x) → filter P l = [].
Proof.
  induction l as [|x l IH]; intros Hl; [done|].
  rewrite filter_cons_False by (apply Hl; left).
  apply IH. intros y Hy. apply Hl. by right.
Qed.

(** Induction on a calendar object and its subcomponents. *)
Lemma Component_ind' (P : ical.Component → Prop) :
  (∀ n ps cs, Forall P cs → P (ical.mkComponent n ps cs)) → ∀ c, P c.
Proof.
  intros Hstep. fix IH 1. intros [n ps cs]. apply Hstep.
  induction cs as [|c cs IHcs]; constructor; [apply IH|apply IHcs].
Qed.

Lemma allProperties_unfold c :
  ical.allProperties c
  = ical.properties c ++ mjoin (ical.allProperties <$> ical.subcomponents c).
Proof. by destruct c. Qed.

Lemma allProperties_addProperty p c :
  ical.allProperties (ical.addProperty p c)
  = ical.properties c ++ [p] ++ mjoin (ical.allProperties <$> ical.subcomponents c).
Proof. unfold ical.addProperty. simpl. by rewrite <- app_assoc. Qed.

Lemma filter_mjoin {A} (P : A → Prop) `{!∀ x, Decision (P x)} (ls : list (list A)) :
  filter P (mjoin ls) = mjoin (filter P <$> ls).
Proof.
  induction ls as [|l ls IH]; [done|]. simpl. by rewrite filter_app, IH.
Qed.

Lemma allProperties_withoutAttendees c :
  ical.allProperties (ical.withoutAttendees c)
  = filter (λ p, ¬ ical.is_named "ATTENDEE" p) (ical.allProperties c).
Proof.
  induction c as [n ps cs IH] using Component_ind'. simpl.
  rewrite filter_app, filter_mjoin. f_equal. f_equal.
  rewrite <- !list_fmap_compose. apply Forall_fmap_ext_1.
  eapply Forall_impl; [exact IH|]. intros c Hc. simpl. exact Hc.
Qed.

Lemma list_find_lt {A} (P : A → Prop) `{!∀ x, Decision (P x)} (l : list A) i x :
  list_find P l = Some (i, x) → (i < length l)%nat.
Proof. intros (Hi & _)%list_find_Some. by eapply lookup_lt_Some. Qed.

(** The first property of a name in the subcomponents is the first one in
    the list of all their properties, and overwriting it at its place
    overwrites it in that list. *)
Lemma find_first_flat n cs j :
  Forall (λ c,
    match ical.findProperty n c with
    | Some (path, i, p) =>
        ∃ k, list_find (ical.is_named n) (ical.allProperties c) = Some (k, p) ∧
             ∀ v, ical.allProperties (ical.setValue_at path i v c)
                  = alter (λ p, ical.mkProperty (ical.pname p) v) k (ical.allProperties c)
    | None => list_find (ical.is_named n) (ical.allProperties c) = None
    end) cs →
  match ical.find_first (ical.findProperty n) j cs with
  | Some (path, i, p) =>
      ∃ j' path' k,
        path = (j + j')%nat :: path' ∧
        list_find (ical.is_named n) (mjoin (ical.allProperties <$> cs)) = Some (k, p) ∧
        ∀ v, mjoin (ical.allProperties <$> alter (ical.setValue_at path' i v) j' cs)
             = alter (λ p, ical.mkProperty (ical.pname p) v) k
                 (mjoin (ical.allProperties <$> cs))
  | None => list_find (ical.is_named n) (mjoin (ical.allProperties <$> cs)) = None
  end.
Proof.
  intros Hall. revert j. induction Hall as [|c cs Hc _ IH]; intros j; [done|].
  cbn [ical.find_first]. rewrite fmap_cons. change (mjoin (?x :: ?xs)) with (x ++ mjoin xs).
  destruct (ical.findProperty n c) as [[[path i] p]|].
  - destruct Hc as (k & Hfind & Hset).
    exists 0%nat, path, k. split_and!.
    + by rewrite Nat.add_0_r.
    + by apply list_find_app_l.
    + intros v. cbn [alter list_alter]. rewrite fmap_cons. change (mjoin (?x :: ?xs)) with (x ++ mjoin xs).
      rewrite Hset. rewrite alter_app_l; [done|]. by eapply list_find_lt.
  - specialize (IH (S j)).
    destruct (ical.find_first (ical.findProperty n) (S j) cs) as [[[path i] p]|].
    + destruct IH as (j' & path' & k & -> & Hfind & Hset).
      exists (S j'), path', (length (ical.allProperties c) + k)%nat. split_and!.
      * f_equal. lia.
      * rewrite list_find_app_r, Hfind by done. simpl. f_equal. f_equal. lia.
      * intros v. cbn [alter list_alter]. rewrite fmap_cons. change (mjoin (?x :: ?xs)) with (x ++ mjoin xs).
        change (list_alter ?f ?i ?l) with (alter f i l).
        by rewrite Hset, alter_app_r.
    + apply list_find_app_None. by split.
Qed.

Lemma findProperty_flat n c :
  match ical.findProperty n c with
  | Some (path, i, p) =>
      ∃ k, list_find (ical.is_named n) (ical.allProperties c) = Some (k, p) ∧
           ∀ v, ical.allProperties (ical.setValue_at path i v c)
                = alter (λ p, ical.mkProperty (ical.pname p) v) k (ical.allProperties c)
  | None => list_find (ical.is_named n) (ical.allProperties c) = None
  end.
Proof.
  induction c as [nm ps cs IH] using Component_ind'.
  cbn [ical.findProperty ical.allProperties].
  destruct (list_find (ical.is_named n) ps) as [[i p]|] eqn:Hps.
  - exists i. split; [by apply list_find_app_l|].
    intros v. simpl. rewrite alter_app_l; [done|]. by eapply list_find_lt.
  - pose proof (find_first_flat n cs 0 IH) as Hcs.
    destruct (ical.find_first (ical.findProperty n) 0 cs) as [[[path i] p]|].
    + destruct Hcs as (j' & path' & k & -> & Hfind & Hset).
      exists (length ps + k)%nat. split.
      * rewrite list_find_app_r, Hfind by done. simpl. f_equal. f_equal. lia.
      * intros v. simpl. rewrite Hset. by rewrite alter_app_r.
    + apply list_find_app_None. by split.
Qed.

Lemma attendees_removeAllButOneAttendee attendee c :
  ical.attendeeProperties (ical.removeAllButOneAttendee attendee c)
  = [ical.mkProperty "ATTENDEE" (ical.Text attendee)].
Proof.
  unfold ical.attendeeProperties, ical.removeAllButOneAttendee.
  rewrite allProperties_addProperty.
  pose proof (allProperties_withoutAttendees c) as Hw.
  rewrite allProperties_unfold in Hw.
  assert (filter (ical.is_named "ATTENDEE")
            (ical.properties (ical.withoutAttendees c)
             ++ mjoin (ical.allProperties <$> ical.subcomponents (ical.withoutAttendees c)))
          = []) as Hnone.
  { rewrite Hw, list_filter_filter. apply filter_none. tauto. }
  rewrite filter_app in Hnone. apply app_eq_nil in Hnone as [H1 H2].
  rewrite !filter_app, H1, H2. by rewrite filter_cons_True.
Qed.

Lemma others_removeAllButOneAttendee (P : ical.Property → Prop) `{!∀ p, Decision (P p)}
    attendee c :
  (∀ p, P p → ¬ ical.is_named "ATTENDEE" p) →
  filter P (ical.allProperties (ical.removeAllButOneAttendee attendee c))
  = filter P (ical.allProperties c).
Proof.
  intros HP. unfold ical.removeAllButOneAttendee.
  rewrite allProperties_addProperty.
  rewrite !filter_app, filter_cons_False, filter_nil, app_nil_l, <- filter_app.
  2:{ intros Hp. by apply HP in Hp. }
  rewrite <- allProperties_unfold, allProperties_withoutAttendees, list_filter_filter.
  apply list_filter_iff. intros p. split; [tauto|]. intros Hp. split; [done|by apply HP].
Qed.

Lemma organizers_removeAllButOneAttendee attendee c :
  ical.organizerProperties (ical.removeAllButOneAttendee attendee c)
  = ical.organizerProperties c.
Proof.
  apply others_removeAllButOneAttendee. unfold ical.is_named. intros p ->. done.
Qed.

Lemma filter_alter_other {A} (P : A → Prop) `{!∀ x, Decision (P x)} (f : A → A)
    (l : list A) i x :
  l !! i = Some x → (P (f x) ↔ P x) → f x = x ∨ ¬ P x → filter P (alter f i l) = filter P l.
Proof.
  revert i. induction l as [|y l IH]; intros [|i] Hi Hiff Hx; try done.
  - simpl in Hi. injection Hi as ->. simpl. destruct Hx as [->|Hx]; [done|].
    rewrite !filter_cons_False; tauto.
  - simpl in *. rewrite !filter_cons.
    change (list_alter f i l) with (alter f i l). by rewrite (IH i).
Qed.

Lemma filter_alter_first {A} (P : A → Prop) `{!∀ x, Decision (P x)} (f : A → A)
    (l : list A) i x :
  list_find P l = Some (i, x) → P (f x) →
  filter P (alter f i l) = f x :: tail (filter P l).
Proof.
  revert i. induction l as [|y l IH]; intros i Hfind Hfx; [done|].
  simpl in Hfind. destruct (decide (P y)) as [Hy|Hy].
  - injection Hfind as <- ->. simpl. by rewrite !filter_cons_True.
  - destruct (list_find P l) as [[j z]|] eqn:Hl; [|done].
    simpl in Hfind. injection Hfind as <- ->. simpl.
    change (list_alter f j l) with (alter f j l).
    rewrite !filter_cons_False by done. by apply IH.
Qed.

Lemma list_find_alter_same {A} (P : A → Prop) `{!∀ x, Decision (P x)} (f : A → A)
    (l : list A) i x :
  list_find P l = Some (i, x) → P (f x) → list_find P (alter f i l) = Some (i, f x).
Proof.
  revert i. induction l as [|y l IH]; intros i Hfind Hfx; [done|].
  simpl in Hfind. destruct (decide (P y)) as [Hy|Hy].
  - injection Hfind as <- ->. simpl. by rewrite decide_True.
  - destruct (list_find P l) as [[j z]|] eqn:Hl; [|done].
    simpl in Hfind. injection Hfind as <- ->. simpl.
    rewrite decide_False by done.
    change (list_alter f j l) with (alter f j l). by rewrite (IH j).
Qed.

(** What [getOrganizer] reads is the first ORGANIZER property in the list
    of all properties. *)
Lemma getOrganizer_flat c :
  ical.getOrganizer c
  = (λ ip, ical.pvalue ip.2) <$> list_find (ical.is_named "ORGANIZER") (ical.allProperties c).
Proof.
  unfold ical.getOrganizer, ical.getOrganizerProperty.
  pose proof (findProperty_flat "ORGANIZER" c) as Hflat.
  destruct (ical.findProperty "ORGANIZER" c) as [[[path i] p]|].
  - destruct Hflat as (k & -> & _). done.
  - by rewrite Hflat.
Qed.

Lemma list_find_filter_nil {A} (P : A → Prop) `{!∀ x, Decision (P x)} (l : list A) :
  list_find P l = None ↔ filter P l = [].
Proof.
  rewrite list_find_None. split.
  - intros Hall. apply filter_none. intros x Hx. rewrite Forall_forall in Hall. by apply Hall.
  - intros Hnil. apply Forall_forall. intros x Hx HP.
    assert (x ∈ filter P l) as Hin by (by apply list_elem_of_filter).
    rewrite Hnil in Hin. by apply elem_of_nil in Hin.
Qed.


(** The list of all properties once the organizer is written: the first
    ORGANIZER property is overwritten, or one is added after the
    component's own properties. *)
Lemma organizer_written_flat organizer c :
  let c' := match ical.getOrganizerProperty c with
            | None => ical.addProperty (ical.mkProperty "ORGANIZER" (ical.Text organizer)) c
            | Some (i, _) => ical.setValue i (ical.Text organizer) c
            end in
  match list_find (ical.is_named "ORGANIZER") (ical.allProperties c) with
  | Some (k, p) =>
      ical.allProperties c'
      = alter (λ p, ical.mkProperty (ical.pname p) (ical.Text organizer)) k
          (ical.allProperties c)
  | None =>
      ical.allProperties c'
      = ical.properties c ++ [ical.mkProperty "ORGANIZER" (ical.Text organizer)]
        ++ mjoin (ical.allProperties <$> ical.subcomponents c)
  end.
Proof.
  cbv zeta. unfold ical.getOrganizerProperty.
  pose proof (findProperty_flat "ORGANIZER" c) as Hflat.
  destruct (ical.findProperty "ORGANIZER" c) as [[[path i] p]|].
  - destruct Hflat as (k & -> & Hset). apply Hset.
  - rewrite Hflat. apply allProperties_addProperty.
Qed.

(** Writing the organizer leaves every property of another name as it
    is. *)
Lemma organizer_written_others (P : ical.Property → Prop) `{!∀ p, Decision (P p)}
    organizer c :
  (∀ p, P p → ical.pname p ≠ "ORGANIZER") →
  filter P (ical.allProperties
              match ical.getOrganizerProperty c with
              | None => ical.addProperty (ical.mkProperty "ORGANIZER" (ical.Text organizer)) c
              | Some (i, _) => ical.setValue i (ical.Text organizer) c
              end)
  = filter P (ical.allProperties c).
Proof.
  intros HP. pose proof (organizer_written_flat organizer c) as Hflat. cbv zeta in Hflat.
  destruct (list_find _ _) as [[k p]|] eqn:Hfind.
  - rewrite Hflat. apply list_find_Some in Hfind as (Hk & Hp & _).
    unfold ical.is_named in Hp.
    apply (filter_alter_other _ _ _ _ p); [done| |].
    + split; intros HPp; by apply HP in HPp.
    + right. intros HPp. by apply HP in HPp.
  - rewrite Hflat, (allProperties_unfold c), !filter_app.
    rewrite filter_cons_False; [done|]. intros HPp. by apply HP in HPp.
Qed.

(** The ORGANIZER properties once the organizer is written: the first
    one is replaced, or the only one is the new one. *)
Lemma organizer_written_organizers organizer c :
  ical.organizerProperties
    match ical.getOrganizerProperty c with
    | None => ical.addProperty (ical.mkProperty "ORGANIZER" (ical.Text organizer)) c
    | Some (i, _) => ical.setValue i (ical.Text organizer) c
    end
  = ical.mkProperty "ORGANIZER" (ical.Text organizer) :: tail (ical.organizerProperties c).
Proof.
  pose proof (organizer_written_flat organizer c) as Hflat. cbv zeta in Hflat.
  unfold ical.organizerProperties.
  destruct (list_find _ _) as [[k p]|] eqn:Hfind.
  - rewrite Hflat. pose proof Hfind as (_ & Hp & _)%list_find_Some.
    unfold ical.is_named in Hp.
    rewrite (filter_alter_first _ _ _ _ p); [by rewrite Hp|done|done].
  - rewrite Hflat. apply list_find_filter_nil in Hfind.
    rewrite (allProperties_unfold c), filter_app in Hfind.
    apply app_eq_nil in Hfind as [H1 H2].
    rewrite (allProperties_unfold c), !filter_app, H1, H2.
    by rewrite filter_cons_True.
Qed.


Lemma reply_payload_attendees organizer attendee calendar :
  ical.attendeeProperties (reply_payload organizer attendee calendar)
  = [ical.mkProperty "ATTENDEE" (ical.Text attendee)].
Proof.
  rewrite <- (attendees_removeAllButOneAttendee attendee calendar).
  unfold reply_payload, ical.attendeeProperties. cbv zeta.
  apply organizer_written_others. unfold ical.is_named. by intros p ->.
Qed.

Lemma reply_payload_organizers organizer attendee calendar :
  ical.organizerProperties (reply_payload organizer attendee calendar)
  = ical.mkProperty "ORGANIZER" (ical.Text organizer)
    :: tail (ical.organizerProperties calendar).
Proof.
  rewrite <- (organizers_removeAllButOneAttendee attendee calendar).
  unfold reply_payload. cbv zeta. apply organizer_written_organizers.
Qed.

Lemma list_find_filter_head {A} (P : A → Prop) `{!∀ x, Decision (P x)} (l : list A) :
  snd <$> list_find P l = head (filter P l).
Proof.
  induction l as [|y l IH]; [done|]. simpl. rewrite filter_cons.
  destruct (decide (P y)); [done|].
  rewrite <- IH. by destruct (list_find P l) as [[j z]|].
Qed.

Lemma reply_payload_organizer organizer attendee calendar :
  ical.getOrganizer (reply_payload organizer attendee calendar) = Some (ical.Text organizer).
Proof.
  rewrite getOrganizer_flat.
  pose proof (list_find_filter_head (ical.is_named "ORGANIZER")
                (ical.allProperties (reply_payload organizer attendee calendar))) as Hhead.
  fold (ical.organizerProperties (reply_payload organizer attendee calendar)) in Hhead.
  rewrite reply_payload_organizers in Hhead.
  destruct (list_find _ _) as [[k p]|]; [|done].
  simpl in *. by injection Hhead as ->.
Qed.

Lemma reply_payload_others organizer attendee calendar :
  filter (λ p, ical.pname p ≠ "ATTENDEE" ∧ ical.pname p ≠ "ORGANIZER")
    (ical.allProperties (reply_payload organizer attendee calendar))
  = filter (λ p, ical.pname p ≠ "ATTENDEE" ∧ ical.pname p ≠ "ORGANIZER")
      (ical.allProperties calendar).
Proof.
  rewrite <- (others_removeAllButOneAttendee _ attendee calendar) by (by intros p [? _]).
  unfold reply_payload. cbv zeta. apply organizer_written_others. by intros p [_ ?].
Qed.

(** ** The inbound pipeline *)

Section Inbound.

Variable message_from_string : string → result Message.
Variable parseaddr : option string → result (string * string).
Variable fromString : option string → result ical.Component.
Variable Deferred : Type.

Local Abbreviation InjectFn := (InjectFn Deferred).
Local Abbreviation call := (call Deferred).
Local Abbreviation log_failure := (log_failure Deferred).
Local Abbreviation processDSN := (processDSN fromString Deferred).
Local Abbreviation rewriteReply := (rewriteReply fromString Deferred).
Local Abbreviation processReply := (processReply parseaddr fromString Deferred).
Local Abbreviation inbound_body :=
  (inbound_body message_from_string parseaddr fromString Deferred).
Local Abbreviation inbound := (inbound message_from_string parseaddr fromString Deferred).
Local Abbreviation fetchNextMessage :=
  (fetchNextMessage message_from_string parseaddr fromString Deferred).

Lemma inbound_not_DSN db message msg (fn : InjectFn) :
  message_from_string message = Return msg →
  last_part "multipart/report" (walk msg) = None ∨
  last_part "message/delivery-status" (walk msg) = None →
  inbound db message fn
  = try_except
      (log Info (Received (msg_get msg "Message-ID") (msg_get msg "From") (msg_get msg "To"));;
       processReply db msg fn)
      log_failure.
Proof.
  intros Hmsg Hnot. unfold inbound, inbound_body.
  rewrite Hmsg, bind_lift_return, (checkDSN_not_DSN msg Hnot), bind_lift_return.
  done.
Qed.

Lemma processReply_token db msg (fn : InjectFn) name addr token i part :
  parseaddr (msg_get msg "To") = Return (name, addr) →
  _extractToken addr = Some token →
  nonempty token = true →
  list_find (has_type "text/calendar") (walk msg) = Some (i, part) →
  processReply db msg fn
  = rewriteReply db token (get_payload part) (msg_get msg "Message-ID") fn.
Proof.
  intros Haddr Htoken Hne Hpart. unfold processReply.
  rewrite Haddr, bind_lift_return. simpl.
  assert (nonempty addr = true) as ->.
  { destruct addr; [done|done]. }
  rewrite Htoken. destruct token; [done|]. by rewrite Hpart.
Qed.

Lemma processReply_no_token db msg (fn : InjectFn) name addr :
  parseaddr (msg_get msg "To") = Return (name, addr) →
  Py.contains "+" addr = false →
  injections (processReply db msg fn) = [] ∧ (processReply db msg fn).2 = Return None.
Proof.
  intros Haddr Hno. unfold processReply.
  rewrite Haddr, bind_lift_return. simpl.
  rewrite (_extractToken_no_plus addr Hno). by destruct (nonempty addr).
Qed.

Lemma processReply_no_calendar db msg (fn : InjectFn) :
  list_find (has_type "text/calendar") (walk msg) = None →
  injections (processReply db msg fn) = [] ∧
  ((processReply db msg fn).2 = Return None ∨ ∃ e, (processReply db msg fn).2 = Raise e).
Proof.
  intros Hnone. unfold processReply.
  destruct (parseaddr (msg_get msg "To")) as [[name addr]|e].
  - rewrite bind_lift_return. simpl. rewrite Hnone.
    destruct (nonempty addr); [|by auto].
    destruct (_extractToken addr) as [[|c token]|]; by auto.
  - rewrite bind_lift_raise. eauto.
Qed.

Lemma rewriteReply_found db token calBody msgId (fn : InjectFn) calendar organizer attendee icaluid :
  fromString calBody = Return calendar →
  lookupByToken token db = Some (organizer, attendee, icaluid) →
  injections (rewriteReply db token calBody msgId fn)
  = [Inject organizer attendee (reply_payload organizer attendee calendar) msgId] ∧
  (rewriteReply db token calBody msgId fn).2
  = Some <$> fn organizer attendee (reply_payload organizer attendee calendar) msgId.
Proof.
  intros Hcal Hrow. unfold rewriteReply, reply_payload.
  rewrite bind_log, Hcal, bind_lift_return, Hrow.
  destruct (ical.getOrganizerProperty _) as [[i p]|];
    unfold call, injections, log, mbind, M_bind, mret, M_ret; simpl; done.
Qed.

Lemma injections_try_except {A} (body : M A) handler :
  (∀ e, filter is_inject (handler e).1 = []) →
  injections (try_except body handler) = injections body.
Proof.
  intros Hh. unfold injections, try_except.
  destruct body as [t [a|e]]; [done|].
  specialize (Hh e). destruct (handler e) as [t' r]. simpl in *.
  by rewrite filter_app, Hh, app_nil_r.
Qed.

Lemma injections_log {A} level text (m : M A) :
  injections (log level text;; m) = injections m.
Proof. rewrite bind_log. unfold injections. simpl. rewrite filter_cons_False; [done|]. by intros []. Qed.

Lemma try_except_returns {A} (body : M A) handler :
  (∀ e, ∃ t a, handler e = (t, Return a)) →
  ∃ t a, try_except body handler = (t, Return a).
Proof.
  intros Hh. unfold try_except. destruct body as [t [a|e]]; [by eauto|].
  destruct (Hh e) as (t' & a & ->). eauto.
Qed.

Lemma try_except_log_failure_result (body : M (option Deferred)) :
  body.2 = Return None ∨ (∃ e, body.2 = Raise e) →
  (try_except body log_failure).2 = Return None.
Proof.
  destruct body as [t [a|e]]; simpl; intros [H|[e' H]]; by simplify_eq.
Qed.

Lemma injections_log_failure e : filter is_inject (log_failure e).1 = [].
Proof. done. Qed.

(** C3. For a message that is no delivery-status notification (it lacks a
    multipart/report part or a message/delivery-status part) and whose To
    address parses to [addr]: when [addr] reads prefix+token@domain (the
    three segments free of [@], prefix and token free of [+], the token
    not empty) and the message has a text/calendar part, [_extractToken]
    gives exactly that token and [inbound] runs the reply processing with
    it and the payload of the first text/calendar part; when [addr] has no
    [+], or the message has no text/calendar part, [inbound] returns
    [None] without any call of the injection function. *)
Theorem reply_classification db message msg (fn : InjectFn) name addr :
  message_from_string message = Return msg →
  last_part "multipart/report" (walk msg) = None ∨
  last_part "message/delivery-status" (walk msg) = None →
  parseaddr (msg_get msg "To") = Return (name, addr) →
  (∀ prefix token domain i part,
     addr = prefix +:+ "+" +:+ token +:+ "@" +:+ domain →
     Py.contains "+" prefix = false → Py.contains "@" prefix = false →
     Py.contains "+" token = false → Py.contains "@" token = false →
     nonempty token = true →
     Py.contains "@" domain = false →
     list_find (has_type "text/calendar") (walk msg) = Some (i, part) →
     _extractToken addr = Some token ∧
     inbound db message fn
     = try_except
         (log Info (Received (msg_get msg "Message-ID") (msg_get msg "From")
                      (msg_get msg "To"));;
          rewriteReply db token (get_payload part) (msg_get msg "Message-ID") fn)
         log_failure) ∧
  (Py.contains "+" addr = false ∨
   list_find (has_type "text/calendar") (walk msg) = None →
   injections (inbound db message fn) = [] ∧ (inbound db message fn).2 = Return None).
Proof.
  intros Hmsg Hnot Haddr. rewrite (inbound_not_DSN db message msg fn Hmsg Hnot). split.
  - intros prefix token domain i part -> Hp1 Hp2 Ht1 Ht2 Hne Hd Hpart.
    pose proof (_extractToken_form prefix token domain Hp1 Hp2 Ht1 Ht2 Hd) as Htoken.
    split; [done|].
    by rewrite (processReply_token db msg fn name _ token i part Haddr Htoken Hne Hpart).
  - intros Hdrop.
    assert (injections (processReply db msg fn) = [] ∧
            ((processReply db msg fn).2 = Return None ∨
             ∃ e, (processReply db msg fn).2 = Raise e)) as [Hinj Hres].
    { destruct Hdrop as [Hplus|Hcal].
      - destruct (processReply_no_token db msg fn name addr Haddr Hplus). auto.
      - by apply processReply_no_calendar. }
    split.
    + rewrite injections_try_except by apply injections_log_failure.
      by rewrite injections_log.
    + apply try_except_log_failure_result. by rewrite bind_log.
Qed.

(** C4. For a message with a multipart/report part and a
    message/delivery-status part (the last one walked, when there are
    several) whose first line starting with [action:], letter case apart,
    reads [Action: failed]: when the message has a text/calendar part (the
    last one walked) with a non-empty payload, [inbound] runs the bounce
    processing [processDSN] with that payload; when it has no
    text/calendar part, [inbound] logs that it cannot process the DSN and
    returns [None] without any call of the injection function. *)
Theorem bounce_classification db message msg (fn : InjectFn) report ds before line after :
  message_from_string message = Return msg →
  last_part "multipart/report" (walk msg) = Some report →
  last_part "message/delivery-status" (walk msg) = Some ds →
  Py.split "010" (as_str ds) = before ++ line :: after →
  Forall other_line before →
  reads_failed line →
  (∀ part calBody,
     last_part "text/calendar" (walk msg) = Some part →
     get_payload part = Some calBody →
     nonempty calBody = true →
     inbound db message fn
     = try_except (processDSN db calBody (msg_get msg "Message-ID") fn) log_failure) ∧
  (last_part "text/calendar" (walk msg) = None →
   inbound db message fn = ([Log Error (CantProcessDSN (msg_get msg "Message-ID"))], Return None)).
Proof.
  intros Hmsg Hr Hd Hlines Hbefore Hline.
  assert (checkDSN msg
          = Return (true, Some "failed", last_part "text/calendar" (walk msg) ≫= get_payload))
    as Hcheck.
  { rewrite (checkDSN_is_DSN msg report ds Hr Hd), Hlines.
    by rewrite (find_action_failed before line after Hbefore Hline). }
  unfold inbound, inbound_body.
  rewrite Hmsg, bind_lift_return, Hcheck, bind_lift_return. split.
  - intros part calBody -> Hpayload Hne. simpl. rewrite Hpayload.
    by destruct calBody.
  - by intros ->.
Qed.

(** C1. For a message handled as a reply whose token the store resolves to
    (organizer, attendee, icaluid), the payload handed to the injection
    function has exactly one ATTENDEE property among all its properties,
    those of its subcomponents included, and its value is the attendee,
    however many attendees the inbound payload carried and whether or not
    it named the attendee; the organizer read from the payload is the
    organizer, whatever the inbound payload carried: an inbound payload
    without any ORGANIZER property gets one with that value, the ORGANIZER
    property of one that carried a single one is overwritten with it; and
    the properties of any other name are those of the inbound payload. *)
Theorem reply_payload_rewritten db message msg (fn : InjectFn) name addr token i part
    calendar organizer attendee icaluid :
  message_from_string message = Return msg →
  last_part "multipart/report" (walk msg) = None ∨
  last_part "message/delivery-status" (walk msg) = None →
  parseaddr (msg_get msg "To") = Return (name, addr) →
  _extractToken addr = Some token →
  nonempty token = true →
  list_find (has_type "text/calendar") (walk msg) = Some (i, part) →
  fromString (get_payload part) = Return calendar →
  lookupByToken token db = Some (organizer, attendee, icaluid) →
  ∃ payload,
    injections (inbound db message fn)
    = [Inject organizer attendee payload (msg_get msg "Message-ID")] ∧
    ical.attendeeProperties payload = [ical.mkProperty "ATTENDEE" (ical.Text attendee)] ∧
    ical.getOrganizer payload = Some (ical.Text organizer) ∧
    (ical.organizerProperties calendar = [] →
     ical.organizerProperties payload = [ical.mkProperty "ORGANIZER" (ical.Text organizer)]) ∧
    (∀ p, ical.organizerProperties calendar = [p] →
          ical.organizerProperties payload
          = [ical.mkProperty "ORGANIZER" (ical.Text organizer)]) ∧
    filter (λ p, ical.pname p ≠ "ATTENDEE" ∧ ical.pname p ≠ "ORGANIZER")
      (ical.allProperties payload)
    = filter (λ p, ical.pname p ≠ "ATTENDEE" ∧ ical.pname p ≠ "ORGANIZER")
        (ical.allProperties calendar).
Proof.
  intros Hmsg Hnot Haddr Htoken Hne Hpart Hcal Hrow.
  exists (reply_payload organizer attendee calendar).
  rewrite (inbound_not_DSN db message msg fn Hmsg Hnot).
  rewrite (processReply_token db msg fn name addr token i part Haddr Htoken Hne Hpart).
  rewrite injections_try_except by apply injections_log_failure.
  rewrite injections_log.
  destruct (rewriteReply_found db token (get_payload part) (msg_get msg "Message-ID") fn
              calendar organizer attendee icaluid Hcal Hrow) as [-> _].
  split_and!.
  - done.
  - apply reply_payload_attendees.
  - apply reply_payload_organizer.
  - intros Hnone. by rewrite reply_payload_organizers, Hnone.
  - intros p Hone. by rewrite reply_payload_organizers, Hone.
  - apply reply_payload_others.
Qed.

(** C10. [lookupByToken] answers [None] exactly when the rows with that
    token are not exactly one, none or several alike; the reply or the
    bounce that carries such a token is then dropped with the log of an
    unrecognized token and without any call of the injection function. *)
Theorem lookupByToken_unknown db token :
  (lookupByToken token db = None ↔ length (filter (λ r, TOKEN r = token) db) ≠ 1%nat) ∧
  (length (filter (λ r, TOKEN r = token) db) ≠ 1%nat →
   ∀ calBody msgId (fn : InjectFn) calendar,
     fromString calBody = Return calendar →
     rewriteReply db token calBody msgId fn
     = ([Log Debug (CalBody calBody); Log Error (UnknownTokenInMessage token msgId)],
        Return None)) ∧
  (length (filter (λ r, TOKEN r = token) db) ≠ 1%nat →
   ∀ calBody msgId (fn : InjectFn) calendar organizer,
     nonempty token = true →
     fromString (Some calBody) = Return calendar →
     ical.getOrganizer calendar = Some (ical.Text organizer) →
     _extractToken organizer = Some token →
     processDSN db calBody msgId fn
     = ([Log Error (UnknownTokenInDSN token msgId)], Return None)).
Proof.
  assert (lookupByToken token db = None ↔ length (filter (λ r, TOKEN r = token) db) ≠ 1%nat)
    as Hiff.
  { unfold lookupByToken.
    destruct (filter (λ r, TOKEN r = token) db) as [|r [|r' l]]; simpl; split; done. }
  split_and!; [done| |].
  - intros Hn calBody msgId fn calendar Hcal. apply Hiff in Hn.
    unfold rewriteReply. by rewrite bind_log, Hcal, bind_lift_return, Hn.
  - intros Hn calBody msgId fn calendar organizer Hne Hcal Horg Htoken. apply Hiff in Hn.
    unfold processDSN. rewrite Hcal, bind_lift_return, Horg, bind_lift_return, Htoken.
    destruct token; [done|]. by rewrite Hn.
Qed.

Lemma fmap_raise {A B} (f : A → B) (r : result A) e : f <$> r = Raise e → r = Raise e.
Proof. unfold fmap, result_fmap. destruct r; [discriminate|by intros [= ->]]. Qed.

Lemma inbound_returns db message (fn : InjectFn) :
  ∃ t r, inbound db message fn = (t, Return r).
Proof. apply try_except_returns. intros e. by eexists _, _. Qed.

Lemma inbound_body_raise db message (fn : InjectFn) t e :
  inbound_body db message fn = (t, Raise e) →
  filter is_inject t = [] ∨
  ∃ o a c i, filter is_inject t = [Inject o a c i] ∧ fn o a c i = Raise e.
Proof.
  unfold inbound_body, processDSN, processReply, rewriteReply, call, lift, log.
  unfold mbind, M_bind, mret, M_ret. intros H.
  repeat (case_match; simplify_eq; simpl in *; try by auto);
    right; eexists _, _, _, _; (split; [reflexivity|]);
    by eapply fmap_raise.
Qed.

Lemma fetchNextMessage_flags db messages (fn : InjectFn) :
  ∃ t, fetchNextMessage db messages fn = (t, Return ()) ∧
       filter is_flag t = FlagDeleted <$> messages.*1.
Proof.
  induction messages as [|[uid data] messages (t & IH & Hflags)].
  - by exists [].
  - destruct (inbound_returns db data fn) as (t1 & r & Hin).
    assert (filter is_flag t1 = []) as Hnone.
    { revert Hin. unfold inbound, try_except, inbound_body, processDSN, processReply,
        rewriteReply, call, lift, log, log_failure.
      unfold mbind, M_bind, mret, M_ret. intros Hin.
      repeat (case_match; simplify_eq; simpl in *; try done). }
    exists (t1 ++ [FlagDeleted uid] ++ t). simpl. unfold cbGotMessage.
    rewrite Hin, IH.
    unfold mbind, M_bind. simpl. split; [by rewrite <- app_assoc|].
    rewrite filter_app, Hnone. simpl. rewrite filter_cons_True by done.
    by rewrite Hflags.
Qed.

(** C7. Whatever the message string, the parsers and the injection
    function do, [inbound] returns and never raises: when the suite of its
    [try] raises an exception, the failure is logged and [None] is
    returned, and no injection was attempted unless the exception came
    from the injection function itself; so the download loop of the poller
    goes through all its messages and flags each of them as deleted. *)
Theorem inbound_never_raises db message (fn : InjectFn) :
  (∃ t r, inbound db message fn = (t, Return r)) ∧
  (∀ t r, inbound_body db message fn = (t, Return r) →
          inbound db message fn = (t, Return r)) ∧
  (∀ t e, inbound_body db message fn = (t, Raise e) →
          inbound db message fn = (t ++ [Log Error (FailedToProcess e)], Return None) ∧
          (filter is_inject t = [] ∨
           ∃ o a c i, filter is_inject t = [Inject o a c i] ∧ fn o a c i = Raise e)) ∧
  (∀ messages, ∃ t,
      fetchNextMessage db messages fn = (t, Return ()) ∧
      filter is_flag t = FlagDeleted <$> messages.*1).
Proof.
  split_and!.
  - apply inbound_returns.
  - intros t r H. unfold inbound. by rewrite H.
  - intros t e H. split; [|exact (inbound_body_raise db message fn t e H)].
    unfold inbound. by rewrite H.
  - intros messages. apply fetchNextMessage_flags.
Qed.

End Inbound.

(** ** The pipeline at work *)

(** A reply whose VEVENT names a foreign organizer and two attendees: the
    payload has the one ATTENDEE looked up, and the ORGANIZER of the VEVENT
    is overwritten where it stands. *)
Example reply_payload_subcomponents :
  reply_payload "mailto:a@x.com" "mailto:b@y.com"
    (ical.mkComponent "VCALENDAR" [ical.mkProperty "METHOD" (ical.Text "REPLY")]
       [ical.mkComponent "VEVENT"
          [ical.mkProperty "UID" (ical.Text "EVT-1");
           ical.mkProperty "ORGANIZER" (ical.Text "mailto:mallory@z.com");
           ical.mkProperty "ATTENDEE" (ical.Text "mailto:mallory@z.com");
           ical.mkProperty "ATTENDEE" (ical.Text "mailto:b@y.com")] []])
  = ical.mkComponent "VCALENDAR"
      [ical.mkProperty "METHOD" (ical.Text "REPLY");
       ical.mkProperty "ATTENDEE" (ical.Text "mailto:b@y.com")]
      [ical.mkComponent "VEVENT"
         [ical.mkProperty "UID" (ical.Text "EVT-1");
          ical.mkProperty "ORGANIZER" (ical.Text "mailto:a@x.com")] []].
Proof. reflexivity. Qed.

Lemma reply_payload_rewritten_witness :
  ∃ payload,
    injections (example_inbound example_db "reply-foreign")
    = [Inject "mailto:a@x.com" "mailto:b@y.com" payload (Some "<1@y.com>")] ∧
    ical.attendeeProperties payload
    = [ical.mkProperty "ATTENDEE" (ical.Text "mailto:b@y.com")] ∧
    ical.getOrganizer payload = Some (ical.Text "mailto:a@x.com") ∧
    ical.organizerProperties payload
    = [ical.mkProperty "ORGANIZER" (ical.Text "mailto:a@x.com")].
Proof.
  destruct (reply_payload_rewritten example_message_from_string example_parseaddr
              example_fromString unit example_db "reply-foreign" example_reply_foreign
              example_fn "" "calendar+T@example.com" "T" 2%nat
              (example_part "text/calendar" "ICS-FOREIGN")
              (example_event
                 [ical.mkProperty "ORGANIZER" (ical.Text "mailto:calendar+T@example.com");
                  ical.mkProperty "ATTENDEE" (ical.Text "mailto:mallory@z.com")])
              "mailto:a@x.com" "mailto:b@y.com" (Some "EVT-1"))
    as (payload & Hinj & Hatt & Horg & _ & Hone & _);
    [first [reflexivity | by left] ..|].
  exists payload. split_and!; [exact Hinj|exact Hatt|exact Horg|].
  eapply Hone. reflexivity.
Defined.

Lemma reply_classification_witness :
  (_extractToken "calendar+T@example.com" = Some "T" ∧
   example_inbound example_db "reply"
   = try_except
       (log Info (Received (Some "<1@y.com>") (Some "b@y.com")
                    (Some "calendar+T@example.com"));;
        rewriteReply example_fromString unit example_db "T" (Some "ICS-REPLY")
          (Some "<1@y.com>") example_fn)
       (log_failure unit)) ∧
  (injections (example_inbound example_db "reply-plain") = [] ∧
   (example_inbound example_db "reply-plain").2 = Return None) ∧
  (injections (example_inbound example_db "note") = [] ∧
   (example_inbound example_db "note").2 = Return None).
Proof.
  split; [|split].
  - destruct (reply_classification example_message_from_string example_parseaddr
                example_fromString unit example_db "reply" example_reply example_fn
                "" "calendar+T@example.com" eq_refl (or_introl eq_refl) eq_refl)
      as [Hreply _].
    apply (Hreply "calendar" "T" "example.com" 2%nat
             (example_part "text/calendar" "ICS-REPLY")); reflexivity.
  - destruct (reply_classification example_message_from_string example_parseaddr
                example_fromString unit example_db "reply-plain" example_reply_plain
                example_fn "" "calendar@example.com" eq_refl (or_introl eq_refl) eq_refl)
      as [_ Hdrop].
    apply Hdrop. left. reflexivity.
  - destruct (reply_classification example_message_from_string example_parseaddr
                example_fromString unit example_db "note" example_note
                example_fn "" "calendar+T@example.com" eq_refl (or_introl eq_refl) eq_refl)
      as [_ Hdrop].
    apply Hdrop. right. reflexivity.
Defined.

Lemma bounce_classification_witness :
  example_inbound example_db "bounce"
  = try_except
      (processDSN example_fromString unit example_db "ICS-INVITE" (Some "<1@y.com>") example_fn)
      (log_failure unit) ∧
  example_inbound example_db "bounce-bare"
  = ([Log Error (CantProcessDSN (Some "<1@y.com>"))], Return None).
Proof.
  split.
  - destruct (bounce_classification example_message_from_string example_parseaddr
                example_fromString unit example_db "bounce" example_bounce example_fn
                example_bounce example_status
                ["Content-Type: message/delivery-status"; ""; "Reporting-MTA: dns; mail.y.com";
                 ""; "Final-Recipient: rfc822; b@y.com"]
                "Action: failed" ["Status: 5.1.1"])
      as [Hbounce _];
      [reflexivity | reflexivity | reflexivity | reflexivity | repeat constructor | by left |].
    apply (Hbounce (example_part "text/calendar" "ICS-INVITE") "ICS-INVITE"); reflexivity.
  - destruct (bounce_classification example_message_from_string example_parseaddr
                example_fromString unit example_db "bounce-bare" example_bounce_bare
                example_fn example_bounce_bare example_status
                ["Content-Type: message/delivery-status"; ""; "Reporting-MTA: dns; mail.y.com";
                 ""; "Final-Recipient: rfc822; b@y.com"]
                "Action: failed" ["Status: 5.1.1"])
      as [_ Hbare];
      [reflexivity | reflexivity | reflexivity | reflexivity | repeat constructor | by left |].
    apply Hbare. reflexivity.
Defined.

Lemma lookupByToken_unknown_witness :
  let db := example_db ++ [mkRow "T" "mailto:c@x.com" "mailto:d@y.com" (Some "EVT-2") 100] in
  lookupByToken "T" db = None ∧
  rewriteReply example_fromString unit db "T" (Some "ICS-REPLY") (Some "<1@y.com>") example_fn
  = ([Log Debug (CalBody (Some "ICS-REPLY"));
      Log Error (UnknownTokenInMessage "T" (Some "<1@y.com>"))], Return None) ∧
  processDSN example_fromString unit db "ICS-INVITE" (Some "<1@y.com>") example_fn
  = ([Log Error (UnknownTokenInDSN "T" (Some "<1@y.com>"))], Return None).
Proof.
  intros db.
  destruct (lookupByToken_unknown example_fromString unit db "T") as (Hiff & Hreply & Hdsn).
  assert (length (filter (λ r, TOKEN r = "T") db) ≠ 1%nat) as Hn by (vm_compute; lia).
  split_and!.
  - by apply Hiff.
  - by eapply Hreply.
  - by eapply Hdsn.
Defined.

Lemma inbound_never_raises_witness :
  inbound_body example_message_from_string example_parseaddr example_fromString unit
    example_db "reply-malformed" example_fn
  = ([Log Info (Received (Some "<1@y.com>") (Some "b@y.com") (Some "calendar+T@example.com"));
      Log Debug (CalBody (Some "garbage"))], Raise ValueError) ∧
  example_inbound example_db "reply-malformed"
  = ([Log Info (Received (Some "<1@y.com>") (Some "b@y.com") (Some "calendar+T@example.com"));
      Log Debug (CalBody (Some "garbage"))] ++ [Log Error (FailedToProcess ValueError)],
     Return None).
Proof.
  split; [reflexivity|].
  destruct (inbound_never_raises example_message_from_string example_parseaddr
              example_fromString unit example_db "reply-malformed" example_fn)
    as (_ & _ & Hraise & _).
  by apply Hraise.
Defined.

(** ** The authenticating injector *)

Lemma read_parts_nonempty kvs details details' :
  read_parts kvs details = Return details' →
  kvs ≠ [] ∨ details ≠ ∅ → details' ≠ ∅.
Proof.
  revert details. induction kvs as [|kv kvs IH]; intros details Hread Hne.
  - simpl in Hread. injection Hread as <-. by destruct Hne.
  - destruct kv as [|k [|v [|? ?]]]; try done. simpl in Hread.
    destruct (unq (Py.strip v)) as [v'|e]; [|done]. simpl in Hread.
    apply (IH _ Hread). right. apply insert_non_empty.
Qed.

Lemma split_nonempty c s : Py.split c s ≠ [].
Proof.
  destruct s as [|c' s]; [done|]. simpl.
  destruct (Ascii.eqb c' c); [done|]. by destruct (Py.split c s).
Qed.

Lemma read_challenge_digest items basic digest details basic' digest' details' :
  read_challenge items (basic, digest, details) = Return (basic', digest', details') →
  offers "digest " items ∨ (digest = true ∧ details ≠ ∅) →
  digest' = true ∧ details' ≠ ∅.
Proof.
  revert basic digest details.
  induction items as [|item items IH]; intros basic digest details Hread Hoff.
  - simpl in Hread. injection Hread as <- <- <-.
    destruct Hoff as [(item & Hin & _)|Hacc]; [|done]. by apply elem_of_nil in Hin.
  - simpl in Hread. destruct (Py.startswith item "digest ") eqn:Hd.
    + destruct (read_parts _ details) as [d|e] eqn:Hparts; [|done]. simpl in Hread.
      apply (IH _ _ _ Hread). right. split; [done|].
      apply (read_parts_nonempty _ _ _ Hparts). left.
      intros Hnil%fmap_nil_inv. by apply split_nonempty in Hnil.
    + apply (IH _ _ _ Hread).
      destruct Hoff as [(item' & Hin & Hst)|Hacc]; [|by right].
      apply elem_of_cons in Hin as [->|Hin].
      * simpl in Hst. by rewrite Hd in Hst.
      * left. by exists item'.
Qed.

Lemma read_challenge_none items basic digest details :
  ¬ offers "basic " items → ¬ offers "digest " items →
  read_challenge items (basic, digest, details) = Return (basic, digest, details).
Proof.
  induction items as [|item items IH]; intros Hb Hd; [done|]. simpl.
  destruct (Py.startswith item "basic ") eqn:Hsb.
  { destruct Hb. exists item. split; [set_solver|done]. }
  destruct (Py.startswith item "digest ") eqn:Hsd.
  { destruct Hd. exists item. split; [set_solver|done]. }
  apply IH.
  - intros (item' & Hin & Hst). apply Hb. exists item'. split; [set_solver|done].
  - intros (item' & Hin & Hst). apply Hd. exists item'. split; [set_solver|done].
Qed.

Section InjectorProperties.

Variable digest : Hash → string → string.
Variable encodestring : string → string.

Local Abbreviation digest_authorization := (digest_authorization digest).
Local Abbreviation authorization := (authorization digest encodestring).
Local Abbreviation handleStatus_401 := (handleStatus_401 digest encodestring).
Local Abbreviation post := (post digest encodestring).

Lemma digest_authorization_header user pswd method url details h :
  digest_authorization user pswd method url details = Return h →
  Py.startswith h "Digest " = true.
Proof.
  unfold digest_authorization.
  destruct (calcHA1 _ _ _ _ _ _ _ _) as [HA1|e]; [|done]. simpl.
  destruct (calcResponse _ _ _ _ _ _ _ _ _ _) as [response|e]; [|done]. simpl.
  destruct (truthy (details !! "qop")); by intros [= <-].
Qed.

Lemma authorization_prefers_digest user pswd method url items h :
  offers "digest " items →
  authorization user pswd method url (Some items) = Return (Some h) →
  Py.startswith h "Digest " = true.
Proof.
  intros Hoff. unfold authorization. simpl.
  destruct (read_challenge items (false, false, ∅)) as [[[b d] details]|e] eqn:Hread; [|done].
  simpl. destruct (read_challenge_digest _ _ _ _ _ _ _ Hread (or_introl Hoff)) as [-> Hne].
  rewrite bool_decide_eq_true_2 by done. simpl.
  destruct (digest_authorization user pswd method url details) as [h'|e] eqn:Hh; [|done].
  simpl. intros [= <-]. by eapply digest_authorization_header.
Qed.

Lemma authorization_none user pswd method url items :
  ¬ offers "basic " items → ¬ offers "digest " items →
  authorization user pswd method url (Some items) = Return None.
Proof.
  intros Hb Hd. unfold authorization. simpl.
  by rewrite read_challenge_none.
Qed.

Lemma post_retried factory server :
  retried factory = true →
  ∃ outcome, post factory server = ([headers_out factory], outcome).
Proof.
  intros Hr. destruct server as [|r server]; simpl; [by eauto|].
  case_decide; [|by eauto].
  unfold handleStatus_401. rewrite Hr. destruct (username factory); by eauto.
Qed.

Lemma post_at_most_twice factory server :
  retried factory = false → (length (post factory server).1 ≤ 2)%nat.
Proof.
  intros Hr. destruct server as [|r server]; simpl; [lia|].
  case_decide; [|simpl; lia].
  unfold handleStatus_401. rewrite Hr.
  destruct (username factory) as [user|]; [|simpl; lia].
  destruct (authorization _ _ _ _ _) as [[h|]|e]; [|simpl; lia..].
  match goal with |- context [post ?f server] =>
    destruct (post_retried f server eq_refl) as [outcome ->] end.
  simpl. lia.
Qed.

(** What [post] does on a 401, given what the handler computes: a factory
    without credentials fails with Unauthorized at once; so does one
    whose challenge offers neither ["basic "] nor ["digest "]; when the
    challenge offers Digest and the handler computes a header, it is a
    Digest one, whether Basic is offered too or not; when the handler
    computes a header, the POST is sent once more with it, after which a
    second 401 fails with Unauthorized and any other status ends the
    injection; and in no case is a third POST sent. *)
Theorem unauthorized_retry (factory : Factory) (user : string) (r1 : Response)
    (rest : list Response) :
  status r1 = 401 →
  (username factory = None →
   post factory (r1 :: rest) = ([headers_out factory], Failed AuthenticationRequired)) ∧
  (username factory = Some user → retried factory = false →
   (∀ items,
      www_authenticate r1 = Some items →
      ¬ offers "basic " items → ¬ offers "digest " items →
      post factory (r1 :: rest) = ([headers_out factory], Failed NoBasicOrDigest)) ∧
   (∀ items h,
      www_authenticate r1 = Some items →
      offers "digest " items →
      authorization user (password factory) (method factory) (url factory) (Some items)
      = Return (Some h) →
      Py.startswith h "Digest " = true) ∧
   (∀ h r2 rest',
      authorization user (password factory) (method factory) (url factory)
        (www_authenticate r1) = Return (Some h) →
      rest = r2 :: rest' →
      post factory (r1 :: rest)
      = ([headers_out factory; <["Authorization" := h]> (headers_out factory)],
         if decide (status r2 = 401) then Failed (CouldNotAuthenticate user)
         else Page (status r2))) ∧
   (length (post factory (r1 :: rest)).1 ≤ 2)%nat).
Proof.
  intros H401. split.
  - intros Hnone. simpl. rewrite decide_True by done.
    unfold handleStatus_401. by rewrite Hnone.
  - intros Huser Hfresh. split_and!.
    + intros items Hitems Hb Hd. simpl. rewrite decide_True by done.
      unfold handleStatus_401. rewrite Huser, Hfresh, Hitems. simpl.
      by rewrite authorization_none.
    + intros items h _ Hoff Hauth. by eapply authorization_prefers_digest.
    + intros h r2 rest' Hauth ->. simpl. rewrite decide_True by done.
      unfold handleStatus_401 at 1. rewrite Huser, Hfresh. simpl. rewrite Hauth.
      case_decide; [|done].
      unfold handleStatus_401. by simpl.
    + by apply post_at_most_twice.
Qed.

(** The value of [calcHA1] and [calcResponse] for the algorithms md5 and
    sha, a realm and a nonce, and a qop other than auth-int: the nonce
    count, the client nonce and the qop enter the response only when all
    three are given and not empty. *)
Lemma digest_response_value (algo realm nonce user pswd method url : string)
    (nc cnonce qop : option string) (h : Hash) :
  algorithms !! algo = Some h →
  algo ≠ "md5-sess" →
  qop ≠ Some "auth-int" →
  let HA1 := encode_hex (digest h (user +:+ ":" +:+ realm +:+ ":" +:+ pswd)) in
  let HA2 := encode_hex (digest h (method +:+ ":" +:+ url)) in
  calcHA1 digest (Some algo) (Some user) (Some realm) (Some pswd) (Some nonce) cnonce None
  = Return HA1 ∧
  calcResponse digest HA1 (Some algo) (Some nonce) nc cnonce qop (Some method) (Some url) None
  = Return (encode_hex (digest h
      (if (truthy nc && truthy cnonce && truthy qop)%bool
       then HA1 +:+ ":" +:+ nonce +:+ ":" +:+ Py.str nc +:+ ":" +:+ Py.str cnonce +:+ ":"
            +:+ Py.str qop +:+ ":" +:+ HA2
       else HA1 +:+ ":" +:+ nonce +:+ ":" +:+ HA2))).
Proof.
  intros Halgo Hsess Hqop HA1 HA2. split.
  - unfold calcHA1, algorithms_get. simpl. rewrite Halgo. simpl.
    rewrite decide_False by congruence. simpl.
    subst HA1. by rewrite !append_assoc.
  - unfold calcResponse, algorithms_get. simpl. rewrite Halgo. simpl.
    rewrite decide_False by done. simpl.
    destruct nc as [nc|], cnonce as [cnonce|], qop as [qop|]; simpl;
      rewrite ?andb_false_r; simpl;
      repeat match goal with |- context [nonempty ?x] => destruct (nonempty x) end;
      simpl; subst HA2; by rewrite !append_assoc.
Qed.

End InjectorProperties.

(** The example of RFC 2617, section 3.5: with the nonce count and the
    client nonce given, [calcHA1] and [calcResponse] compute its response. *)
Example rfc2617_response :
  (HA1 ← calcHA1 hashlib_digest (Some "md5") (Some "Mufasa") (Some "testrealm@host.com")
           (Some "Circle Of Life") (Some "dcd98b7102dd2f0e8b11d0f600bfb0c093")
           (Some "0a4f113b") None;
   calcResponse hashlib_digest HA1 (Some "md5") (Some "dcd98b7102dd2f0e8b11d0f600bfb0c093")
     (Some "00000001") (Some "0a4f113b") (Some "auth") (Some "GET")
     (Some "/dir/index.html") None)
  = Return "6629fae49393a05397450978507c4ef1".
Proof. vm_compute. reflexivity. Qed.

(** C5, at the challenge of the specification's example, followed by a
    200: the challenge names no algorithm, the handler looks [None] up in
    [algorithms] and raises KeyError after it has closed the connection, so
    the one POST without Authorization is all that is sent and the
    injection neither succeeds nor fails with Unauthorized.  The same
    happens when the challenge offers Basic besides: Digest is preferred,
    and nothing is retried.  With the scheme written with a capital, as in
    the example, the handler finds neither scheme and fails with
    Unauthorized without a retry. *)
Lemma challenge_without_algorithm :
  let h0 := headers_out example_factory in
  post hashlib_digest base64.encodestring example_factory
    [mkResponse 401 (Some [example_challenge_plain]); mkResponse 200 None]
  = ([h0], Crashed KeyError) ∧
  post hashlib_digest base64.encodestring example_factory
    [mkResponse 401 (Some ["basic realm=" +:+ quoted "x"; example_challenge_plain]);
     mkResponse 200 None]
  = ([h0], Crashed KeyError) ∧
  post hashlib_digest base64.encodestring example_factory
    [mkResponse 401 (Some [example_challenge_capital]); mkResponse 200 None]
  = ([h0], Failed NoBasicOrDigest).
Proof. intros h0. split_and!; vm_compute; reflexivity. Qed.

(** C6, at the challenge above: the header of the retried request carries
    qop=auth with the text None as cnonce and nc, and its response is the
    digest of HA1:nonce:HA2, which is not the digest of
    HA1:nonce:nc:cnonce:qop:HA2 for the nc, cnonce and qop of the header. *)
Lemma digest_qop_without_cnonce :
  let HA1 := encode_hex (hashlib.md5 "u:x:p") in
  let HA2 := encode_hex (hashlib.md5 "POST:http://localhost:8008/inbox/") in
  (handleStatus_401 hashlib_digest base64.encodestring example_factory
     (Some [example_challenge])).2 = Return (Connect false) ∧
  headers_out (handleStatus_401 hashlib_digest base64.encodestring example_factory
                 (Some [example_challenge])).1 !! "Authorization"
  = Some ("Digest username=" +:+ quoted "u" +:+ ", realm=" +:+ quoted "x" +:+
          ", nonce=" +:+ quoted "n" +:+ ", uri=" +:+ quoted "http://localhost:8008/inbox/" +:+
          ", response=a6d2a98dd1c0f3767efc67d837fd791b, algorithm=md5, cnonce=" +:+
          quoted "None" +:+ ", qop=auth, nc=None") ∧
  encode_hex (hashlib.md5 (HA1 +:+ ":n:" +:+ HA2)) = "a6d2a98dd1c0f3767efc67d837fd791b" ∧
  encode_hex (hashlib.md5 (HA1 +:+ ":n:None:None:auth:" +:+ HA2))
  = "072507c61e108fffef9df7d011733d39".
Proof. vm_compute. split_and!; reflexivity. Qed.

Example refused_twice :
  let run := post hashlib_digest base64.encodestring example_factory
               [example_401; example_401; mkResponse 200 None] in
  length run.1 = 2%nat ∧ run.2 = Failed (CouldNotAuthenticate "u").
Proof. vm_compute. split; reflexivity. Qed.

Example accepted_on_retry :
  let run := post hashlib_digest base64.encodestring example_factory
               [example_401; mkResponse 200 None] in
  length run.1 = 2%nat ∧ run.2 = Page 200 ∧
  (λ a, Py.startswith a "Digest ") <$> (run.1 !! 1%nat ≫= (λ h, h !! "Authorization"))
  = Some true.
Proof. vm_compute. split_and!; reflexivity. Qed.

Lemma digest_response_value_witness :
  calcHA1 hashlib_digest (Some "md5") (Some "Mufasa") (Some "testrealm@host.com")
    (Some "Circle Of Life") (Some "dcd98b7102dd2f0e8b11d0f600bfb0c093") None None
  = Return "939e7578ed9e3c518a452acee763bce9" ∧
  calcResponse hashlib_digest "939e7578ed9e3c518a452acee763bce9" (Some "md5")
    (Some "dcd98b7102dd2f0e8b11d0f600bfb0c093") None None (Some "auth")
    (Some "GET") (Some "/dir/index.html") None
  = Return "670fd8c2df070c60b045671b8b24ff02".
Proof.
  pose proof (digest_response_value hashlib_digest "md5" "testrealm@host.com"
                "dcd98b7102dd2f0e8b11d0f600bfb0c093" "Mufasa" "Circle Of Life" "GET"
                "/dir/index.html" None None (Some "auth") md5 eq_refl
                ltac:(discriminate) ltac:(discriminate)) as H.
  vm_compute in H. vm_compute. exact H.
Defined.

(** Without a configured user name the factory of [injectMessage] has no
    credentials, and the first 401 ends the injection. *)
Example no_credentials :
  injectMessage hashlib_digest base64.encodestring "" "" "mailto:a@x.com" "mailto:b@y.com"
    "http://localhost:8008/inbox/" "http" [example_401; mkResponse 200 None]
  = ([headers_out example_factory], Failed AuthenticationRequired).
Proof. reflexivity. Qed.

Lemma unauthorized_retry_witness :
  let post := post hashlib_digest base64.encodestring in
  let bare := injectMessage_factory "" "" "mailto:a@x.com" "mailto:b@y.com"
                "http://localhost:8008/inbox/" "http" in
  let h0 := headers_out example_factory in
  post bare [example_401; mkResponse 200 None] = ([h0], Failed AuthenticationRequired) ∧
  post example_factory [mkResponse 401 (Some ["negotiate"]); mkResponse 200 None]
  = ([h0], Failed NoBasicOrDigest) ∧
  (∃ h,
     authorization hashlib_digest base64.encodestring "u" "p" "POST"
       "http://localhost:8008/inbox/" (www_authenticate example_401) = Return (Some h) ∧
     Py.startswith h "Digest " = true ∧
     post example_factory [example_401; example_401; mkResponse 200 None]
     = ([h0; <["Authorization" := h]> h0], Failed (CouldNotAuthenticate "u")) ∧
     post example_factory [example_401; mkResponse 200 None]
     = ([h0; <["Authorization" := h]> h0], Page 200)) ∧
  (length (post example_factory [example_401; example_401; example_401]).1 ≤ 2)%nat.
Proof.
  intros post bare h0. split_and!.
  - by apply (unauthorized_retry hashlib_digest base64.encodestring bare "u" example_401
                [mkResponse 200 None] eq_refl).
  - destruct (unauthorized_retry hashlib_digest base64.encodestring example_factory "u"
                (mkResponse 401 (Some ["negotiate"])) [mkResponse 200 None] eq_refl)
      as [_ Hcred].
    destruct (Hcred eq_refl eq_refl) as (Hneither & _).
    apply (Hneither ["negotiate"] eq_refl);
      intros (item & Hin & Hst); apply list_elem_of_singleton in Hin as ->; discriminate.
  - destruct (authorization hashlib_digest base64.encodestring "u" "p" "POST"
                "http://localhost:8008/inbox/" (www_authenticate example_401))
      as [[h|]|e] eqn:Hauth; try (vm_compute in Hauth; discriminate).
    exists h. split; [reflexivity|]. split_and!.
    + destruct (unauthorized_retry hashlib_digest base64.encodestring example_factory "u"
                  example_401 [] eq_refl) as [_ Hcred].
      destruct (Hcred eq_refl eq_refl) as (_ & Hdigest & _).
      apply (Hdigest _ h eq_refl); [|exact Hauth].
      exists example_challenge. split; [|reflexivity].
      apply elem_of_cons. right. apply elem_of_cons. by left.
    + destruct (unauthorized_retry hashlib_digest base64.encodestring example_factory "u"
                  example_401 [example_401; mkResponse 200 None] eq_refl) as [_ Hcred].
      destruct (Hcred eq_refl eq_refl) as (_ & _ & Hretry & _).
      exact (Hretry h _ _ Hauth eq_refl).
    + destruct (unauthorized_retry hashlib_digest base64.encodestring example_factory "u"
                  example_401 [mkResponse 200 None] eq_refl) as [_ Hcred].
      destruct (Hcred eq_refl eq_refl) as (_ & _ & Hretry & _).
      exact (Hretry h _ _ Hauth eq_refl).
  - destruct (unauthorized_retry hashlib_digest base64.encodestring example_factory "u"
                example_401 [example_401; example_401] eq_refl) as [_ Hcred].
    destruct (Hcred eq_refl eq_refl) as (_ & _ & _ & Hlen). exact Hlen.
Defined.

(** * Further properties of the gateway *)

(** ** The token table: insertion, lookup, deletion and purge *)

Lemma filter_token_set_datestamp today t t' (db : Tokens) :
  filter (λ r, TOKEN r = t') (set_datestamp today t <$> db)
  = set_datestamp today t <$> filter (λ r, TOKEN r = t') db.
Proof.
  induction db as [|r db IH]; [done|].
  rewrite fmap_cons, !filter_cons, IH.
  rewrite TOKEN_set_datestamp.
  destruct (decide (TOKEN r = t')); done.
Qed.

Lemma triple_set_datestamp today t r :
  (ORGANIZER (set_datestamp today t r), ATTENDEE (set_datestamp today t r),
   ICALUID (set_datestamp today t r)) = (ORGANIZER r, ATTENDEE r, ICALUID r).
Proof. unfold set_datestamp. destruct (decide _); done. Qed.

Lemma lookupByToken_set_datestamp today t t' db :
  lookupByToken t' (set_datestamp today t <$> db) = lookupByToken t' db.
Proof.
  unfold lookupByToken. rewrite filter_token_set_datestamp.
  destruct (filter _ db) as [|r [|r' l]]; try done.
  simpl. f_equal. apply triple_set_datestamp.
Qed.

Lemma filter_comm {A} (P Q : A → Prop) `{!∀ x, Decision (P x)}
    `{!∀ x, Decision (Q x)} (l : list A) :
  filter P (filter Q l) = filter Q (filter P l).
Proof. rewrite !list_filter_filter. apply list_filter_iff. tauto. Qed.

Lemma filter_token_unique (db : Tokens) r :
  NoDup (TOKEN <$> db) → r ∈ db → filter (λ x, TOKEN x = TOKEN r) db = [r].
Proof.
  induction db as [|x db IH]; intros Hnd Hin.
  - by apply elem_of_nil in Hin.
  - rewrite fmap_cons in Hnd. apply NoDup_cons in Hnd as [Hx Hnd].
    rewrite filter_cons. apply elem_of_cons in Hin as [->|Hin].
    + rewrite decide_True by done. f_equal.
      apply filter_none. intros y Hy Heq. apply Hx. rewrite <- Heq.
      by apply list_elem_of_fmap_2.
    + rewrite decide_False; [by apply IH|].
      intros Heq. apply Hx. rewrite Heq. by apply list_elem_of_fmap_2.
Qed.

Lemma filter_token_fresh (db : Tokens) t :
  t ∉ TOKEN <$> db → filter (λ x, TOKEN x = t) db = [].
Proof.
  intros Hfresh. apply filter_none. intros y Hy Heq. apply Hfresh.
  rewrite <- Heq. by apply list_elem_of_fmap_2.
Qed.

Lemma TOKEN_fmap_set_datestamp today t (db : Tokens) :
  TOKEN <$> (set_datestamp today t <$> db) = TOKEN <$> db.
Proof.
  rewrite <- list_fmap_compose. apply list_fmap_ext. intros _ r _. simpl.
  apply TOKEN_set_datestamp.
Qed.

Section TokenRoundTrip.

Variable _db_value_for_sql : list string → result (option string).
Hypothesis value_of_no_row : _db_value_for_sql [] = Return None.
Hypothesis value_of_one_row : ∀ v, _db_value_for_sql [v] = Return (Some v).

Local Abbreviation outbound_token := (outbound_token _db_value_for_sql).

(** In a table whose tokens are pairwise distinct and that holds at most
    one row for the triple, a request with a fresh uuid leaves exactly one
    row under the token it answers with: the triple's, dated today. *)
Lemma outbound_token_row o a u today uuid (db : Tokens) :
  (length (filter (for_triple o a u) db) ≤ 1)%nat →
  NoDup (TOKEN <$> db) →
  uuid ∉ TOKEN <$> db →
  ∃ t n db',
    outbound_token o a u today uuid db = Return (t, n, db') ∧
    filter (λ r, TOKEN r = t) db' = [mkRow t o a u today] ∧
    NoDup (TOKEN <$> db').
Proof.
  intros Hle Hnd Hfresh.
  destruct (filter (for_triple o a u) db) as [|r [|r' l]] eqn:Hf.
  - eexists _, _, _. split; [by apply outbound_token_miss|]. split.
    + rewrite filter_app, filter_token_fresh by done.
      by rewrite filter_cons_True.
    + rewrite fmap_app. apply NoDup_app. split_and!; [done| |apply NoDup_singleton].
      intros x Hx Hx'. apply list_elem_of_singleton in Hx'. by subst.
  - assert (r ∈ filter (for_triple o a u) db) as Hin by (rewrite Hf; set_solver).
    apply list_elem_of_filter in Hin as [Hr Hin].
    eexists _, _, _. split; [by apply outbound_token_hit|]. split.
    + rewrite filter_token_set_datestamp, filter_token_unique by done.
      simpl. f_equal. by apply set_datestamp_row.
    + by rewrite TOKEN_fmap_set_datestamp.
  - simpl in Hle. lia.
Qed.

End TokenRoundTrip.

(** [createToken] appends one row and touches no other: every row of the
    table stays at its place with its token, triple and date; the row
    after them is the new one, with the triple it was called for, today's
    date and, as token, the one passed or the fresh uuid when none is,
    which is also what it returns; the table grows by that one row, so
    the number of rows that store the triple grows by one and that of
    every other triple stays.  It never looks at the rows already there. *)
Theorem createToken_adds_one_row o a u token uuid today (db : Tokens) o' a' u' :
  (createToken o a u token uuid today db).1 = default uuid token
  ∧ (∀ i r, db !! i = Some r → (createToken o a u token uuid today db).2 !! i = Some r)
  ∧ (createToken o a u token uuid today db).2 !! length db
    = Some (mkRow (default uuid token) o a u today)
  ∧ length (createToken o a u token uuid today db).2 = S (length db)
  ∧ length (filter (λ r, triple r = (o', a', u')) (createToken o a u token uuid today db).2)
    = (length (filter (λ r, triple r = (o', a', u')) db)
       + (if decide ((o', a', u') = (o, a, u)) then 1 else 0))%nat.
Proof.
  assert ((createToken o a u token uuid today db).2
          = db ++ [mkRow (default uuid token) o a u today]) as ->.
  { unfold createToken. by destruct token. }
  split_and!.
  - unfold createToken. by destruct token.
  - intros i r Hi. by apply lookup_app_l_Some.
  - by rewrite lookup_app_r, Nat.sub_diag.
  - rewrite length_app. simpl. lia.
  - rewrite filter_app, length_app. f_equal.
    rewrite filter_cons, filter_nil. unfold triple at 1. simpl.
    destruct (decide ((o, a, u) = (o', a', u'))) as [Heq|Hne].
    + by rewrite decide_True.
    + by rewrite decide_False.
Qed.

(** A token passed to [createToken] resolves to the triple afterwards
    exactly when no row carried it before; when one did, [lookupByToken]
    finds two rows or more and answers [None], for the old triple too. *)
Theorem createToken_lookupByToken o a u t uuid today (db : Tokens) :
  lookupByToken t (createToken o a u (Some t) uuid today db).2
  = if decide (filter (λ r, TOKEN r = t) db = []) then Some (o, a, u) else None.
Proof.
  unfold createToken, lookupByToken. simpl.
  rewrite filter_app, filter_cons, filter_nil. simpl.
  rewrite decide_True by done.
  destruct (filter _ db) as [|r [|r' l]]; simpl; done.
Qed.

(** After [deleteToken] the token is unknown, and every other token
    resolves as before. *)
Theorem deleteToken_lookupByToken t t' (db : Tokens) :
  lookupByToken t' (deleteToken t db)
  = if decide (t' = t) then None else lookupByToken t' db.
Proof.
  unfold lookupByToken, deleteToken.
  destruct (decide (t' = t)) as [->|Hne].
  - rewrite list_filter_filter.
    replace (filter _ db) with (@nil Row); [done|].
    symmetry. apply filter_none. tauto.
  - rewrite list_filter_filter.
    replace (filter (λ x, TOKEN x = t' ∧ TOKEN x ≠ t) db)
      with (filter (λ r, TOKEN r = t') db); [done|].
    apply list_filter_iff. intros r. split; [|tauto]. intros ->. done.
Qed.

(** Two purges in a row are one purge with the later cutoff; so a purge
    is idempotent and the order of two purges does not matter. *)
Theorem purgeOldTokens_compose b1 b2 (db : Tokens) :
  purgeOldTokens b1 (purgeOldTokens b2 db) = purgeOldTokens (Z.max b1 b2) db ∧
  purgeOldTokens b1 (purgeOldTokens b1 db) = purgeOldTokens b1 db ∧
  purgeOldTokens b1 (purgeOldTokens b2 db) = purgeOldTokens b2 (purgeOldTokens b1 db).
Proof.
  unfold purgeOldTokens. split_and!.
  - rewrite list_filter_filter. apply list_filter_iff. intros r. lia.
  - rewrite list_filter_filter. apply list_filter_iff. intros r. lia.
  - apply filter_comm.
Qed.

(** Whatever the scalar reader gives, a [getToken] that returns changes
    nothing but DATESTAMPs: the tokens, organizers, attendees and uids of
    the rows stay, in their order, so every token resolves as before; on a
    miss the table is untouched, and on a hit exactly the rows of the token
    found get today's date. *)
Theorem getToken_keeps_tokens
    (_db_value_for_sql : list string → result (option string))
    (o a : string) (u : option string) (today : Z) (db db' : Tokens) (token : option string) :
  getToken _db_value_for_sql o a u today db = Return (token, db') →
  TOKEN <$> db' = TOKEN <$> db ∧
  ORGANIZER <$> db' = ORGANIZER <$> db ∧
  ATTENDEE <$> db' = ATTENDEE <$> db ∧
  ICALUID <$> db' = ICALUID <$> db ∧
  (∀ t, lookupByToken t db' = lookupByToken t db) ∧
  (token = None → db' = db) ∧
  (∀ t, token = Some t →
     ∀ i r, db !! i = Some r →
       db' !! i = Some (if decide (TOKEN r = t)
                        then mkRow (TOKEN r) (ORGANIZER r) (ATTENDEE r) (ICALUID r) today
                        else r)).
Proof.
  unfold getToken. intros Hget.
  destruct (_db_value_for_sql _) as [[t|]|e]; simpl in Hget; [| |done].
  - injection Hget as <- <-.
    assert (∀ {B} (f : Row → B), (∀ r, f (set_datestamp today t r) = f r) →
              f <$> (set_datestamp today t <$> db) = f <$> db) as Hcol.
    { intros B f Hf. rewrite <- list_fmap_compose. apply list_fmap_ext.
      intros _ r _. apply Hf. }
    split_and!; try (apply Hcol; intros r; unfold set_datestamp; by case_decide).
    + intros t'. apply lookupByToken_set_datestamp.
    + done.
    + intros t' [= <-] i r Hi. rewrite list_lookup_fmap, Hi. done.
  - injection Hget as <- <-. split_and!; try done.
Qed.

Lemma getToken_keeps_tokens_witness :
  let db := [mkRow "T1" "mailto:a@x.com" "mailto:b@y.com" (Some "EVT-1") 10;
             mkRow "T2" "mailto:a@x.com" "mailto:c@z.com" (Some "EVT-1") 20] in
  let db' := [mkRow "T1" "mailto:a@x.com" "mailto:b@y.com" (Some "EVT-1") 10;
              mkRow "T2" "mailto:a@x.com" "mailto:c@z.com" (Some "EVT-1") 30] in
  getToken single_value "mailto:a@x.com" "mailto:c@z.com" (Some "EVT-1") 30 db
    = Return (Some "T2", db') ∧
  TOKEN <$> db' = TOKEN <$> db ∧
  ORGANIZER <$> db' = ORGANIZER <$> db ∧
  ATTENDEE <$> db' = ATTENDEE <$> db ∧
  ICALUID <$> db' = ICALUID <$> db ∧
  (∀ t, lookupByToken t db' = lookupByToken t db) ∧
  (Some "T2" = None → db' = db) ∧
  (∀ t, Some "T2" = Some t →
     ∀ i r, db !! i = Some r →
       db' !! i = Some (if decide (TOKEN r = t)
                        then mkRow (TOKEN r) (ORGANIZER r) (ATTENDEE r) (ICALUID r) 30
                        else r)).
Proof.
  intros db db'. split; [reflexivity|].
  apply (getToken_keeps_tokens single_value "mailto:a@x.com" "mailto:c@z.com" (Some "EVT-1") 30 db db').
  reflexivity.
Defined.

(** The token of an invitation resolves: in a table whose tokens are
    pairwise distinct and that holds at most one row for the triple, the
    token that the token step of [outbound] answers with, found or created
    from a uuid no row carries, is one that [lookupByToken] maps back to
    the triple; the tokens of the table are pairwise distinct afterwards. *)
Theorem outbound_token_resolves
    (_db_value_for_sql : list string → result (option string))
    (o a : string) (u : option string) (uuid : string) (today : Z) (db : Tokens) :
  _db_value_for_sql [] = Return None →
  (∀ v, _db_value_for_sql [v] = Return (Some v)) →
  (length (filter (for_triple o a u) db) ≤ 1)%nat →
  NoDup (TOKEN <$> db) →
  uuid ∉ TOKEN <$> db →
  ∃ t n db',
    outbound_token _db_value_for_sql o a u today uuid db = Return (t, n, db') ∧
    lookupByToken t db' = Some (o, a, u) ∧
    NoDup (TOKEN <$> db').
Proof.
  intros H0 H1 Hle Hnd Hfresh.
  destruct (outbound_token_row _ H0 H1 o a u today uuid db Hle Hnd Hfresh)
    as (t & n & db' & Hreq & Hrow & Hnd').
  exists t, n, db'. split_and!; [done| |done].
  unfold lookupByToken. by rewrite Hrow.
Qed.

Lemma outbound_token_resolves_witness :
  ∃ t n db',
    outbound_token single_value "mailto:a@x.com" "mailto:c@z.com" (Some "EVT-1") 130 "T2" example_db
      = Return (t, n, db') ∧
    lookupByToken t db' = Some ("mailto:a@x.com", "mailto:c@z.com", (Some "EVT-1")) ∧
    NoDup (TOKEN <$> db').
Proof.
  apply (outbound_token_resolves single_value);
    [reflexivity | intros v; reflexivity | simpl; lia | | ].
  - apply NoDup_singleton.
  - intros Hin. apply list_elem_of_singleton in Hin. discriminate Hin.
Defined.

(** ** The request status of a failed delivery *)

(** The loop of [processDSN] that records the failure stops at the first
    VEVENT: that component gets the REQUEST-STATUS property, the
    components before and after it are left as they are, later VEVENTs
    included, and a calendar without any VEVENT is left unchanged; the
    number of components never changes. *)
Theorem add_request_status_first before comps :
  Forall (λ comp, ical.name comp ≠ "VEVENT") before →
  add_request_status before = before ∧
  length (add_request_status (before ++ comps)) = length (before ++ comps) ∧
  ∀ comp after, comps = comp :: after → ical.name comp = "VEVENT" →
    add_request_status (before ++ comps)
    = before
      ++ ical.addProperty
           (ical.mkProperty "REQUEST-STATUS" (ical.TextList ["5.1"; "Service unavailable"]))
           comp
      :: after.
Proof.
  intros Hb. split_and!.
  - induction Hb as [|c before Hc _ IH]; [done|].
    simpl. rewrite decide_False by done. by rewrite IH.
  - generalize (before ++ comps). clear. intros l.
    induction l as [|c l IH]; [done|]. simpl. case_decide; simpl; by rewrite ?IH.
  - intros comp after -> Hname.
    induction Hb as [|c before Hc _ IH]; simpl.
    + by rewrite decide_True.
    + rewrite decide_False by done. by rewrite IH.
Qed.

Lemma add_request_status_first_witness :
  let alarm := ical.mkComponent "VTIMEZONE" [] [] in
  let event := ical.mkComponent "VEVENT" [ical.mkProperty "UID" (ical.Text "EVT-1")] [] in
  add_request_status [alarm] = [alarm] ∧
  length (add_request_status ([alarm] ++ [event; event])) = length ([alarm] ++ [event; event]) ∧
  ∀ comp after, [event; event] = comp :: after → ical.name comp = "VEVENT" →
    add_request_status ([alarm] ++ [event; event])
    = [alarm]
      ++ ical.addProperty
           (ical.mkProperty "REQUEST-STATUS" (ical.TextList ["5.1"; "Service unavailable"]))
           comp
      :: after.
Proof.
  intros alarm event. apply (add_request_status_first [alarm] [event; event]).
  repeat constructor. discriminate.
Defined.

(** ** Plus addressing: the masked address and the token read back *)

Lemma split_inv c s w ws :
  Py.split c s = w :: ws →
  Py.contains c w = false ∧
  ((ws = [] ∧ s = w) ∨ ∃ s', s = w +:+ String c s' ∧ Py.split c s' = ws).
Proof.
  revert w ws. induction s as [|c' s IH]; simpl; intros w ws Hs.
  - injection Hs as <- <-. split; [done|by left].
  - destruct (Ascii.eqb c' c) eqn:Hc.
    + apply Ascii.eqb_eq in Hc as ->. injection Hs as <- <-.
      split; [done|]. right. by exists s.
    + destruct (Py.split c s) as [|w0 ws0] eqn:Hs0.
      * injection Hs as <- <-. simpl. rewrite Hc. split; [done|].
        left. split; [done|]. destruct s; [done|].
        simpl in Hs0. destruct (Ascii.eqb _ _); [done|]. by destruct (Py.split c s).
      * injection Hs as <- <-.
        destruct (IH _ _ eq_refl) as [Hw0 Hcase]. simpl. rewrite Hc, Hw0.
        split; [done|]. destruct Hcase as [[-> ->]|(s' & -> & Hs')].
        -- by left.
        -- right. exists s'. by rewrite append_cons.
Qed.

Lemma split_two c s a b :
  Py.split c s = [a; b] →
  s = a +:+ String c b ∧ Py.contains c a = false ∧ Py.contains c b = false.
Proof.
  intros Hs. apply split_inv in Hs as [Ha [[? _]|(s' & -> & Hs')]]; [done|].
  apply split_inv in Hs' as [Hb [[_ ->]|(s'' & _ & Hs'')]]; [done|].
  destruct s''; simpl in Hs''; [done|].
  destruct (Ascii.eqb _ _); [done|]. by destruct (Py.split c s'').
Qed.

Lemma split_app_sep c s1 s2 :
  Py.split c (s1 +:+ String c s2) = Py.split c s1 ++ Py.split c s2.
Proof.
  induction s1 as [|c' s1 IH].
  - rewrite append_nil. simpl. by rewrite Ascii.eqb_refl.
  - rewrite append_cons. simpl. rewrite IH.
    destruct (Ascii.eqb c' c); [done|].
    destruct (Py.split c s1) as [|w ws] eqn:Hs1; [|done].
    destruct s1; simpl in Hs1; [done|].
    destruct (Ascii.eqb _ _); [done|]. by destruct (Py.split c s1).
Qed.

Lemma split_length_one c s :
  length (Py.split c s) = 1%nat ↔ Py.contains c s = false.
Proof.
  split.
  - intros Hlen. destruct (Py.split c s) as [|w [|? ?]] eqn:Hs; try done.
    apply split_inv in Hs as [Hw [[_ ->]|(s' & _ & Hs')]]; [done|].
    by apply split_nonempty in Hs'.
  - intros Hno. by rewrite split_without.
Qed.

Lemma split_contains c s :
  Py.contains c s = true → (2 ≤ length (Py.split c s))%nat.
Proof.
  intros Hc. destruct (Py.split c s) as [|w [|w' ws]] eqn:Hs.
  - destruct s; simpl in Hs; [done|].
    destruct (Ascii.eqb _ _); [done|]. by destruct (Py.split c s).
  - assert (Py.contains c s = false) as Hno.
    { apply split_length_one. by rewrite Hs. }
    congruence.
  - simpl. lia.
Qed.

(** [_extractToken] answers with a token exactly for the texts of the form
    pre+token@post in which the at sign and the plus sign occur nowhere
    else before the domain: one at sign in all, one plus sign before it.
    Every other text, an address with a second plus sign in its local part
    included, gives [None]. *)
Theorem _extractToken_exact text token :
  _extractToken text = Some token ↔
  ∃ pre post,
    text = pre +:+ "+" +:+ token +:+ "@" +:+ post ∧
    Py.contains "+" pre = false ∧ Py.contains "@" pre = false ∧
    Py.contains "+" token = false ∧ Py.contains "@" token = false ∧
    Py.contains "@" post = false.
Proof.
  split.
  - unfold _extractToken. intros Htok.
    destruct (Py.split "@" text) as [|local [|post [|? ?]]] eqn:Hat; try done.
    destruct (Py.split "+" local) as [|pre [|tok [|? ?]]] eqn:Hplus; try done.
    injection Htok as ->.
    apply split_two in Hat as (-> & Hl & Hpost).
    apply split_two in Hplus as (-> & Hpre & Htok).
    rewrite contains_app in Hl. apply orb_false_elim in Hl as [Hpre' Htok'].
    simpl in Htok'.
    exists pre, post. split_and!; try done.
    by rewrite !append_assoc.
  - intros (pre & post & -> & ? & ? & ? & ? & ?). by apply _extractToken_form.
Qed.

Lemma split_prefix c s1 s2 :
  Py.contains c s1 = false →
  Py.split c (s1 +:+ s2)
  = (s1 +:+ hd "" (Py.split c s2)) :: tl (Py.split c s2).
Proof.
  intros Hno. induction s1 as [|c' s1 IH].
  - rewrite !append_nil. pose proof (split_nonempty c s2). by destruct (Py.split c s2).
  - simpl in Hno. apply orb_false_elim in Hno as [Hc Hno].
    rewrite !append_cons. simpl. rewrite Hc, IH by done. done.
Qed.

(** The address that [outbound] writes into the invitation is one that
    [_extractToken] reads the token back from, provided the local part of
    the server's address has no plus sign and the token has neither a plus
    nor an at sign (a uuid has none); with a plus sign in the server's own
    local part no token is ever read back. *)
Theorem addressWithToken_extract serverAddress pre post token :
  Py.split "@" serverAddress = [pre; post] →
  addressWithToken serverAddress token
    = Return (pre +:+ "+" +:+ token +:+ "@" +:+ post) ∧
  _extractToken (pre +:+ "+" +:+ token +:+ "@" +:+ post)
    = if (Py.contains "+" pre || Py.contains "+" token || Py.contains "@" token)%bool
      then None else Some token.
Proof.
  intros Hsplit. unfold addressWithToken. rewrite Hsplit. split; [done|].
  apply split_two in Hsplit as (_ & Hpre & Hpost).
  unfold _extractToken.
  replace (pre +:+ "+" +:+ token +:+ "@" +:+ post)
    with ((pre +:+ String "+" token) +:+ String "@" post) by (by rewrite !append_assoc).
  rewrite split_app_sep, (split_without _ post) by done.
  rewrite (split_prefix "@" pre) by done.
  change (String "+" token) with ("+" +:+ token).
  rewrite (split_prefix "@" "+") by done.
  destruct (Py.contains "@" token) eqn:Hat.
  { rewrite !orb_true_r. apply split_contains in Hat.
    destruct (Py.split "@" token) as [|w [|w' ws]]; simpl in Hat; try lia.
    simpl. by destruct ws. }
  rewrite (split_without _ token) by done. simpl.
  change ("+" +:+ token) with (String "+" token).
  rewrite split_app_sep. rewrite orb_false_r.
  pose proof (split_nonempty "+" pre) as Hn1.
  pose proof (split_nonempty "+" token) as Hn2.
  destruct (Py.contains "+" pre) eqn:Hp; simpl.
  { apply split_contains in Hp.
    destruct (Py.split "+" pre) as [|w [|w' ws]]; simpl in Hp; try lia.
    simpl. by destruct (Py.split "+" token), ws. }
  rewrite (split_without _ pre) by done. simpl.
  destruct (Py.contains "+" token) eqn:Ht.
  { apply split_contains in Ht.
    destruct (Py.split "+" token) as [|w [|w' ws]]; simpl in Ht; try lia. done. }
  by rewrite (split_without _ token).
Qed.

Lemma addressWithToken_extract_witness :
  Py.split "@" "calendar@example.com" = ["calendar"; "example.com"] ∧
  addressWithToken "calendar@example.com" "9f2c-1"
    = Return ("calendar" +:+ "+" +:+ "9f2c-1" +:+ "@" +:+ "example.com") ∧
  _extractToken ("calendar" +:+ "+" +:+ "9f2c-1" +:+ "@" +:+ "example.com")
    = if (Py.contains "+" "calendar" || Py.contains "+" "9f2c-1"
          || Py.contains "@" "9f2c-1")%bool
      then None else Some "9f2c-1".
Proof.
  split; [reflexivity|].
  apply (addressWithToken_extract "calendar@example.com" "calendar" "example.com" "9f2c-1").
  reflexivity.
Defined.

(** [outbound] builds the masked address exactly for a server address
    with one at sign; for any other, the empty address included, the
    unpacking raises ValueError. *)
Theorem addressWithToken_defined serverAddress token :
  match addressWithToken serverAddress token with
  | Return addr =>
      ∃ pre post, serverAddress = pre +:+ "@" +:+ post ∧
        Py.contains "@" pre = false ∧ Py.contains "@" post = false ∧
        addr = pre +:+ "+" +:+ token +:+ "@" +:+ post
  | Raise e =>
      e = ValueError ∧
      ∀ pre post, serverAddress = pre +:+ "@" +:+ post →
        Py.contains "@" pre = true ∨ Py.contains "@" post = true
  end.
Proof.
  unfold addressWithToken.
  destruct (Py.split "@" serverAddress) as [|pre [|post [|? ?]]] eqn:Hs.
  - by apply split_nonempty in Hs.
  - split; [done|]. intros pre' post' ->.
    destruct (Py.contains "@" pre') eqn:Hpre; [by left|].
    change ("@" +:+ post') with (String "@" post') in Hs.
    rewrite split_at in Hs by done.
    injection Hs as _ Hs. by apply split_nonempty in Hs.
  - apply split_two in Hs as (-> & ? & ?). by exists pre, post.
  - split; [done|]. intros pre' post' ->.
    destruct (Py.contains "@" pre') eqn:Hpre; [by left|].
    destruct (Py.contains "@" post') eqn:Hpost; [by right|].
    change ("@" +:+ post') with (String "@" post') in Hs.
    rewrite split_at, split_without in Hs by done. done.
Qed.

(** ** The digest computation *)

Lemma last_app_dquote c s : Py.last c (s +:+ String dquote "") = dquote.
Proof.
  revert c. induction s as [|c' s IH]; intros c; [done|].
  rewrite append_cons. simpl. apply IH.
Qed.

Lemma init_app_one s c : Py.init (s +:+ String c "") = s.
Proof.
  induction s as [|c' s IH]; [done|].
  rewrite append_cons. simpl. rewrite IH.
  destruct s; done.
Qed.

(** [unq] undoes quoting: a text between two double quotes gives the text,
    whatever it holds; a text that does not both start and end with a
    double quote is left as it is; the empty text raises IndexError, so a
    directive with an empty value stops the handler. *)
Theorem unq_quoted s :
  unq (quoted s) = Return s ∧
  unq "" = Raise IndexError ∧
  ∀ c s', c ≠ dquote ∨ Py.last c s' ≠ dquote → unq (String c s') = Return (String c s').
Proof.
  split_and!.
  - unfold quoted, unq. rewrite last_app_dquote, init_app_one. done.
  - done.
  - intros c s' Hc. unfold unq.
    destruct (Ascii.eqb c (Py.last c s')) eqn:H1; [|done].
    destruct (Ascii.eqb (Py.last c s') dquote) eqn:H2; [|done].
    apply Ascii.eqb_eq in H1, H2. destruct Hc as [Hc|Hc]; congruence.
Qed.

Lemma hex_digit_value n :
  (n < 16)%N → hex_value (hex_digit n) = Some n.
Proof.
  intros Hn.
  assert (n ∈ [0;1;2;3;4;5;6;7;8;9;10;11;12;13;14;15]%N) as Hin.
  { assert (N.to_nat n < 16)%nat as Hlt by lia.
    replace n with (N.of_nat (N.to_nat n)) by lia.
    generalize dependent (N.to_nat n). intros m Hm.
    do 16 (destruct m as [|m]; [set_solver|]). lia. }
  repeat (apply elem_of_cons in Hin as [->|Hin]; [done|]).
  by apply elem_of_nil in Hin.
Qed.

Lemma decode_encode_hex s : decode_hex (encode_hex s) = Return s.
Proof.
  induction s as [|c s IH]; [done|].
  cbn [encode_hex decode_hex].
  pose proof (N_ascii_bounded c) as Hc.
  rewrite !hex_digit_value.
  - rewrite IH. simpl. f_equal. f_equal.
    rewrite <- (N.div_mod' (N_of_ascii c) 16). apply ascii_N_embedding.
  - apply N.mod_lt. lia.
  - apply N.Div0.div_lt_upper_bound. lia.
Qed.

Lemma hex_value_digit a x :
  hex_value a = Some x → (x < 16)%N ∧ hex_digit x = Py.lower_ascii a.
Proof.
  destruct a as [[] [] [] [] [] [] [] []]; vm_compute; intros [= <-]; split; reflexivity.
Qed.

Lemma encode_decode_hex s r : decode_hex s = Return r → encode_hex r = Py.lower s.
Proof.
  assert (∀ s, (∀ r, decode_hex s = Return r → encode_hex r = Py.lower s) ∧
               (∀ a r, decode_hex (String a s) = Return r
                       → encode_hex r = Py.lower (String a s))) as Hall.
  { clear. induction s as [|c s [IH1 IH2]].
    - split; [by intros r [= <-]|]. intros a r Hr. done.
    - split; [apply IH2|]. intros a r Hr. cbn [decode_hex] in Hr.
      destruct (hex_value a) as [x|] eqn:Hx; [|done].
      destruct (hex_value c) as [y|] eqn:Hy; [|done].
      destruct (decode_hex s) as [r'|e] eqn:Hs; [|done].
      simpl in Hr. injection Hr as <-.
      apply hex_value_digit in Hx as [Hx Hdx], Hy as [Hy Hdy].
      cbn [encode_hex Py.lower]. rewrite (IH1 r' eq_refl).
      rewrite N_ascii_embedding by lia.
      replace ((16 * x + y) / 16)%N with x.
      2:{ apply N.div_unique with y; lia. }
      replace ((16 * x + y) mod 16)%N with y.
      2:{ apply N.mod_unique with x; lia. }
      by rewrite Hdx, Hdy. }
  apply Hall.
Qed.

Section DigestProperties.

Variable digest : Hash → string → string.

Local Abbreviation calcHA1 := (calcHA1 digest).

(** [calcHA1] with a precomputed HA1: given the hexadecimal digest of
    user:realm:password as [preHA1], and no credentials, it answers as it
    does for the credentials themselves, for md5-sess too; for the other
    algorithms what it returns for any [preHA1] is that text in lower
    case; and a non-empty [preHA1] together with a non-empty user, realm
    or password is refused with TypeError. *)
Theorem calcHA1_preHA1 (alg user realm pswd : string) (nonce cnonce : option string) (h : Hash) :
  algorithms !! alg = Some h →
  let pre := encode_hex (digest h (user +:+ ":" +:+ realm +:+ ":" +:+ pswd)) in
  calcHA1 (Some alg) None None None nonce cnonce (Some pre)
  = calcHA1 (Some alg) (Some user) (Some realm) (Some pswd) nonce cnonce None ∧
  (alg ≠ "md5-sess" →
   ∀ pre' r, calcHA1 (Some alg) None None None nonce cnonce (Some pre') = Return r →
     r = Py.lower pre') ∧
  (∀ pre', nonempty pre' = true →
     (nonempty user || nonempty realm || nonempty pswd)%bool = true →
     calcHA1 (Some alg) (Some user) (Some realm) (Some pswd) nonce cnonce (Some pre')
     = Raise TypeError).
Proof.
  intros Halg pre. split_and!.
  - unfold calcHA1, algorithms_get. simpl. rewrite Halg. simpl.
    rewrite andb_false_r. subst pre. rewrite decode_encode_hex. simpl.
    by rewrite !append_assoc.
  - intros Hsess pre' r. unfold calcHA1. simpl. rewrite andb_false_r.
    destruct (decode_hex pre') as [raw|e] eqn:Hdec; [|done]. simpl.
    rewrite decide_False by congruence. simpl. intros [= <-].
    by apply encode_decode_hex.
  - intros pre' Hpre Hcred. unfold calcHA1. simpl.
    by rewrite Hpre, Hcred.
Qed.

End DigestProperties.

Lemma calcHA1_preHA1_witness :
  algorithms !! "md5-sess" = Some md5 ∧
  (calcHA1 hashlib_digest (Some "md5-sess") None None None (Some "n") (Some "c")
     (Some (encode_hex (hashlib_digest md5 ("u" +:+ ":" +:+ "x" +:+ ":" +:+ "p"))))
   = calcHA1 hashlib_digest (Some "md5-sess") (Some "u") (Some "x") (Some "p")
       (Some "n") (Some "c") None ∧
   ("md5-sess" ≠ "md5-sess" →
    ∀ pre' r, calcHA1 hashlib_digest (Some "md5-sess") None None None (Some "n") (Some "c")
                (Some pre') = Return r →
      r = Py.lower pre') ∧
   (∀ pre', nonempty pre' = true →
      (nonempty "u" || nonempty "x" || nonempty "p")%bool = true →
      calcHA1 hashlib_digest (Some "md5-sess") (Some "u") (Some "x") (Some "p")
        (Some "n") (Some "c") (Some pre')
      = Raise TypeError)).
Proof.
  split; [reflexivity|].
  exact (calcHA1_preHA1 hashlib_digest "md5-sess" "u" "x" "p" (Some "n") (Some "c") md5 eq_refl).
Defined.

(** ** The handler of a 401 response *)

Lemma split1_without c s : Py.contains c s = false → Py.split1 c s = [s].
Proof.
  induction s as [|c' s IH]; simpl; [done|].
  intros [Hc Hs]%orb_false_elim. rewrite Hc, IH; done.
Qed.

Lemma read_parts_raise kvs details :
  (∃ kv, kv ∈ kvs ∧
     (length kv ≠ 2%nat ∨ ∃ k v, kv = [k; v] ∧ Py.strip v = "")) →
  ∃ e, read_parts kvs details = Raise e.
Proof.
  revert details. induction kvs as [|kv kvs IH]; intros details (kv' & Hin & Hbad).
  - by apply elem_of_nil in Hin.
  - destruct kv as [|k [|v [|? ?]]]; simpl; try by eauto.
    destruct (unq (Py.strip v)) as [v'|e] eqn:Hv; simpl; [|by eauto].
    apply IH. exists kv'. split; [|done].
    apply elem_of_cons in Hin as [->|Hin]; [|done].
    destruct Hbad as [Hlen|(k' & v0 & [= -> ->] & Hempty)]; [done|].
    rewrite Hempty in Hv. done.
Qed.

Lemma read_challenge_raise items acc :
  (∃ item piece, item ∈ items ∧ Py.startswith item "digest " = true ∧
     piece ∈ Py.split "," (Py.drop 7 item) ∧
     (Py.contains "=" piece = false ∨
      ∃ k v, Py.split1 "=" piece = [k; v] ∧ Py.strip v = "")) →
  ∃ e, read_challenge items acc = Raise e.
Proof.
  revert acc. induction items as [|item items IH];
    intros [[b d] details] (item' & piece & Hin & Hst & Hpiece & Hbad).
  - by apply elem_of_nil in Hin.
  - cbn [read_challenge]. apply elem_of_cons in Hin as [->|Hin].
    + rewrite Hst.
      destruct (read_parts_raise (Py.split1 "=" <$> Py.split "," (Py.drop 7 item)) details)
        as [e ->]; [|by eauto].
      exists (Py.split1 "=" piece). split; [by apply list_elem_of_fmap_2|].
      destruct Hbad as [Hno|Hempty]; [|by right].
      left. by rewrite split1_without.
    + destruct (Py.startswith item "digest ").
      * destruct (read_parts _ details) as [details'|e]; simpl; [|by eauto].
        apply IH. by exists item', piece.
      * apply IH. by exists item', piece.
Qed.

Lemma read_challenge_no_digest items basic dg details :
  ¬ offers "digest " items →
  ∃ basic', read_challenge items (basic, dg, details) = Return (basic', dg, details) ∧
            (basic = true ∨ offers "basic " items → basic' = true).
Proof.
  revert basic. induction items as [|item items IH]; intros basic Hd.
  - exists basic. split; [done|]. intros [?|(item & Hin & _)]; [done|].
    by apply elem_of_nil in Hin.
  - simpl. destruct (Py.startswith item "digest ") eqn:Hsd.
    { destruct Hd. exists item. split; [set_solver|done]. }
    assert (¬ offers "digest " items) as Hd'.
    { intros (item' & Hin & Hst). apply Hd. exists item'. split; [set_solver|done]. }
    destruct (IH (if Py.startswith item "basic " then true else basic) Hd')
      as (basic' & Hread & Hb).
    exists basic'. split; [done|]. intros Hoff. apply Hb.
    destruct Hoff as [->|(item' & Hin & Hst)].
    + left. by destruct (Py.startswith item "basic ").
    + apply elem_of_cons in Hin as [->|Hin].
      * left. unfold Py.startswith in Hst |- *. by rewrite Hst.
      * right. by exists item'.
Qed.

Lemma contains_remove c s : Py.contains c (Py.remove c s) = false.
Proof.
  induction s as [|c' s IH]; [done|]. simpl.
  destruct (Ascii.eqb c' c) eqn:Hc; [done|]. simpl. by rewrite Hc, IH.
Qed.

Section HandlerProperties.

Variable digest : Hash → string → string.
Variable encodestring : string → string.

Local Abbreviation digest_authorization := (digest_authorization digest).
Local Abbreviation authorization := (authorization digest encodestring).
Local Abbreviation handleStatus_401 := (handleStatus_401 digest encodestring).
Local Abbreviation post := (post digest encodestring).

(** When the handler answers a Digest challenge: [digest_authorization]
    returns a header exactly when the challenge names an algorithm of the
    dictionary (md5, md5-sess or sha, in lower case), gives a realm and a
    nonce, does not ask for qop=auth-int and, for md5-sess, carries a
    cnonce.  Otherwise it raises: KeyError when the algorithm is missing or
    unknown, TypeError in the other cases. *)
Theorem digest_authorization_defined user pswd method url (details : gmap string string) :
  match digest_authorization user pswd method url details with
  | Return h =>
      is_Some (details !! "algorithm" ≫= (λ a, algorithms !! a)) ∧
      is_Some (details !! "realm") ∧
      is_Some (details !! "nonce") ∧
      details !! "qop" ≠ Some "auth-int" ∧
      (details !! "algorithm" = Some "md5-sess" → is_Some (details !! "cnonce"))
  | Raise e =>
      (details !! "algorithm" ≫= (λ a, algorithms !! a) = None ∧ e = KeyError) ∨
      (is_Some (details !! "algorithm" ≫= (λ a, algorithms !! a)) ∧ e = TypeError ∧
       (details !! "realm" = None ∨
        details !! "nonce" = None ∨
        details !! "qop" = Some "auth-int" ∨
        (details !! "algorithm" = Some "md5-sess" ∧ details !! "cnonce" = None)))
  end.
Proof.
  unfold digest_authorization, calcHA1, calcResponse, algorithms_get. simpl.
  destruct (details !! "algorithm") as [a|]; simpl; [|by left].
  destruct (algorithms !! a) as [h|]; simpl; [|by left].
  destruct (details !! "realm") as [realm|]; simpl; [|right; naive_solver].
  destruct (details !! "nonce") as [nonce|], (details !! "cnonce") as [cnonce|],
    (details !! "qop") as [qop|], (details !! "nc") as [nc|];
    repeat case_decide; simplify_eq; simpl;
    repeat match goal with |- context [nonempty ?x] => destruct (nonempty x); simpl end;
    first [ by (split_and!; eauto; naive_solver) | right; naive_solver ].
Qed.

(** An exception in the handler ends the injection: when computing the
    header raises, [handleStatus_401] has already marked the factory as
    retried, leaves its headers as they were and connects no more, so the
    one POST without Authorization is all that is sent. *)
Theorem handler_raise_is_final (factory : Factory) (user : string) (e : exn)
    (r1 : Response) (rest : list Response) :
  username factory = Some user →
  retried factory = false →
  status r1 = 401 →
  authorization user (password factory) (method factory) (url factory)
    (www_authenticate r1) = Raise e →
  handleStatus_401 factory (www_authenticate r1)
  = (mkFactory (username factory) (password factory) true (headers_out factory)
       (method factory) (url factory) (scheme factory), Raise e) ∧
  post factory (r1 :: rest) = ([headers_out factory], Crashed e).
Proof.
  intros Huser Hfresh H401 Hauth.
  assert (handleStatus_401 factory (www_authenticate r1)
          = (mkFactory (username factory) (password factory) true (headers_out factory)
               (method factory) (url factory) (scheme factory), Raise e)) as Hh.
  { unfold handleStatus_401. rewrite Huser, Hfresh. simpl. by rewrite Hauth. }
  split; [done|].
  simpl. rewrite decide_True by done. by rewrite Hh.
Qed.

(** Basic is the fallback: when the challenge offers ["basic "] and no
    ["digest "], the header is ["Basic "] followed by the encoding of
    user:password with its newlines removed, on one line. *)
Theorem basic_authorization_chosen user pswd method url items :
  offers "basic " items →
  ¬ offers "digest " items →
  authorization user pswd method url (Some items)
  = Return (Some (basic_authorization encodestring user pswd)) ∧
  basic_authorization encodestring user pswd
  = "Basic " +:+ Py.remove "010" (encodestring (user +:+ ":" +:+ pswd)) ∧
  Py.contains "010" (basic_authorization encodestring user pswd) = false.
Proof.
  intros Hb Hd. split_and!.
  - unfold authorization. simpl.
    destruct (read_challenge_no_digest items false false ∅ Hd) as (b & -> & Hbasic).
    simpl. by rewrite Hbasic by (by right).
  - done.
  - apply contains_remove.
Qed.

(** A Digest challenge is split at every comma and each piece at its
    first equals sign: a piece without an equals sign, such as the second
    half of a quoted list [qop="auth,auth-int"], or one whose value is
    empty, makes the handler raise, whatever else the challenge holds. *)
Theorem challenge_piece_malformed user pswd method url items item piece :
  item ∈ items →
  Py.startswith item "digest " = true →
  piece ∈ Py.split "," (Py.drop 7 item) →
  Py.contains "=" piece = false ∨ (∃ k v, Py.split1 "=" piece = [k; v] ∧ Py.strip v = "") →
  ∃ e, authorization user pswd method url (Some items) = Raise e.
Proof.
  intros Hin Hst Hpiece Hbad. unfold authorization. simpl.
  destruct (read_challenge_raise items (false, false, ∅)) as [e ->]; [|by eauto].
  by exists item, piece.
Qed.

End HandlerProperties.

Lemma handler_raise_is_final_witness :
  let r1 := mkResponse 401 (Some [example_challenge_bare]) in
  authorization hashlib_digest base64.encodestring "u" "p" "POST"
    "http://localhost:8008/inbox/" (Some [example_challenge_bare]) = Raise KeyError ∧
  handleStatus_401 hashlib_digest base64.encodestring example_factory (www_authenticate r1)
  = (mkFactory (username example_factory) (password example_factory) true
       (headers_out example_factory) (method example_factory) (url example_factory)
       (scheme example_factory), Raise KeyError) ∧
  post hashlib_digest base64.encodestring example_factory [r1; mkResponse 200 None]
  = ([headers_out example_factory], Crashed KeyError).
Proof.
  intros r1. split; [vm_compute; reflexivity|].
  apply (handler_raise_is_final hashlib_digest base64.encodestring example_factory "u"
           KeyError r1 [mkResponse 200 None]);
    [reflexivity | reflexivity | reflexivity | vm_compute; reflexivity].
Defined.

Lemma basic_authorization_chosen_witness :
  authorization hashlib_digest base64.encodestring "u" "p" "POST"
    "http://localhost:8008/inbox/" (Some ["basic realm=" +:+ quoted "x"])
  = Return (Some (basic_authorization base64.encodestring "u" "p")) ∧
  basic_authorization base64.encodestring "u" "p"
  = "Basic " +:+ Py.remove "010" (base64.encodestring ("u" +:+ ":" +:+ "p")) ∧
  Py.contains "010" (basic_authorization base64.encodestring "u" "p") = false.
Proof.
  apply (basic_authorization_chosen hashlib_digest base64.encodestring).
  - exists ("basic realm=" +:+ quoted "x"). split; [apply list_elem_of_singleton|]; reflexivity.
  - intros (item & Hin & Hst). apply list_elem_of_singleton in Hin. subst item.
    vm_compute in Hst. discriminate Hst.
Defined.

Lemma challenge_piece_malformed_witness :
  ∃ e, authorization hashlib_digest base64.encodestring "u" "p" "POST"
         "http://localhost:8008/inbox/" (Some [example_challenge_qops]) = Raise e.
Proof.
  apply (challenge_piece_malformed hashlib_digest base64.encodestring "u" "p" "POST"
           "http://localhost:8008/inbox/" [example_challenge_qops] example_challenge_qops
           ("auth-int" +:+ String dquote "")).
  - apply list_elem_of_singleton. reflexivity.
  - reflexivity.
  - vm_compute. do 4 right. left.
  - left. reflexivity.
Defined.

(** ** The retry, from the challenge *)

Section RetryProperties.

Variable digest : Hash → string → string.
Variable encodestring : string → string.

Local Abbreviation digest_authorization := (digest_authorization digest).
Local Abbreviation authorization := (authorization digest encodestring).
Local Abbreviation handleStatus_401 := (handleStatus_401 digest encodestring).
Local Abbreviation post := (post digest encodestring).

Lemma digest_authorization_value user pswd method url (details : gmap string string)
    algo h realm nonce :
  details !! "algorithm" = Some algo →
  algorithms !! algo = Some h →
  algo ≠ "md5-sess" →
  details !! "realm" = Some realm →
  details !! "nonce" = Some nonce →
  details !! "qop" ≠ Some "auth-int" →
  let nc := details !! "nc" in
  let cnonce := details !! "cnonce" in
  let qop := details !! "qop" in
  let HA1 := encode_hex (digest h (user +:+ ":" +:+ realm +:+ ":" +:+ pswd)) in
  let HA2 := encode_hex (digest h (method +:+ ":" +:+ url)) in
  let response :=
    encode_hex (digest h
      (if (truthy nc && truthy cnonce && truthy qop)%bool
       then HA1 +:+ ":" +:+ nonce +:+ ":" +:+ Py.str nc +:+ ":" +:+ Py.str cnonce +:+ ":"
            +:+ Py.str qop +:+ ":" +:+ HA2
       else HA1 +:+ ":" +:+ nonce +:+ ":" +:+ HA2)) in
  digest_authorization user pswd method url details
  = Return (if truthy qop
            then "Digest username=" +:+ quoted user +:+ ", realm=" +:+ quoted realm +:+
                 ", nonce=" +:+ quoted nonce +:+ ", uri=" +:+ quoted url +:+
                 ", response=" +:+ response +:+ ", algorithm=" +:+ algo +:+
                 ", cnonce=" +:+ quoted (Py.str cnonce) +:+ ", qop=" +:+ Py.str qop +:+
                 ", nc=" +:+ Py.str nc
            else "Digest username=" +:+ quoted user +:+ ", realm=" +:+ quoted realm +:+
                 ", nonce=" +:+ quoted nonce +:+ ", uri=" +:+ quoted url +:+
                 ", response=" +:+ response +:+ ", algorithm=" +:+ algo).
Proof.
  intros Halgo Hh Hsess Hrealm Hnonce Hqop nc cnonce qop HA1 HA2 response.
  unfold digest_authorization, calcHA1, calcResponse, algorithms_get.
  rewrite Halgo, Hrealm, Hnonce. fold nc cnonce qop. simpl. rewrite Hh. simpl.
  rewrite (decide_False (P := Some algo = Some "md5-sess")) by (by intros [= ?]). simpl.
  rewrite (decide_False (P := qop = Some "auth-int")) by done. simpl.
  subst response HA1 HA2.
  destruct nc as [nc'|], cnonce as [cnonce'|], qop as [qop'|]; simpl;
    rewrite ?andb_false_r; simpl;
    repeat match goal with |- context [nonempty ?x] => destruct (nonempty x) end;
    simpl; by rewrite !append_assoc.
Qed.

Lemma post_retry (factory : Factory) user h r1 r2 rest :
  username factory = Some user →
  retried factory = false →
  status r1 = 401 →
  authorization user (password factory) (method factory) (url factory) (www_authenticate r1)
  = Return (Some h) →
  handleStatus_401 factory (www_authenticate r1)
  = (mkFactory (username factory) (password factory) true
       (<["Authorization" := h]> (headers_out factory))
       (method factory) (url factory) (scheme factory),
     Return (Connect (bool_decide (scheme factory = "https")))) ∧
  post factory (r1 :: r2 :: rest)
  = ([headers_out factory; <["Authorization" := h]> (headers_out factory)],
     if decide (status r2 = 401) then Failed (CouldNotAuthenticate user)
     else Page (status r2)).
Proof.
  intros Huser Hfresh H401 Hauth.
  assert (handleStatus_401 factory (www_authenticate r1)
          = (mkFactory (username factory) (password factory) true
               (<["Authorization" := h]> (headers_out factory))
               (method factory) (url factory) (scheme factory),
             Return (Connect (bool_decide (scheme factory = "https"))))) as Hh.
  { unfold handleStatus_401. rewrite Huser, Hfresh. simpl. by rewrite Hauth. }
  split; [done|]. clear Hh.
  simpl. rewrite decide_True by done.
  unfold handleStatus_401 at 1. rewrite Huser, Hfresh. simpl. rewrite Hauth.
  destruct (decide (status r2 = 401)); [|done].
  unfold handleStatus_401. by simpl.
Qed.

(** The retry with Basic, from the challenge: for a factory with
    credentials that has not retried, a 401 whose challenge offers
    ["basic "] and no ["digest "] makes the handler mark the factory as
    retried, set Authorization to ["Basic "] followed by the encoding of
    user:password without its newlines, and connect again; the POST is
    sent a second time with that header and the other headers unchanged,
    and the next response ends the injection: a 401 as the failure
    Unauthorized (could not authenticate), any other status as the page. *)
Theorem retry_with_basic (factory : Factory) user items r1 r2 rest :
  username factory = Some user →
  retried factory = false →
  status r1 = 401 →
  www_authenticate r1 = Some items →
  offers "basic " items →
  ¬ offers "digest " items →
  let h := "Basic " +:+ Py.remove "010" (encodestring (user +:+ ":" +:+ password factory)) in
  handleStatus_401 factory (www_authenticate r1)
  = (mkFactory (username factory) (password factory) true
       (<["Authorization" := h]> (headers_out factory))
       (method factory) (url factory) (scheme factory),
     Return (Connect (bool_decide (scheme factory = "https")))) ∧
  post factory (r1 :: r2 :: rest)
  = ([headers_out factory; <["Authorization" := h]> (headers_out factory)],
     if decide (status r2 = 401) then Failed (CouldNotAuthenticate user)
     else Page (status r2)).
Proof.
  intros Huser Hfresh H401 Hitems Hb Hd h.
  apply post_retry; [done..|].
  rewrite Hitems. unfold authorization. simpl.
  destruct (read_challenge_no_digest items false false ∅ Hd) as (b & -> & Hbasic).
  simpl. by rewrite Hbasic by (by right).
Qed.

(** The retry with Digest, from the challenge: for a factory with
    credentials that has not retried, a 401 in whose challenge the handler
    reads a Digest item with the directives [details], an algorithm of
    the dictionary other than md5-sess, a realm, a nonce and no
    qop=auth-int among them, makes the handler mark the factory as
    retried, set Authorization to the Digest header below and connect
    again, whether the challenge offers Basic too or not.  The header
    names the user, the realm, the nonce, the URL of the factory as uri,
    the response and the algorithm, and, when the challenge has a
    non-empty qop, the cnonce, qop and nc read from the challenge; the
    response is the hex digest of HA1:nonce:HA2, or of
    HA1:nonce:nc:cnonce:qop:HA2 when nc, cnonce and qop are all in the
    challenge and not empty, with HA1 the hex digest of
    user:realm:password and HA2 that of method:url.  The POST is sent a
    second time with that header, and the next response ends the
    injection: a 401 as the failure Unauthorized, any other status as the
    page. *)
Theorem retry_with_digest (factory : Factory) user items basic (details : gmap string string)
    algo h realm nonce r1 r2 rest :
  username factory = Some user →
  retried factory = false →
  status r1 = 401 →
  www_authenticate r1 = Some items →
  read_challenge items (false, false, ∅) = Return (basic, true, details) →
  details !! "algorithm" = Some algo →
  algorithms !! algo = Some h →
  algo ≠ "md5-sess" →
  details !! "realm" = Some realm →
  details !! "nonce" = Some nonce →
  details !! "qop" ≠ Some "auth-int" →
  let nc := details !! "nc" in
  let cnonce := details !! "cnonce" in
  let qop := details !! "qop" in
  let HA1 := encode_hex (digest h (user +:+ ":" +:+ realm +:+ ":" +:+ password factory)) in
  let HA2 := encode_hex (digest h (method factory +:+ ":" +:+ url factory)) in
  let response :=
    encode_hex (digest h
      (if (truthy nc && truthy cnonce && truthy qop)%bool
       then HA1 +:+ ":" +:+ nonce +:+ ":" +:+ Py.str nc +:+ ":" +:+ Py.str cnonce +:+ ":"
            +:+ Py.str qop +:+ ":" +:+ HA2
       else HA1 +:+ ":" +:+ nonce +:+ ":" +:+ HA2)) in
  let header :=
    if truthy qop
    then "Digest username=" +:+ quoted user +:+ ", realm=" +:+ quoted realm +:+
         ", nonce=" +:+ quoted nonce +:+ ", uri=" +:+ quoted (url factory) +:+
         ", response=" +:+ response +:+ ", algorithm=" +:+ algo +:+
         ", cnonce=" +:+ quoted (Py.str cnonce) +:+ ", qop=" +:+ Py.str qop +:+
         ", nc=" +:+ Py.str nc
    else "Digest username=" +:+ quoted user +:+ ", realm=" +:+ quoted realm +:+
         ", nonce=" +:+ quoted nonce +:+ ", uri=" +:+ quoted (url factory) +:+
         ", response=" +:+ response +:+ ", algorithm=" +:+ algo in
  handleStatus_401 factory (www_authenticate r1)
  = (mkFactory (username factory) (password factory) true
       (<["Authorization" := header]> (headers_out factory))
       (method factory) (url factory) (scheme factory),
     Return (Connect (bool_decide (scheme factory = "https")))) ∧
  post factory (r1 :: r2 :: rest)
  = ([headers_out factory; <["Authorization" := header]> (headers_out factory)],
     if decide (status r2 = 401) then Failed (CouldNotAuthenticate user)
     else Page (status r2)).
Proof.
  intros Huser Hfresh H401 Hitems Hread Halgo Hh Hsess Hrealm Hnonce Hqop
    nc cnonce qop HA1 HA2 response header.
  apply post_retry; [done..|].
  rewrite Hitems. unfold authorization. simpl. rewrite Hread. simpl.
  rewrite bool_decide_eq_true_2.
  - simpl.
    rewrite (digest_authorization_value user (password factory) (method factory) (url factory)
               details algo h realm nonce) by done.
    done.
  - intros ->. by rewrite lookup_empty in Halgo.
Qed.

End RetryProperties.

Lemma retry_with_basic_witness :
  let h0 := headers_out example_factory in
  let r1 := mkResponse 401 (Some ["basic realm=" +:+ quoted "x"]) in
  headers_out (handleStatus_401 hashlib_digest base64.encodestring example_factory
                 (www_authenticate r1)).1 !! "Authorization" = Some "Basic dTpw" ∧
  post hashlib_digest base64.encodestring example_factory [r1; mkResponse 200 None; r1]
  = ([h0; <["Authorization" := "Basic dTpw"]> h0], Page 200) ∧
  post hashlib_digest base64.encodestring example_factory [r1; r1; mkResponse 200 None]
  = ([h0; <["Authorization" := "Basic dTpw"]> h0], Failed (CouldNotAuthenticate "u")).
Proof.
  intros h0 r1.
  assert (offers "basic " ["basic realm=" +:+ quoted "x"]) as Hb.
  { exists ("basic realm=" +:+ quoted "x"). split; [apply list_elem_of_singleton|]; reflexivity. }
  assert (¬ offers "digest " ["basic realm=" +:+ quoted "x"]) as Hd.
  { intros (item & Hin & Hst). apply list_elem_of_singleton in Hin. subst item.
    vm_compute in Hst. discriminate Hst. }
  split_and!.
  - destruct (retry_with_basic hashlib_digest base64.encodestring example_factory "u"
                _ r1 r1 [] eq_refl eq_refl eq_refl eq_refl Hb Hd) as [-> _].
    reflexivity.
  - exact (proj2 (retry_with_basic hashlib_digest base64.encodestring example_factory "u"
                _ r1 (mkResponse 200 None) [r1] eq_refl eq_refl eq_refl eq_refl Hb Hd)).
  - exact (proj2 (retry_with_basic hashlib_digest base64.encodestring example_factory "u"
                _ r1 r1 [mkResponse 200 None] eq_refl eq_refl eq_refl eq_refl Hb Hd)).
Defined.

Lemma retry_with_digest_witness :
  let h0 := headers_out example_factory in
  let header :=
    "Digest username=" +:+ quoted "u" +:+ ", realm=" +:+ quoted "x" +:+
    ", nonce=" +:+ quoted "n" +:+ ", uri=" +:+ quoted "http://localhost:8008/inbox/" +:+
    ", response=a6d2a98dd1c0f3767efc67d837fd791b, algorithm=md5, cnonce=" +:+
    quoted "None" +:+ ", qop=auth, nc=None" in
  post hashlib_digest base64.encodestring example_factory [example_401; mkResponse 200 None]
  = ([h0; <["Authorization" := header]> h0], Page 200) ∧
  post hashlib_digest base64.encodestring example_factory
    [example_401; example_401; mkResponse 200 None]
  = ([h0; <["Authorization" := header]> h0], Failed (CouldNotAuthenticate "u")).
Proof.
  intros h0 header.
  pose (details := <["algorithm" := "md5"]> (<["qop" := "auth"]> (<["nonce" := "n"]>
                     (<["realm" := "x"]> (∅ : gmap string string))))).
  assert (read_challenge ["basic realm=" +:+ quoted "x"; example_challenge] (false, false, ∅)
          = Return (true, true, details)) as Hread by (vm_compute; reflexivity).
  split.
  - pose proof (proj2 (retry_with_digest hashlib_digest base64.encodestring example_factory "u"
                  _ true details "md5" md5 "x" "n" example_401 (mkResponse 200 None) []
                  eq_refl eq_refl eq_refl eq_refl Hread eq_refl eq_refl
                  ltac:(discriminate) eq_refl eq_refl ltac:(discriminate))) as H.
    vm_compute in H. vm_compute. exact H.
  - pose proof (proj2 (retry_with_digest hashlib_digest base64.encodestring example_factory "u"
                  _ true details "md5" md5 "x" "n" example_401 example_401
                  [mkResponse 200 None]
                  eq_refl eq_refl eq_refl eq_refl Hread eq_refl eq_refl
                  ltac:(discriminate) eq_refl eq_refl ltac:(discriminate))) as H.
    vm_compute in H. vm_compute. exact H.
Defined.

(** ** Command-line overrides *)

Lemma app3_cons3 {A} (l1 l2 l3 : list A) :
  l1 ≠ [] → l2 ≠ [] → l3 ≠ [] → ∃ x y z l, l1 ++ l2 ++ l3 = x :: y :: z :: l.
Proof.
  intros H1 H2 H3.
  assert (3 ≤ length (l1 ++ l2 ++ l3))%nat as Hlen.
  { rewrite !length_app. destruct l1, l2, l3; simpl; try done; lia. }
  destruct (l1 ++ l2 ++ l3) as [|x [|y [|z l]]]; simpl in Hlen; try lia.
  by eexists _, _, _, _.
Qed.

Section OptionsProperties.

Variable number : Type.
Variable convert : NumType → string → result number.

Local Abbreviation Override := (Override number).
Local Abbreviation _coerceOption := (_coerceOption number convert).
Local Abbreviation _setOverride := (_setOverride number convert).
Local Abbreviation _setOverride_value := (_setOverride_value number convert).
Local Abbreviation opt_option := (opt_option number convert).
Local Abbreviation get_path := (get_path number).
Local Abbreviation shaped := (shaped number).

Lemma shaped_inv cfg (ov : gmap string Override) k sub x :
  shaped cfg ov → cfg !! k = Some (CDict sub) → ov !! k = Some x →
  ∃ o, x = ODict o ∧ shaped sub o.
Proof. intros Hs. inversion Hs as [? ? H]; subst. apply H. Qed.

Lemma shaped_empty cfg : shaped cfg ∅.
Proof. constructor. intros k sub x _ Hx. by rewrite lookup_empty in Hx. Qed.

Lemma shaped_insert_value cfg (ov : gmap string Override) key v :
  shaped cfg ov → (∀ sub, cfg !! key ≠ Some (CDict sub)) →
  shaped cfg (<[key := v]> ov).
Proof.
  intros Hs Hkey. constructor. intros k sub x Hk Hx.
  destruct (decide (k = key)) as [->|Hne]; [by apply Hkey in Hk|].
  rewrite lookup_insert_ne in Hx by done. exact (shaped_inv _ _ _ _ _ Hs Hk Hx).
Qed.

Lemma shaped_insert_dict cfg (ov : gmap string Override) key sub o :
  shaped cfg ov → cfg !! key = Some (CDict sub) → shaped sub o →
  shaped cfg (<[key := ODict o]> ov).
Proof.
  intros Hs Hkey Ho. constructor. intros k sub' x Hk Hx.
  destruct (decide (k = key)) as [->|Hne].
  - rewrite lookup_insert_eq in Hx. simplify_eq. exists o. by split.
  - rewrite lookup_insert_ne in Hx by done. exact (shaped_inv _ _ _ _ _ Hs Hk Hx).
Qed.

Lemma _coerceOption_not_dict cfg key value v :
  _coerceOption cfg key value = Return v → ∀ sub, cfg !! key ≠ Some (CDict sub).
Proof. unfold _coerceOption. intros Hv sub Hk. by rewrite Hk in Hv. Qed.

Lemma _setOverride_shaped cfg key rest value (ov : gmap string Override) :
  shaped cfg ov → shaped cfg (_setOverride cfg key rest value ov).1.
Proof.
  revert cfg key ov. induction rest as [|key' rest' IH]; intros cfg key ov Hs.
  - simpl. destruct (_coerceOption cfg key value) as [v|e] eqn:Hv; simpl; [|done].
    apply shaped_insert_value; [done|]. exact (_coerceOption_not_dict _ _ _ _ Hv).
  - simpl. destruct (cfg !! key) as [[| | |sub|]|] eqn:Hk; simpl; try done.
    destruct (ov !! key) as [x|] eqn:Hx.
    + destruct (shaped_inv _ _ _ _ _ Hs Hk Hx) as (o & -> & Ho).
      specialize (IH sub key' o Ho).
      destruct (_setOverride sub key' rest' value o) as [o' r]. simpl in *.
      by apply (shaped_insert_dict cfg ov key sub o').
    + specialize (IH sub key' ∅ (shaped_empty sub)).
      destruct (_setOverride sub key' rest' value ∅) as [o' r]. simpl in *.
      by apply (shaped_insert_dict cfg ov key sub o').
Qed.

Lemma _setOverride_leaf cfg key rest value (ov : gmap string Override) last final :
  shaped cfg ov →
  config_parents cfg key rest = Some (last, final) →
  match _coerceOption last final value with
  | Return v =>
      (_setOverride cfg key rest value ov).2 = Return () ∧
      get_path (_setOverride cfg key rest value ov).1 key rest = Some v
  | Raise e =>
      (_setOverride cfg key rest value ov).2 = Raise e ∧
      get_path (_setOverride cfg key rest value ov).1 key rest = get_path ov key rest
  end.
Proof.
  revert cfg key ov. induction rest as [|key' rest' IH]; intros cfg key ov Hs Hp.
  - simpl in Hp. injection Hp as <- <-. simpl.
    destruct (_coerceOption cfg key value) as [v|e]; simpl; [|done].
    by rewrite lookup_insert_eq.
  - simpl in Hp. destruct (cfg !! key) as [[| | |sub|]|] eqn:Hk; try done.
    simpl. rewrite Hk.
    destruct (ov !! key) as [x|] eqn:Hx.
    + destruct (shaped_inv _ _ _ _ _ Hs Hk Hx) as (o & -> & Ho).
      specialize (IH sub key' o Ho Hp).
      destruct (_setOverride sub key' rest' value o) as [o' r]. simpl in *.
      rewrite lookup_insert_eq. done.
    + specialize (IH sub key' ∅ (shaped_empty sub) Hp).
      destruct (_setOverride sub key' rest' value ∅) as [o' r]. simpl in *.
      rewrite lookup_insert_eq.
      destruct (_coerceOption last final value); [done|].
      destruct IH as [-> ->]. split; [done|].
      destruct rest'; simpl; by rewrite ?lookup_empty.
Qed.

Lemma _setOverride_unknown cfg key rest value (ov : gmap string Override) :
  shaped cfg ov →
  config_parents cfg key rest = None →
  ((_setOverride cfg key rest value ov).2 = Return () ∨
   (_setOverride cfg key rest value ov).2 = Raise UsageError) ∧
  get_path (_setOverride cfg key rest value ov).1 key rest = get_path ov key rest.
Proof.
  revert cfg key ov. induction rest as [|key' rest' IH]; intros cfg key ov Hs Hp; [done|].
  simpl in Hp. simpl.
  destruct (cfg !! key) as [[| | |sub|]|] eqn:Hk; simpl; try by auto.
  destruct (ov !! key) as [x|] eqn:Hx.
  - destruct (shaped_inv _ _ _ _ _ Hs Hk Hx) as (o & -> & Ho).
    specialize (IH sub key' o Ho Hp).
    destruct (_setOverride sub key' rest' value o) as [o' r]. simpl in *.
    by rewrite lookup_insert_eq.
  - specialize (IH sub key' ∅ (shaped_empty sub) Hp).
    destruct (_setOverride sub key' rest' value ∅) as [o' r]. simpl in *.
    rewrite lookup_insert_eq. destruct IH as [Hr ->]. split; [done|].
    destruct rest'; simpl; by rewrite ?lookup_empty.
Qed.

Lemma _coerceOption_errors cfg key value e :
  _coerceOption cfg key value = Raise e →
  e = UsageError ∨ ∃ t v, convert t v = Raise e.
Proof.
  unfold _coerceOption.
  destruct (cfg !! key) as [[|t| |sub|]|]; try done.
  - destruct (convert t value) as [n|e'] eqn:Hc; [done|].
    intros [= <-]. right. by exists t, value.
  - intros [= <-]. by left.
Qed.

Lemma _setOverride_errors cfg key rest value (ov : gmap string Override) e :
  shaped cfg ov →
  (_setOverride cfg key rest value ov).2 = Raise e →
  e = UsageError ∨ ∃ t v, convert t v = Raise e.
Proof.
  revert cfg key ov. induction rest as [|key' rest' IH]; intros cfg key ov Hs.
  - simpl. destruct (_coerceOption cfg key value) as [v|e'] eqn:Hv; simpl; [done|].
    intros [= <-]. by eapply _coerceOption_errors.
  - simpl. destruct (cfg !! key) as [[| | |sub|]|] eqn:Hk; simpl;
      try done; try (intros [= <-]; by left).
    destruct (ov !! key) as [x|] eqn:Hx.
    + destruct (shaped_inv _ _ _ _ _ Hs Hk Hx) as (o & -> & Ho).
      specialize (IH sub key' o Ho).
      by destruct (_setOverride sub key' rest' value o) as [o' r].
    + specialize (IH sub key' ∅ (shaped_empty sub)).
      by destruct (_setOverride sub key' rest' value ∅) as [o' r].
Qed.

(** What [--option path=value] does, for overrides that follow the
    defaults (as all that [opt_option] builds from none do): when every
    element of the path but the last names a dictionary of the defaults,
    the value coerced to the type of the default is afterwards found at
    that path of the overrides, or the coercion's exception is raised and
    nothing is stored there; when an element before the last is unknown,
    or names something that is no dictionary, nothing is stored at the
    path, and the call returns without a complaint or raises UsageError. *)
Theorem opt_option_path cfg path value key rest (ov : gmap string Override) :
  shaped cfg ov →
  Py.contains "=" path = false →
  Py.contains "=" value = false →
  Py.split "/" path = key :: rest →
  match config_parents cfg key rest with
  | Some (last, final) =>
      match _coerceOption last final value with
      | Return v =>
          (opt_option cfg (path +:+ "=" +:+ value) ov).2 = Return () ∧
          get_path (opt_option cfg (path +:+ "=" +:+ value) ov).1 key rest = Some v
      | Raise e =>
          (opt_option cfg (path +:+ "=" +:+ value) ov).2 = Raise e ∧
          get_path (opt_option cfg (path +:+ "=" +:+ value) ov).1 key rest
          = get_path ov key rest
      end
  | None =>
      ((opt_option cfg (path +:+ "=" +:+ value) ov).2 = Return () ∨
       (opt_option cfg (path +:+ "=" +:+ value) ov).2 = Raise UsageError) ∧
      get_path (opt_option cfg (path +:+ "=" +:+ value) ov).1 key rest
      = get_path ov key rest
  end.
Proof.
  intros Hs Hpath Hvalue Hsplit.
  assert (opt_option cfg (path +:+ "=" +:+ value) ov = _setOverride cfg key rest value ov)
    as ->.
  { unfold opt_option. rewrite contains_app. simpl. rewrite orb_true_r.
    change ("=" +:+ value) with (String "=" value).
    rewrite split_at, split_without by done. by rewrite Hsplit. }
  destruct (config_parents cfg key rest) as [[last final]|] eqn:Hp.
  - by apply _setOverride_leaf.
  - by apply _setOverride_unknown.
Qed.

(** [opt_option] keeps the overrides following the defaults, so it never
    meets a value where it expects a dictionary: the only exceptions it
    raises are ValueError for an option with more than one equals sign,
    UsageError, and what the conversion of a number raises. *)
Theorem opt_option_shaped cfg option (ov : gmap string Override) :
  shaped cfg ov →
  shaped cfg (opt_option cfg option ov).1 ∧
  ∀ e, (opt_option cfg option ov).2 = Raise e →
    e = ValueError ∨ e = UsageError ∨ ∃ t v, convert t v = Raise e.
Proof.
  intros Hs. unfold opt_option.
  destruct (Py.split "=" _) as [|path [|value [|? ?]]]; simpl;
    try (split; [done|]; intros e [= <-]; by left).
  destruct (Py.split "/" path) as [|key rest] eqn:Hsplit.
  { by apply split_nonempty in Hsplit. }
  split; [by apply _setOverride_shaped|].
  intros e He. right. by eapply _setOverride_errors.
Qed.

(** An option with two equals signs or more is refused with ValueError
    and changes nothing, so a value cannot hold an equals sign; an option
    without one is the option with [=True]. *)
Theorem opt_option_equals cfg (ov : gmap string Override) :
  (∀ a b c, opt_option cfg (a +:+ "=" +:+ b +:+ "=" +:+ c) ov = (ov, Raise ValueError)) ∧
  (∀ flag, Py.contains "=" flag = false →
     opt_option cfg flag ov = opt_option cfg (flag +:+ "=True") ov).
Proof.
  split.
  - intros a b c. unfold opt_option.
    rewrite contains_app. simpl. rewrite orb_true_r.
    change ("=" +:+ b +:+ "=" +:+ c) with (String "=" (b +:+ String "=" c)).
    rewrite !split_app_sep.
    destruct (app3_cons3 (Py.split "=" a) (Py.split "=" b) (Py.split "=" c))
      as (x & y & z & l & ->); by try apply split_nonempty.
  - intros flag Hflag. unfold opt_option. rewrite Hflag.
    rewrite contains_app. simpl. by rewrite orb_true_r.
Qed.

End OptionsProperties.

Lemma opt_option_path_witness :
  (opt_option Z example_convert example_config
     ("Scheduling/iMIP/Enabled" +:+ "=" +:+ "True") ∅).2 = Return () ∧
  get_path Z
    (opt_option Z example_convert example_config
       ("Scheduling/iMIP/Enabled" +:+ "=" +:+ "True") ∅).1
    "Scheduling" ["iMIP"; "Enabled"] = Some (OBool true).
Proof.
  exact (opt_option_path Z example_convert example_config "Scheduling/iMIP/Enabled" "True"
           "Scheduling" ["iMIP"; "Enabled"] ∅ (shaped_empty Z example_config)
           eq_refl eq_refl eq_refl).
Defined.

Lemma opt_option_shaped_witness :
  shaped Z example_config
    (opt_option Z example_convert example_config "SSLPort=https" ∅).1 ∧
  ∀ e, (opt_option Z example_convert example_config "SSLPort=https" ∅).2 = Raise e →
    e = ValueError ∨ e = UsageError ∨ ∃ t v, example_convert t v = Raise e.
Proof.
  exact (opt_option_shaped Z example_convert example_config "SSLPort=https" ∅
           (shaped_empty Z example_config)).
Defined.

(** ** The attendees listed in an invitation *)

Section OutboundProperties.

Variable normalizeCUAddr : string → string.

Local Abbreviation attendee_entry := (attendee_entry normalizeCUAddr).
Local Abbreviation outbound_attendees := (outbound_attendees normalizeCUAddr).





(** No attendee is listed, and nothing is raised, when no ATTENDEE
    property carries a CUTYPE parameter. *)
Theorem outbound_attendees_cutype props :
  Forall (λ p, params p !! "CUTYPE" = None) props →
  outbound_attendees props = Return [].
Proof.
  induction 1 as [|p props Hp _ IH]; [done|].
  cbn [outbound_attendees].
  assert (attendee_entry p = Return None) as ->.
  { unfold attendee_entry, first_param. by rewrite Hp. }
  simpl. by rewrite IH.
Qed.

End OutboundProperties.

(** [generateEmail] by itself does not accept every list: the join of
    its HTML attendees succeeds exactly when every attendee whose name is
    [None] has a non-empty address; a pair ([None], [None]) or
    ([None], empty) makes it raise TypeError. *)
Theorem htmlAttendees_join (attendees : list (option string * option string)) :
  (∃ s, join ", " (htmlAttendees attendees) = Return s) ↔
  ∀ mailto, (None, mailto) ∈ attendees → truthy mailto = true.
Proof.
  induction attendees as [|[cn mailto] l IH].
  - split; [|by eexists]. intros _ mailto Hin. by apply elem_of_nil in Hin.
  - unfold htmlAttendees in *. rewrite fmap_cons.
    assert (∀ s, (∃ r, join ", " (Some s :: ((λ '(cn, mailto),
                   if truthy mailto
                   then Some ("<a href=" +:+ quoted ("mailto:" +:+ Py.str mailto) +:+ ">" +:+
                              Py.str cn +:+ "</a>")
                   else cn) <$> l)) = Return r)
                 ↔ ∀ m, (None, m) ∈ l → truthy m = true) as Hcons.
    { intros s. rewrite <- IH. simpl.
      destruct (_ <$> l) as [|x l'] eqn:Hl.
      - split; by eexists.
      - split.
        + intros [r Hr]. destruct (join ", " (x :: l')) as [r'|e]; [by eexists|done].
        + intros [r ->]. by eexists. }
    destruct (truthy mailto) eqn:Hm.
    + rewrite Hcons. split.
      * intros Hl m [[= <- <-]|Hin]%elem_of_cons; [done|by apply Hl].
      * intros Hl m Hin. apply Hl. by right.
    + destruct cn as [s|].
      * rewrite Hcons. split.
        -- intros Hl m [[=]|Hin]%elem_of_cons. by apply Hl.
        -- intros Hl m Hin. apply Hl. by right.
      * split; [by intros [? ?]|]. intros Hl.
        specialize (Hl mailto ltac:(left)). congruence.
Qed.


(** ** What reaches the calendar server *)

Section InboundSafety.

Variable message_from_string : string → result Message.
Variable parseaddr : option string → result (string * string).
Variable fromString : option string → result ical.Component.
Variable Deferred : Type.

Local Abbreviation InjectFn := (InjectFn Deferred).
Local Abbreviation inbound_body :=
  (inbound_body message_from_string parseaddr fromString Deferred).
Local Abbreviation inbound := (inbound message_from_string parseaddr fromString Deferred).
Local Abbreviation fetchNextMessage :=
  (fetchNextMessage message_from_string parseaddr fromString Deferred).

Lemma inbound_body_injections db message (fn : InjectFn) :
  filter is_inject (inbound_body db message fn).1 = [] ∨
  ∃ ev, stored db ev ∧ filter is_inject (inbound_body db message fn).1 = [ev].
Proof.
  unfold inbound_body, processDSN, processReply, rewriteReply, call, lift, log.
  unfold mbind, M_bind, mret, M_ret.
  repeat (case_match; simplify_eq; simpl in *; try by auto);
    match goal with
    | H : lookupByToken ?t db = Some (?o, ?a, ?u) |- _ =>
        right; eexists; split;
          [exists t, o, a, u; eexists _, _; split_and!; [reflexivity|exact H|reflexivity]
          |reflexivity]
    end.
Qed.

Lemma inbound_injections db message (fn : InjectFn) :
  injections (inbound db message fn) = [] ∨
  ∃ ev, stored db ev ∧ injections (inbound db message fn) = [ev].
Proof.
  unfold inbound. rewrite injections_try_except; [apply inbound_body_injections|].
  intros e. done.
Qed.

Lemma fetchNextMessage_injections db messages (fn : InjectFn) :
  Forall (stored db) (injections (fetchNextMessage db messages fn)) ∧
  (length (injections (fetchNextMessage db messages fn)) ≤ length messages)%nat.
Proof.
  induction messages as [|[uid data] messages [IH1 IH2]].
  - split; [constructor|done].
  - destruct (inbound_returns message_from_string parseaddr fromString Deferred db data fn)
      as (t1 & r & Hin).
    pose proof (inbound_injections db data fn) as Hinj.
    unfold injections in *. rewrite Hin in Hinj. simpl in Hinj.
    simpl. unfold cbGotMessage. rewrite Hin.
    destruct (fetchNextMessage db messages fn) as [t r'] eqn:Hrest.
    unfold mbind, M_bind. simpl in *.
    rewrite !filter_app, (filter_cons_False _ (FlagDeleted uid)) by (by intros []).
    rewrite filter_nil, app_nil_r.
    destruct Hinj as [->|(ev & Hev & ->)]; simpl.
    + split; [done|lia].
    + split; [by constructor|lia].
Qed.

(** What [inbound] never does: whatever the message and whatever the
    parsers give, it calls the injection function at most once, and only
    for an organizer and an attendee that the token table holds under a
    token that is not empty; so a session of the IMAP4 poller injects at
    most once for each message, and nothing that the table does not
    hold. *)
Theorem inbound_injects_stored db message messages (fn : InjectFn) :
  (injections (inbound db message fn) = [] ∨
   ∃ ev, stored db ev ∧ injections (inbound db message fn) = [ev]) ∧
  Forall (stored db) (injections (fetchNextMessage db messages fn)) ∧
  (length (injections (fetchNextMessage db messages fn)) ≤ length messages)%nat.
Proof.
  split; [apply inbound_injections|apply fetchNextMessage_injections].
Qed.

End InboundSafety.

(** ** The POP3 poller *)

Section POP3Properties.

Variable message_from_string : string → result Message.
Variable parseaddr : option string → result (string * string).
Variable fromString : option string → result ical.Component.
Variable Deferred : Type.

Local Abbreviation cbDownloaded :=
  (cbDownloaded message_from_string parseaddr fromString Deferred).
Local Abbreviation downloaded :=
  (downloaded message_from_string parseaddr fromString Deferred).
Local Abbreviation cbGotMessageSizes :=
  (cbGotMessageSizes message_from_string parseaddr fromString Deferred).

Lemma omap_command_gateway (t : list Event) : omap command_of (Gateway <$> t) = [].
Proof. induction t as [|ev t IH]; [done|]. csimpl. exact IH. Qed.

Lemma omap_gateway_gateway (t : list Event) : omap gateway_of (Gateway <$> t) = t.
Proof. induction t as [|ev t IH]; [done|]. csimpl. by rewrite IH. Qed.

Lemma downloaded_commands db id downloads fn :
  omap command_of (downloaded db id downloads fn) = DELE <$> seq id (length downloads).
Proof.
  revert id. induction downloads as [|lines downloads IH]; intros id; [done|].
  simpl. rewrite omap_app, IH. unfold cbDownloaded.
  destruct (inbound_returns message_from_string parseaddr fromString Deferred db
              (join_lines (String "013" (String "010" "")) lines) fn) as (t & r & ->).
  simpl. by rewrite omap_app, omap_command_gateway.
Qed.

Lemma downloaded_gateway db id downloads fn :
  omap gateway_of (downloaded db id downloads fn)
  = mjoin ((λ lines, (inbound message_from_string parseaddr fromString Deferred db
                        (join_lines (String "013" (String "010" "")) lines) fn).1)
           <$> downloads).
Proof.
  revert id. induction downloads as [|lines downloads IH]; intros id; [done|].
  simpl. rewrite omap_app, IH. unfold cbDownloaded.
  destruct (inbound_returns message_from_string parseaddr fromString Deferred db
              (join_lines (String "013" (String "010" "")) lines) fn) as (t & r & ->).
  simpl. rewrite omap_app, omap_gateway_gateway. simpl. by rewrite app_nil_r.
Qed.

(** A POP3 session retrieves every message the server lists, gives each
    to [inbound] and deletes it, whatever [inbound] did with it: the
    commands are the retrievals, the deletions of the same messages and the
    quit, and what the gateway does is what [inbound] does for each message
    in turn.  A message that [inbound] could not use is deleted as well. *)
Theorem pop3_deletes_every_message db downloads fn :
  omap command_of (cbGotMessageSizes db downloads fn)
  = (RETR <$> seq 0 (length downloads)) ++ (DELE <$> seq 0 (length downloads)) ++ [QUIT] ∧
  omap gateway_of (cbGotMessageSizes db downloads fn)
  = mjoin ((λ lines, (inbound message_from_string parseaddr fromString Deferred db
                        (join_lines (String "013" (String "010" "")) lines) fn).1)
           <$> downloads).
Proof.
  unfold cbGotMessageSizes. split.
  - rewrite !omap_app, downloaded_commands. f_equal.
    generalize (seq 0 (length downloads)). intros l.
    induction l as [|i l IH]; [done|]. csimpl. by rewrite IH.
  - rewrite !omap_app, downloaded_gateway. simpl. rewrite app_nil_r.
    generalize (seq 0 (length downloads)). intros l.
    induction l as [|i l IH]; [done|]. csimpl. exact IH.
Qed.

End POP3Properties.

(** ** Delivery-status notifications that are not failures *)

Section Bounces.

Variable message_from_string : string → result Message.
Variable parseaddr : option string → result (string * string).
Variable fromString : option string → result ical.Component.
Variable Deferred : Type.

Local Abbreviation InjectFn := (InjectFn Deferred).
Local Abbreviation log_failure := (log_failure Deferred).
Local Abbreviation inbound_body :=
  (inbound_body message_from_string parseaddr fromString Deferred).
Local Abbreviation inbound := (inbound message_from_string parseaddr fromString Deferred).

Lemma inbound_DSN_action db message msg (fn : InjectFn) report ds :
  message_from_string message = Return msg →
  last_part "multipart/report" (walk msg) = Some report →
  last_part "message/delivery-status" (walk msg) = Some ds →
  match find_action (Py.split "010" (as_str ds)) with
  | Raise e => inbound db message fn = ([Log Error (FailedToProcess e)], Return None)
  | Return action =>
      action ≠ Some "failed" →
      inbound db message fn
      = ([Log Error (CantProcessDSN (msg_get msg "Message-ID"))], Return None)
  end.
Proof.
  intros Hmsg Hr Hd. unfold inbound, inbound_body.
  rewrite Hmsg, bind_lift_return, (checkDSN_is_DSN _ _ _ Hr Hd).
  destruct (find_action _) as [action|e]; simpl; [|done].
  intros Hne. destruct action as [action|]; [|done].
  unfold lift, mbind, M_bind. simpl.
  repeat (case_match; simplify_eq; try done).
Qed.

(** A delivery-status notification is used only when its first action
    line reads failed: when no line of the status starts with [action:],
    or the first that does gives another action, such as delayed, or has
    an empty second field, [inbound] logs that it cannot process the DSN
    and injects nothing, calendar attached or not; when that line has no
    space at all, as in [Action:failed], reading it raises IndexError,
    which [inbound] logs as a failure. *)
Theorem bounce_other_action db message msg (fn : InjectFn) report ds before line after :
  message_from_string message = Return msg →
  last_part "multipart/report" (walk msg) = Some report →
  last_part "message/delivery-status" (walk msg) = Some ds →
  Forall other_line before →
  (Py.split "010" (as_str ds) = before →
   inbound db message fn
   = ([Log Error (CantProcessDSN (msg_get msg "Message-ID"))], Return None)) ∧
  (Py.split "010" (as_str ds) = before ++ line :: after →
   Py.startswith (Py.lower line) "action:" = true →
   match Py.split " " (Py.lower line) !! 1%nat with
   | None =>
       inbound db message fn = ([Log Error (FailedToProcess IndexError)], Return None)
   | Some action =>
       action ≠ "failed" →
       inbound db message fn
       = ([Log Error (CantProcessDSN (msg_get msg "Message-ID"))], Return None)
   end).
Proof.
  intros Hmsg Hr Hd Hb.
  pose proof (inbound_DSN_action db message msg fn report ds Hmsg Hr Hd) as Hin.
  split.
  - intros Hlines. rewrite Hlines in Hin.
    rewrite <- (app_nil_r before), find_action_skip in Hin by done. by apply Hin.
  - intros Hlines Hline. rewrite Hlines, find_action_skip in Hin by done.
    simpl in Hin. rewrite Hline in Hin.
    destruct (Py.split " " (Py.lower line) !! 1%nat) as [action|]; [|done].
    intros Hne. apply Hin. congruence.
Qed.

End Bounces.

Lemma bounce_other_action_witness :
  inbound (λ _, Return example_delayed) example_parseaddr example_fromString unit
    example_db "delayed" example_fn
  = ([Log Error (CantProcessDSN (Some "<1@y.com>"))], Return None).
Proof.
  destruct (bounce_other_action (λ _, Return example_delayed) example_parseaddr
              example_fromString unit example_db "delayed" example_delayed example_fn
              example_delayed
              (example_part "message/delivery-status"
                 (unlines ["Reporting-MTA: dns; mail.y.com"; "";
                           "Final-Recipient: rfc822; b@y.com";
                           "Action: delayed"; "Status: 4.4.1"]))
              ["Content-Type: message/delivery-status"; ""; "Reporting-MTA: dns; mail.y.com";
               ""; "Final-Recipient: rfc822; b@y.com"]
              "Action: delayed" ["Status: 4.4.1"])
    as [_ Hother];
    [reflexivity | reflexivity | reflexivity | repeat constructor |].
  specialize (Hother eq_refl eq_refl). simpl in Hother. apply Hother. discriminate.
Defined.

